(** * Live-mode segmentation and background transcription

    A shallow embedding of the live-mode pipeline of the voice-enricher
    desktop application (the React component [Home]): the voice-activity
    loop [checkVoiceActivity], the seal operation [processLiveSegment], the
    background worker [processTranscriptionQueue], the stop sequence
    [stopLiveMode] / [toggleLiveMode], and the uncertainty heuristic shared
    by the worker and [getUncertainTooltip].  Beside the pipeline: the
    editing of segments and of the transcript, the prompts, the display of
    times, and the saving of projects, in the renderer
    ([saveCurrentProject], [saveAudioToProject]) and in the main process
    (the handlers of [projects:create], [projects:rename], [projects:save]
    and [projects:saveAudio]).

    JavaScript runs every callback to completion, so each stretch of code
    between two [await]s is one atomic step on the component's refs and
    state; the event loop is the nondeterministic choice of the next step. *)

From Stdlib Require Import List Sorted ZArith NArith QArith Qminmax Qround Lia
  Bool String Ascii DecimalNat.
From coqutil Require Import Datatypes.RecordSetters.
Import ListNotations.
Import RecordSetters.TriangleBracketNotations.

Local Open Scope nat_scope.

(* ================================================================== *)
(** ** JavaScript strings *)

(** A JS string is a sequence of UTF-16 code units. *)
Definition jsstring := list N.

(** Source literals are UTF-8; [js] decodes one into code units. *)
Fixpoint utf8_decode (bs : list N) : jsstring :=
  match bs with
  | [] => []
  | b :: r =>
      if (b <? 128)%N then b :: utf8_decode r
      else if (b <? 224)%N then
        match r with
        | b1 :: r1 => ((b - 192) * 64 + (b1 - 128))%N :: utf8_decode r1
        | _ => []
        end
      else if (b <? 240)%N then
        match r with
        | b1 :: b2 :: r2 =>
            ((b - 224) * 4096 + (b1 - 128) * 64 + (b2 - 128))%N :: utf8_decode r2
        | _ => []
        end
      else
        match r with
        | b1 :: b2 :: b3 :: r3 =>
            let cp := ((b - 240) * 262144 + (b1 - 128) * 4096
                       + (b2 - 128) * 64 + (b3 - 128) - 65536)%N in
            (55296 + cp / 1024)%N :: (56320 + cp mod 1024)%N :: utf8_decode r3
        | _ => []
        end
  end.

Definition js (s : string) : jsstring :=
  utf8_decode (map N_of_ascii (list_ascii_of_string s)).

(** [WhiteSpace] and [LineTerminator] of ECMAScript: the class [\s] and the
    characters removed by [String.prototype.trim]. *)
Definition isLineTerminator (c : N) : bool :=
  ((c =? 10) || (c =? 13) || (c =? 8232) || (c =? 8233))%N.

Definition isWhiteSpace (c : N) : bool :=
  ((c =? 9) || (c =? 10) || (c =? 11) || (c =? 12) || (c =? 13) || (c =? 32)
   || (c =? 160) || (c =? 5760) || ((8192 <=? c) && (c <=? 8202))
   || (c =? 8232) || (c =? 8233) || (c =? 8239) || (c =? 8287)
   || (c =? 12288) || (c =? 65279))%N.

Fixpoint dropWhile {A} (p : A -> bool) (l : list A) : list A :=
  match l with
  | [] => []
  | x :: l' => if p x then dropWhile p l' else l
  end.

(** [s.trim()] *)
Definition trim (s : jsstring) : jsstring :=
  rev (dropWhile isWhiteSpace (rev (dropWhile isWhiteSpace s))).

(** [s.includes(t)] *)
Fixpoint startsWith (t s : jsstring) : bool :=
  match t, s with
  | [], _ => true
  | a :: t', b :: s' => (a =? b)%N && startsWith t' s'
  | _ :: _, [] => false
  end.

Fixpoint includes (t s : jsstring) : bool :=
  startsWith t s ||
  match s with
  | [] => false
  | _ :: s' => includes t s'
  end.

(** [s.split(/\s+/)]: the pieces between maximal runs of white space; a
    leading or trailing run leaves an empty piece, and the empty string
    splits into one empty piece. *)
Fixpoint splitOn (inSep : bool) (cur : jsstring) (s : jsstring) : list jsstring :=
  match s with
  | [] => [cur]
  | c :: s' =>
      if isWhiteSpace c
      then (if inSep then splitOn true [] s' else cur :: splitOn true [] s')
      else splitOn false (cur ++ [c]) s'
  end.

Definition split_ws (s : jsstring) : list jsstring := splitOn false [] s.

(** JS truthiness of a string: [Boolean(s)]. *)
Definition truthy (s : jsstring) : bool :=
  match s with [] => false | _ => true end.

(* ------------------------------------------------------------------ *)
(** *** The regular expressions of the source

    Every pattern of the component is a sequence of single-character atoms
    under a greedy quantifier, so a pattern is a list of pieces, matched
    with backtracking as a JS engine does. *)

Inductive atom :=
| Lit (c : N)         (* a character, compared under the [i] flag *)
| NotLit (c : N)      (* a negated class [[^c]] *)
| WhiteSpace.         (* [\s] *)

Record piece := Piece { p_atom : atom; p_min : nat; p_max : option nat }.

Definition regex := list piece.

(** [Canonicalize] of the [i] flag, on the Latin-1 letters.  Outside
    Latin-1 the real function never produces a character below 128 nor
    U+00C4, the only canonical forms the pattern alphabet has, so leaving
    those code units fixed does not change any match. *)
Definition canonicalize (c : N) : N :=
  if ((97 <=? c) && (c <=? 122))%N then (c - 32)%N
  else if ((224 <=? c) && (c <=? 254) && negb (c =? 247))%N then (c - 32)%N
  else c.

Definition atom_matches (a : atom) (c : N) : bool :=
  match a with
  | Lit p => (canonicalize p =? canonicalize c)%N
  | NotLit p => negb (canonicalize p =? canonicalize c)%N
  | WhiteSpace => isWhiteSpace c
  end.

Definition below (count : nat) (mx : option nat) : bool :=
  match mx with
  | None => true
  | Some m => count <? m
  end.

(** A quantified atom, greedy: take one more character when allowed, and
    fall back to the continuation [k] when the rest fails. *)
Fixpoint repeat_atom (a : atom) (mn : nat) (mx : option nat)
    (k : jsstring -> option jsstring) (count : nat) (s : jsstring)
    : option jsstring :=
  let stop := if mn <=? count then k s else None in
  match s with
  | c :: s' =>
      if atom_matches a c && below count mx then
        match repeat_atom a mn mx k (S count) s' with
        | Some r => Some r
        | None => stop
        end
      else stop
  | [] => stop
  end.

(** [match_at r s]: the rest of [s] after the match of [r] at its start. *)
Fixpoint match_at (r : regex) (s : jsstring) : option jsstring :=
  match r with
  | [] => Some s
  | p :: r' => repeat_atom (p_atom p) (p_min p) (p_max p) (match_at r') 0 s
  end.

(** [s.replace(r, repl)] for a global [r]: left to right, each match is
    replaced and the scan resumes after it; [skip] counts the characters
    of the current match still to be dropped. *)
Fixpoint replaceAll_from (r : regex) (repl : jsstring) (skip : nat)
    (s : jsstring) : jsstring :=
  match s with
  | [] =>
      match skip, match_at r [] with
      | O, Some _ => repl
      | _, _ => []
      end
  | c :: s' =>
      match skip with
      | S k => replaceAll_from r repl k s'
      | O =>
          match match_at r s with
          | Some rest =>
              match List.length s - List.length rest with
              | O => repl ++ c :: replaceAll_from r repl 0 s'
              | S k => repl ++ replaceAll_from r repl k s'
              end
          | None => c :: replaceAll_from r repl 0 s'
          end
      end
  end.

Definition replaceAll (r : regex) (repl : jsstring) (s : jsstring) : jsstring :=
  replaceAll_from r repl 0 s.

Definition one (a : atom) : piece := Piece a 1 (Some 1).
Definition star (a : atom) : piece := Piece a 0 None.
Definition plus (a : atom) : piece := Piece a 1 None.
Definition between (a : atom) (lo hi : nat) : piece := Piece a lo (Some hi).
Definition lits (s : string) : regex := map (fun c => one (Lit c)) (js s).

(** [/\(\s*WORD\s*\)/gi] and [/\*\s*WORD\s*\*/gi] *)
Definition tagged (open close : string) (word : string) : regex :=
  lits open ++ [star WhiteSpace] ++ lits word ++ [star WhiteSpace] ++ lits close.

(** [/\*[^*]{1,30}WORD[^*]*\*/gi] *)
Definition starred_containing (word : string) : regex :=
  lits "*" ++ [between (NotLit 42) 1 30] ++ lits word
    ++ [star (NotLit 42)] ++ lits "*".

Definition nonSpeechTagPatterns : list regex :=
  [ (* /\[[^\]]{1,50}\]/gi *)
    lits "[" ++ [between (NotLit 93) 1 50] ++ lits "]";
    tagged "(" ")" "Musik";
    tagged "(" ")" "Music";
    tagged "(" ")" "Applaus";
    tagged "(" ")" "Lachen";
    tagged "(" ")" "Aufregung";
    tagged "(" ")" "Schreien";
    tagged "*" "*" "Musik";
    tagged "*" "*" "Music";
    tagged "*" "*" "Applaus";
    tagged "*" "*" "Applause";
    tagged "*" "*" "Lachen";
    tagged "*" "*" "Laughter";
    tagged "*" "*" "Gelächter";
    tagged "*" "*" "Stille";
    tagged "*" "*" "Silence";
    tagged "*" "*" "Räuspern";
    tagged "*" "*" "Husten";
    tagged "*" "*" "Seufzen";
    tagged "*" "*" "Aufregung";
    tagged "*" "*" "Schreien";
    starred_containing "Lachen";
    starred_containing "Musik";
    starred_containing "Geräusch" ].

(** [/\s+/g] *)
Definition whiteSpaceRun : regex := [plus WhiteSpace].

Definition filterNonSpeechTags (text : jsstring) (preserveWhitespace : bool)
    : jsstring :=
  let filtered :=
    fold_left (fun acc pattern => replaceAll pattern [] acc)
              nonSpeechTagPatterns text in
  if preserveWhitespace then filtered
  else trim (replaceAll whiteSpaceRun (js " ") filtered).

(** [/(.)\1{3,}/.test(s)]: somewhere a character that [.] accepts (any but
    a line terminator) is followed by three more copies of itself. *)
Fixpoint hasRepeatedChars (s : jsstring) : bool :=
  match s with
  | [] => false
  | c :: s' =>
      (negb (isLineTerminator c) && startsWith [c; c; c] s')
      || hasRepeatedChars s'
  end.


Definition jsstring_eqb (a b : jsstring) : bool :=
  (List.length a =? List.length b) && startsWith a b.

(** [String(n)] and [s.padStart(n, fill)] *)
Fixpoint uint_digits (d : Decimal.uint) : jsstring :=
  match d with
  | Decimal.Nil => []
  | Decimal.D0 d' => 48%N :: uint_digits d'
  | Decimal.D1 d' => 49%N :: uint_digits d'
  | Decimal.D2 d' => 50%N :: uint_digits d'
  | Decimal.D3 d' => 51%N :: uint_digits d'
  | Decimal.D4 d' => 52%N :: uint_digits d'
  | Decimal.D5 d' => 53%N :: uint_digits d'
  | Decimal.D6 d' => 54%N :: uint_digits d'
  | Decimal.D7 d' => 55%N :: uint_digits d'
  | Decimal.D8 d' => 56%N :: uint_digits d'
  | Decimal.D9 d' => 57%N :: uint_digits d'
  end.

Definition String_of_nat (n : nat) : jsstring := uint_digits (Nat.to_uint n).

Definition padStart (s : jsstring) (n : nat) (fill : N) : jsstring :=
  repeat fill (n - List.length s) ++ s.

(** [parts.join(sep)] *)
Fixpoint join (sep : jsstring) (parts : list jsstring) : jsstring :=
  match parts with
  | [] => []
  | [p] => p
  | p :: rest => p ++ sep ++ join sep rest
  end.

(* ================================================================== *)
(** ** Data model *)

(** Numbers that are not integers (seconds, durations, the loudness mean)
    are rationals: every finite double is one, and the code only adds,
    subtracts and compares them.  The sums and differences are exact here;
    the rounding of a double sum such as [startTime + audioDuration] is not
    modelled. *)
Definition Qltb (x y : Q) : bool := negb (Qle_bool y x).

(** [(now - start) / 1000] *)
Definition seconds_since (now start : Z) : Q := (now - start) # 1000.

(** A [Blob] is its bytes; [new Blob(parts)] concatenates. *)
Definition Blob := list Byte.byte.
Definition size (b : Blob) : nat := List.length b.
Definition new_Blob (parts : list Blob) : Blob := List.concat parts.

Record QueueItem := {
  audioBlob : Blob;
  segmentIndex : nat;
  startTime : Q;
  audioFilePath : option jsstring
}.

Record TranscriptSegment := {
  seg_id : nat;
  text : jsstring;
  seg_startTime : Q;
  endTime : Q;
  audioFile : option jsstring;
  isUncertain : option bool
}.

Record Settings := {
  sttProvider : jsstring;
  whisperApiKey : option jsstring;
  liveIdleTime : option Z
}.

(** [x || dflt] on an optional string. *)
Definition or_else (x : option jsstring) (dflt : jsstring) : jsstring :=
  match x with
  | Some s => if truthy s then s else dflt
  | None => dflt
  end.

(* ------------------------------------------------------------------ *)
(** *** The uncertainty heuristic, as the worker computes it *)

Definition classifyUncertain (segmentText : jsstring) (audioDuration : Q) : bool :=
  let textWithoutTags := filterNonSpeechTags segmentText false in
  let hasActualSpeech :=
    truthy textWithoutTags && (2 <=? List.length textWithoutTags) in
  let wordCount :=
    if truthy textWithoutTags then List.length (split_ws textWithoutTags) else 0 in
  let hasRepeated := hasRepeatedChars textWithoutTags in
  let hasEllipsis := includes (js "...") textWithoutTags in
  let tooFewWordsForDuration := (wordCount <=? 2) && Qltb 3 audioDuration in
  (hasActualSpeech && (tooFewWordsForDuration || hasEllipsis || hasRepeated))
  || negb hasActualSpeech.

Definition newSegment (item : QueueItem) (segmentText : jsstring)
    (audioDuration : Q) : TranscriptSegment :=
  {| seg_id := segmentIndex item;
     text := segmentText;
     seg_startTime := startTime item;
     endTime := startTime item + audioDuration;
     audioFile :=
       match audioFilePath item with
       | Some p => if truthy p then Some p else None
       | None => None
       end;
     isUncertain := Some (classifyUncertain segmentText audioDuration) |}.

(* ------------------------------------------------------------------ *)
(** *** The same heuristic, as [getUncertainTooltip] rebuilds it *)

Definition reason_noSpeech : jsstring :=
  js "Kaum oder kein erkannter Sprachinhalt.".
Definition reason_tooFewWords : jsstring :=
  js "Nur wenige Wörter für die Aufnahmedauer – Transkription könnte unvollständig sein.".
Definition reason_ellipsis : jsstring :=
  js "Pausen oder Abbrüche (" ++ [34%N] ++ js "…" ++ [34%N] ++ js ") in der Erkennung.".
Definition reason_repeated : jsstring :=
  js "Wiederholte Zeichen (z.B. Dehnungen) – Erkennung möglicherweise unsicher.".

Definition is_true (b : option bool) : bool :=
  match b with Some true => true | _ => false end.

(** The body of [getUncertainTooltip] after its early return: the
    heuristic computed again from the segment, and the [reasons] array it
    fills. *)
Definition tooltipCore (segment : TranscriptSegment) : list jsstring :=
  let without := filterNonSpeechTags (text segment) false in
  let wordCount :=
    if truthy without
    then List.length (filter truthy (split_ws without)) else 0 in
  let duration := Qmax 0 (endTime segment - seg_startTime segment) in
  let hasRepeated := hasRepeatedChars without in
  let hasEllipsis := includes (js "...") without in
  let tooFewWordsForDuration := (wordCount <=? 2) && Qltb 3 duration in
  let hasActualSpeech := truthy without && (2 <=? List.length without) in
  if negb hasActualSpeech then [reason_noSpeech]
  else
    (if tooFewWordsForDuration then [reason_tooFewWords] else [])
      ++ (if hasEllipsis then [reason_ellipsis] else [])
      ++ (if hasRepeated then [reason_repeated] else []).

(** The [reasons] array at the end of [getUncertainTooltip]; the early
    return for a segment that is not flagged derives none. *)
Definition tooltipReasons (segment : TranscriptSegment) : list jsstring :=
  if negb (is_true (isUncertain segment)) then [] else tooltipCore segment.

Definition getUncertainTooltip (segment : TranscriptSegment) : jsstring :=
  if negb (is_true (isUncertain segment)) then js "Unsichere Erkennung"
  else
    match tooltipReasons segment with
    | [] => js "Unsichere Erkennung – bitte prüfen."
    | reasons => join (js " ") reasons
    end.

(* ================================================================== *)
(** ** The transcription collaborator *)

(** How an awaited promise settles. *)
Inductive Awaited (A : Type) :=
| Resolved (a : A)
| Rejected (message : jsstring).
Arguments Resolved {A} a.
Arguments Rejected {A} message.

(** The JSON body of the answer of [/api/transcribe]. *)
Record JsonBody := { j_error : option jsstring; j_transcript : option jsstring }.

Record FetchResponse := { res_ok : bool; res_json : Awaited JsonBody }.

(** What the whisper pipeline returns: a string or an object with an
    optional [text]. *)
Inductive WhisperResult :=
| WString (s : jsstring)
| WObject (text : option jsstring).

(** Everything the outside world answers while one item is transcribed;
    the worker looks only at the answers its path reaches. *)
Record SttReply := {
  r_duration : Awaited Q;             (* getAudioDurationFromBlob *)
  r_fetch : Awaited FetchResponse;    (* fetch("/api/transcribe") *)
  r_samples : Awaited N;              (* convertAudioToFloat32: sample count *)
  r_pipeline : Awaited unit;          (* loadWhisperPipeline *)
  r_whisper : Awaited WhisperResult   (* whisper(audioData, ...) *)
}.

(** The three ways one turn of the worker's loop ends: a [continue]
    without a message, [setError] (from a [continue] or from [catch]), or
    a recognised text with its duration. *)
Inductive Outcome :=
| Skipped
| Failed (message : jsstring)
| Completed (segmentText : jsstring) (audioDuration : Q).

Definition error_missingKey : jsstring :=
  js "OpenAI API Key für Whisper fehlt. Bitte in Einstellungen → Spracherkennung eintragen.".
Definition error_whisperApi : jsstring := js "Whisper-API-Fehler".

(** "Skip if completely empty" *)
Definition nonEmptyResult (segmentText : jsstring) (audioDuration : Q) : Outcome :=
  if negb (truthy segmentText) || (List.length segmentText <? 2) then Skipped
  else Completed segmentText audioDuration.

(** The body of the [try] block of [processTranscriptionQueue] up to the
    construction of the segment. *)
Definition transcribeItem (settings : option Settings) (reply : SttReply)
    : Outcome :=
  let useSttApi :=
    match settings with
    | Some st => jsstring_eqb (sttProvider st) (js "whisper-api")
    | None => false
    end in
  if useSttApi then
    match r_duration reply with
    | Rejected msg => Failed msg
    | Resolved audioDuration =>
        if Qltb audioDuration (1 # 2) then Skipped
        else
          let wk :=
            match settings with
            | Some st => option_map trim (whisperApiKey st)
            | None => None
            end in
          if negb (truthy (or_else wk [])) then Failed error_missingKey
          else
            match r_fetch reply with
            | Rejected msg => Failed msg
            | Resolved res =>
                if negb (res_ok res) then
                  match res_json res with
                  | Resolved errData => Failed (or_else (j_error errData) error_whisperApi)
                  | Rejected _ => Failed error_whisperApi
                  end
                else
                  match res_json res with
                  | Rejected msg => Failed msg
                  | Resolved data =>
                      nonEmptyResult (trim (or_else (j_transcript data) [])) audioDuration
                  end
            end
    end
  else
    match r_samples reply with
    | Rejected msg => Failed msg
    | Resolved samples =>
        if (samples <? 8000)%N then Skipped
        else
          let audioDuration := Z.of_N samples # 16000 in
          match r_pipeline reply with
          | Rejected msg => Failed msg
          | Resolved _ =>
              match r_whisper reply with
              | Rejected msg => Failed msg
              | Resolved result =>
                  let raw :=
                    match result with
                    | WString t => t
                    | WObject t => or_else t []
                    end in
                  nonEmptyResult (trim raw) audioDuration
              end
          end
    end.

(* ================================================================== *)
(** ** The component: refs, state and pending continuations *)

(** The state below holds the refs and the React state that the live-mode
    functions read or write.  Left out, because no function of the pipeline
    reads them back: the status line ([setStatus], with its 2 s timer back
    to "Bereit"), [setListening], and the project writes that [setSegments] and
    [setTranscript] trigger after each segment (the final write of the stop
    sequence is kept).  [saveAudioToProject] catches its own errors and
    resolves to a path or to [null], which is what [AudioSaved] carries.
    A [stop()] on a recorder that is already inactive fires no [onstop]. *)

Inductive RecorderState := recording | inactive.

(** A [processLiveSegment] call suspended at one of its two [await]s. *)
Inductive SealTask :=
| AwaitStop (chunks : list Blob) (segmentStartTime : Q) (awaited : bool)
| AwaitSave (blob : Blob) (index : nat) (segmentStartTime : Q) (awaited : bool).

(** The loop of [processTranscriptionQueue]: not running, in the 100 ms
    yield before an item, awaiting the collaborator, or in the 50 ms yield
    after a completed item. *)
Inductive WorkerTask :=
| WIdle
| WYield
| WInFlight (item : QueueItem)
| WAfter.

(** The stop branch of [toggleLiveMode]; it carries the [segments] value
    its closure captured at the click. *)
Inductive StopTask :=
| NoStop
| StopScheduled (captured : list TranscriptSegment)
| StopWaiting (captured : list TranscriptSegment) (waitCount : nat)
| StopSealing (captured : list TranscriptSegment)
| Draining (captured : list TranscriptSegment)
| FinalDelay (captured : list TranscriptSegment)
| Persisting
| Settled.

(** Observable points of a run, in the order they happen. *)
Inductive Event :=
| EvVadTrigger (now : Z)             (* the loop calls processLiveSegment *)
| EvRecorderStop (start : Q)         (* recorder.stop() of a seal *)
| EvSealed (blob : Blob)             (* onstop: the blob is built *)
| EvDiscarded (blob : Blob)          (* "Skipped (too small)" *)
| EvSaveAudio (blob : Blob) (index : nat)   (* saveAudioToProject called *)
| EvEnqueued (item : QueueItem)
| EvReplied (item : QueueItem) (reply : SttReply)
| EvStopBegin                        (* session inactive, loop cancelled *)
| EvStopPoll                         (* one 100 ms wait for a seal in flight *)
| EvFinalSeal                        (* stopLiveMode calls processLiveSegment *)
| EvRelease                          (* stream and analysis released *)
| EvDraining (queueLength : nat)
| EvDrained (queueLength : nat) (transcribing : bool)
| EvPersist (audioFiles : list jsstring)
| EvSettled.

Record Sys := {
  (* refs *)
  liveModeActiveRef : bool;
  liveAnimationRef : option nat;
  silenceStartRef : option Z;
  isProcessingSegmentRef : bool;
  mediaRecorderRef : option RecorderState;
  recordingStreamRef : bool;
  audioContextRef : bool;
  liveAnalyserRef : bool;
  audioChunksRef : list Blob;
  recordingStartTimeRef : Z;
  liveAudioBlobsRef : list (Blob * Q);
  transcriptionQueueRef : list QueueItem;
  isTranscribingRef : bool;
  isProcessingAfterLiveStopRef : bool;
  liveProcessingTotalRef : nat;
  currentProjectRef : option jsstring;
  (* state *)
  liveMode : bool;
  segments : list TranscriptSegment;
  transcript : jsstring;
  silenceCountdown : option Z;
  errorChannel : list jsstring;        (* every message given to setError *)
  (* the event loop *)
  pendingFrame : option nat;           (* the animation frame requested *)
  nextHandle : nat;
  seals : list SealTask;
  workerTimers : nat;                  (* setTimeout(processTranscriptionQueue, 50) *)
  worker : WorkerTask;
  stopTask : StopTask;
  (* history *)
  trace : list Event
}.

Definition emit (e : Event) (s : Sys) : Sys :=
  s <| trace ::= fun t => t ++ [e] |>.

Fixpoint remove_nth {A} (i : nat) (l : list A) : list A :=
  match l, i with
  | [], _ => []
  | _ :: l', O => l'
  | x :: l', S j => x :: remove_nth j l'
  end.

Fixpoint replace_nth {A} (i : nat) (y : A) (l : list A) : list A :=
  match l, i with
  | [], _ => []
  | _ :: l', O => y :: l'
  | x :: l', S j => x :: replace_nth j y l'
  end.

(* ------------------------------------------------------------------ *)
(** *** The stop sequence after the final seal *)

(** "Stop stream", "Close AudioContext", and the two refs cleared at the
    end of [stopLiveMode]. *)
Definition release (s : Sys) : Sys :=
  emit EvRelease
    (s <| recordingStreamRef := false |>
       <| audioContextRef := false |>
       <| liveAnalyserRef := false |>
       <| silenceStartRef := None |>).

(** After the queue was seen empty: "Verarbeitung abgeschlossen", then the
    100 ms delay before the final save. *)
Definition after_drain (captured : list TranscriptSegment) (s : Sys) : Sys :=
  emit (EvDrained (List.length (transcriptionQueueRef s)) (isTranscribingRef s))
    (s <| isProcessingAfterLiveStopRef := false |>
       <| stopTask := FinalDelay captured |>).

(** The [then] callback of [stopLiveMode()] in [toggleLiveMode].  The first
    [check()] sees what the [if] just saw, so it arms the 500 ms timer. *)
Definition stop_then (captured : list TranscriptSegment) (s : Sys) : Sys :=
  let queueLength := List.length (transcriptionQueueRef s) in
  if (0 <? queueLength) || isTranscribingRef s
  then emit (EvDraining queueLength) (s <| stopTask := Draining captured |>)
  else after_drain captured s.

(** A [processLiveSegment] call returns; when [stopLiveMode] awaits it,
    the stop sequence resumes in the same turn. *)
Definition finish_seal (awaited : bool) (s : Sys) : Sys :=
  if awaited then
    match stopTask s with
    | StopSealing captured => stop_then captured (release s)
    | _ => s
    end
  else s.

(* ------------------------------------------------------------------ *)
(** *** [processLiveSegment] *)

Definition isSome {A} (o : option A) : bool :=
  match o with Some _ => true | None => false end.

(** Up to the first [await]: the two guards, the lock, the time stamp and
    [recorder.stop()].  The boolean tells whether the call is suspended.
    [stop()] on a recorder that is already inactive does nothing, so its
    [stop] event never comes and the call stays suspended with the lock. *)
Definition processLiveSegment (now : Z) (awaited : bool) (s : Sys) : Sys * bool :=
  if isProcessingSegmentRef s then (s, false)
  else if negb (isSome (mediaRecorderRef s)) || negb (recordingStreamRef s)
  then (s, false)
  else
    let s1 := s <| isProcessingSegmentRef := true |> in
    let segmentStartTime := seconds_since now (recordingStartTimeRef s) in
    match mediaRecorderRef s with
    | Some recording =>
        (emit (EvRecorderStop segmentStartTime)
           (s1 <| mediaRecorderRef := Some inactive |>
               <| seals ::= fun l =>
                    l ++ [AwaitStop (audioChunksRef s) segmentStartTime awaited] |>),
         true)
    | _ => (s1, true)
    end.

(** "THEN: Queue for background transcription" *)
Definition enqueueSegment (i : nat) (blob : Blob) (index : nat) (start : Q)
    (path : option jsstring) (awaited : bool) (s : Sys) : Sys :=
  let item := {| audioBlob := blob; segmentIndex := index;
                 startTime := start; audioFilePath := path |} in
  let s1 := s <| liveAudioBlobsRef ::= fun l => l ++ [(blob, start)] |>
              <| transcriptionQueueRef ::= fun q => q ++ [item] |> in
  let s2 := if isTranscribingRef s1 then s1
            else s1 <| workerTimers ::= S |> in
  finish_seal awaited
    (emit (EvEnqueued item) (s2 <| seals ::= remove_nth i |>)).

(** From the recorder's [stop] event to the next [await] (or the end). *)
Definition seal_onstop (i : nat) (chunks : list Blob) (start : Q)
    (awaited : bool) (s : Sys) : Sys :=
  let allChunks := chunks ++ skipn (List.length chunks) (audioChunksRef s) in
  let blob := new_Blob allChunks in
  let s1 := emit (EvSealed blob) (s <| audioChunksRef := [] |>) in
  let s2 := if liveModeActiveRef s1 && recordingStreamRef s1
            then s1 <| mediaRecorderRef := Some recording |>
            else s1 in
  let s3 := s2 <| isProcessingSegmentRef := false |> in
  if size blob <? 1000 then
    finish_seal awaited (emit (EvDiscarded blob) (s3 <| seals ::= remove_nth i |>))
  else
    let index := List.length (liveAudioBlobsRef s3) in
    if truthy (or_else (currentProjectRef s3) []) then
      emit (EvSaveAudio blob index)
        (s3 <| seals ::= replace_nth i (AwaitSave blob index start awaited) |>)
    else enqueueSegment i blob index start None awaited s3.

(* ------------------------------------------------------------------ *)
(** *** [checkVoiceActivity] *)

Definition silenceThreshold : Q := 15.
Definition minChunksForSegment : nat := 15.

(** [settings?.liveIdleTime || 3000] *)
Definition silenceDuration (settings : option Settings) : Z :=
  match settings with
  | Some st =>
      match liveIdleTime st with
      | Some t => if (t =? 0)%Z then 3000%Z else t
      | None => 3000%Z
      end
  | None => 3000%Z
  end.

(** [average < silenceThreshold], with [average] the mean of the byte
    frequency data; the mean of no data is NaN, which is below nothing. *)
Definition average (dataArray : list N) : Q :=
  Z.of_N (fold_left N.add dataArray 0%N) # Pos.of_nat (List.length dataArray).

Definition isSilent (dataArray : list N) : bool :=
  match dataArray with
  | [] => false
  | _ => Qltb (average dataArray) silenceThreshold
  end.

Definition requestAnimationFrame (s : Sys) : Sys :=
  s <| liveAnimationRef := Some (nextHandle s) |>
    <| pendingFrame := Some (nextHandle s) |>
    <| nextHandle ::= S |>.

Definition resetSilence (s : Sys) : Sys :=
  s <| silenceStartRef := None |> <| silenceCountdown := None |>.

Definition checkVoiceActivity (settings : option Settings) (now : Z)
    (dataArray : list N) (s : Sys) : Sys :=
  if negb (liveModeActiveRef s) then s <| silenceCountdown := None |>
  else
    let s1 :=
      if isSilent dataArray then
        if minChunksForSegment <=? List.length (audioChunksRef s) then
          match silenceStartRef s with
          | None => s <| silenceStartRef := Some now |>
          | Some since =>
              let silenceTime := (now - since)%Z in
              let remaining := Z.max 0 (silenceDuration settings - silenceTime) in
              let s1 := s <| silenceCountdown := Some remaining |> in
              if (silenceDuration settings <? silenceTime)%Z
                 && negb (isProcessingSegmentRef s1)
              then fst (processLiveSegment now false
                          (emit (EvVadTrigger now) (resetSilence s1)))
              else s1
          end
        else resetSilence s
      else resetSilence s in
    if liveModeActiveRef s1 then requestAnimationFrame s1 else s1.

(* ------------------------------------------------------------------ *)
(** *** [processTranscriptionQueue] *)

(** The [while] test, and the end of the function when it fails. *)
Definition worker_loop (s : Sys) : Sys :=
  match transcriptionQueueRef s with
  | [] => s <| isTranscribingRef := false |> <| worker := WIdle |>
  | _ :: _ => s <| worker := WYield |>
  end.

Definition processTranscriptionQueue (s : Sys) : Sys :=
  if isTranscribingRef s then s
  else
    match transcriptionQueueRef s with
    | [] => s
    | _ :: _ =>
        worker_loop
          (s <| isTranscribingRef := true |>
             <| liveProcessingTotalRef := List.length (transcriptionQueueRef s) |>)
    end.

(** After the 100 ms yield: [shift()].  On an empty queue [shift()] gives
    [undefined]: reading [item.segmentIndex] inside the [try] throws, and
    the [catch] block reads it again for its log line, before [setError],
    and throws in turn.  The call ends there, with no error surfaced and
    [isTranscribingRef] still set. *)
Definition worker_shift (s : Sys) : Sys :=
  match transcriptionQueueRef s with
  | [] => s <| worker := WIdle |>
  | item :: rest =>
      s <| transcriptionQueueRef := rest |> <| worker := WInFlight item |>
  end.

(** [setTranscript(prev => ...)] *)
Definition appendTranscript (isUncertain : bool) (segmentText prev : jsstring)
    : jsstring :=
  let textToAdd :=
    if isUncertain then js "❓«" ++ segmentText ++ js "»" else segmentText in
  if truthy prev then prev ++ js " " ++ textToAdd else textToAdd.

(** The collaborator has answered for [item]: the rest of the loop body. *)
Definition worker_reply (settings : option Settings) (item : QueueItem)
    (reply : SttReply) (s : Sys) : Sys :=
  let s1 := emit (EvReplied item reply) s in
  match transcribeItem settings reply with
  | Skipped => worker_loop s1
  | Failed message =>
      worker_loop (s1 <| errorChannel ::= fun l => l ++ [message] |>)
  | Completed segmentText audioDuration =>
      let seg := newSegment item segmentText audioDuration in
      s1 <| segments ::= fun prev => prev ++ [seg] |>
         <| transcript ::=
              appendTranscript (is_true (isUncertain seg)) segmentText |>
         <| worker := WAfter |>
  end.

(* ------------------------------------------------------------------ *)
(** *** [stopLiveMode] and the stop branch of [toggleLiveMode] *)

(** "Immer processLiveSegment, wenn der Recorder läuft", then the rest. *)
Definition stop_final (now : Z) (captured : list TranscriptSegment) (s : Sys)
    : Sys :=
  match mediaRecorderRef s with
  | Some recording =>
      let '(s1, suspended) := processLiveSegment now true (emit EvFinalSeal s) in
      if suspended then s1 <| stopTask := StopSealing captured |>
      else stop_then captured (release s1)
  | _ => stop_then captured (release s)
  end.

Definition cancelAnimationFrame (h : nat) (s : Sys) : Sys :=
  match pendingFrame s with
  | Some p => if p =? h then s <| pendingFrame := None |> else s
  | None => s
  end.

(** [stopLiveMode] up to its first [await]. *)
Definition stopLiveMode (now : Z) (captured : list TranscriptSegment) (s : Sys)
    : Sys :=
  let s1 := s <| liveModeActiveRef := false |> in
  let s2 :=
    match liveAnimationRef s1 with
    | Some h =>
        if h =? 0 then s1
        else (cancelAnimationFrame h s1) <| liveAnimationRef := None |>
    | None => s1
    end in
  let s3 := emit EvStopBegin s2 in
  if isProcessingSegmentRef s3
  then s3 <| stopTask := StopWaiting captured 0 |>
  else stop_final now captured s3.

(** One turn of "Wait for any current processing to finish (max 5 seconds)". *)
Definition stop_wait (now : Z) (captured : list TranscriptSegment)
    (waitCount : nat) (s : Sys) : Sys :=
  let s1 := emit EvStopPoll s in
  if isProcessingSegmentRef s1 && (S waitCount <? 50)
  then s1 <| stopTask := StopWaiting captured (S waitCount) |>
  else stop_final now captured s1.

(** The click on the live button while live: the UI switches at once and
    [stopLiveMode] is put on the next turn. *)
Definition toggleLiveMode_stop (s : Sys) : Sys :=
  s <| liveMode := false |>
    <| silenceCountdown := None |>
    <| isProcessingAfterLiveStopRef := true |>
    <| stopTask := StopScheduled (segments s) |>.

(** [seg.audioFile || `audio/segment_${String(seg.id).padStart(4, "0")}.webm`] *)
Definition audioFileOf (seg : TranscriptSegment) : jsstring :=
  or_else (audioFile seg)
    (js "audio/segment_" ++ padStart (String_of_nat (seg_id seg)) 4 48%N
       ++ js ".webm").

(** "NOW save final project state", after the 100 ms delay. *)
Definition final_save (captured : list TranscriptSegment) (s : Sys) : Sys :=
  if truthy (or_else (currentProjectRef s) []) then
    emit (EvPersist (map audioFileOf captured)) (s <| stopTask := Persisting |>)
  else emit EvSettled (s <| stopTask := Settled |>).

(* ------------------------------------------------------------------ *)
(** *** [startLiveMode] and the start branch of [toggleLiveMode] *)

Definition initialSys : Sys :=
  {| liveModeActiveRef := false; liveAnimationRef := None;
     silenceStartRef := None; isProcessingSegmentRef := false;
     mediaRecorderRef := None; recordingStreamRef := false;
     audioContextRef := false; liveAnalyserRef := false;
     audioChunksRef := []; recordingStartTimeRef := 0;
     liveAudioBlobsRef := []; transcriptionQueueRef := [];
     isTranscribingRef := false; isProcessingAfterLiveStopRef := false;
     liveProcessingTotalRef := 0; currentProjectRef := None;
     liveMode := false; segments := []; transcript := [];
     silenceCountdown := None; errorChannel := [];
     pendingFrame := None; nextHandle := 1; seals := [];
     workerTimers := 0; worker := WIdle; stopTask := NoStop;
     trace := [] |}.

(** [startLiveMode] when the microphone is granted; [created] is what
    [createProject] returned for a session that does not continue one. *)
Definition startLiveMode (now : Z) (created : option jsstring) (s : Sys) : Sys :=
  let s1 := s <| liveModeActiveRef := true |> in
  let isContinuing :=
    isSome (currentProjectRef s1) && (0 <? List.length (segments s1)) in
  let s2 :=
    if isContinuing
    then s1 <| liveAudioBlobsRef := map (fun _ => ([], 0%Q)) (segments s1) |>
    else
      (match created with
       | Some project => s1 <| currentProjectRef := Some project |>
       | None => s1
       end) <| liveAudioBlobsRef := [] |> <| segments := [] |> in
  requestAnimationFrame
    (s2 <| recordingStartTimeRef := now |>
        <| recordingStreamRef := true |>
        <| audioContextRef := true |>
        <| liveAnalyserRef := true |>
        <| audioChunksRef := [] |>
        <| mediaRecorderRef := Some recording |>).

Definition toggleLiveMode_start (now : Z) (created : option jsstring) (s : Sys)
    : Sys :=
  let isContinuing :=
    isSome (currentProjectRef s) && (0 <? List.length (segments s)) in
  let s1 := if isContinuing then s else s <| transcript := [] |> in
  (startLiveMode now created (s1 <| transcriptionQueueRef := [] |>))
    <| liveMode := true |>.

(* ------------------------------------------------------------------ *)
(** *** The event loop *)

(** What can happen next, with what the outside world supplies. *)
Inductive Action :=
| Frame (now : Z) (dataArray : list N)      (* the animation frame fires *)
| DataAvailable (data : Blob)               (* the recorder hands over a chunk *)
| RecorderStopped (i : nat)                 (* its stop event: seal [i] resumes *)
| AudioSaved (i : nat) (filePath : option jsstring)
| WorkerTimer                               (* the 50 ms timer of an enqueue *)
| WorkerResume                              (* the 100 ms yield is over *)
| SttDone (reply : SttReply)                (* the collaborator has answered *)
| WorkerNext                                (* the 50 ms yield is over *)
| ClickStop
| StopTimer (now : Z)                       (* setTimeout(..., 0) of the click *)
| StopWaitTick (now : Z)                    (* a 100 ms wait of stopLiveMode *)
| DrainCheck                                (* the 500 ms timer of checkQueue *)
| FinalDelayOver                            (* the 100 ms before the final save *)
| PersistDone.                              (* saveCurrentProject, loadProjects *)

Definition sealStopPending (s : Sys) : bool :=
  existsb (fun t => match t with AwaitStop _ _ _ => true | _ => false end)
          (seals s).

Definition exec (settings : option Settings) (a : Action) (s : Sys)
    : option Sys :=
  match a with
  | Frame now dataArray =>
      match pendingFrame s with
      | Some _ =>
          Some (checkVoiceActivity settings now dataArray
                  (s <| pendingFrame := None |>))
      | None => None
      end
  | DataAvailable data =>
      match mediaRecorderRef s with
      | Some st =>
          if match st with recording => true | inactive => sealStopPending s end
          then Some (if 0 <? size data
                     then s <| audioChunksRef ::= fun l => l ++ [data] |>
                     else s)
          else None
      | None => None
      end
  | RecorderStopped i =>
      match nth_error (seals s) i with
      | Some (AwaitStop chunks start awaited) =>
          Some (seal_onstop i chunks start awaited s)
      | _ => None
      end
  | AudioSaved i filePath =>
      match nth_error (seals s) i with
      | Some (AwaitSave blob index start awaited) =>
          Some (enqueueSegment i blob index start filePath awaited s)
      | _ => None
      end
  | WorkerTimer =>
      match workerTimers s with
      | S n => Some (processTranscriptionQueue (s <| workerTimers := n |>))
      | O => None
      end
  | WorkerResume =>
      match worker s with
      | WYield => Some (worker_shift s)
      | _ => None
      end
  | SttDone reply =>
      match worker s with
      | WInFlight item => Some (worker_reply settings item reply s)
      | _ => None
      end
  | WorkerNext =>
      match worker s with
      | WAfter => Some (worker_loop s)
      | _ => None
      end
  | ClickStop =>
      if liveMode s then Some (toggleLiveMode_stop s) else None
  | StopTimer now =>
      match stopTask s with
      | StopScheduled captured => Some (stopLiveMode now captured s)
      | _ => None
      end
  | StopWaitTick now =>
      match stopTask s with
      | StopWaiting captured waitCount => Some (stop_wait now captured waitCount s)
      | _ => None
      end
  | DrainCheck =>
      match stopTask s with
      | Draining captured =>
          if (List.length (transcriptionQueueRef s) =? 0)
             && negb (isTranscribingRef s)
          then Some (after_drain captured s)
          else Some s
      | _ => None
      end
  | FinalDelayOver =>
      match stopTask s with
      | FinalDelay captured => Some (final_save captured s)
      | _ => None
      end
  | PersistDone =>
      match stopTask s with
      | Persisting => Some (emit EvSettled (s <| stopTask := Settled |>))
      | _ => None
      end
  end.

Fixpoint run (settings : option Settings) (acts : list Action) (s : Sys)
    : option Sys :=
  match acts with
  | [] => Some s
  | a :: rest =>
      match exec settings a s with
      | Some s' => run settings rest s'
      | None => None
      end
  end.

(* ================================================================== *)
(** ** Vocabulary of the statements *)

(** The number of words of a text: its maximal runs of characters that are
    not white space. *)
Fixpoint countWords_from (inWord : bool) (s : jsstring) : nat :=
  match s with
  | [] => 0
  | c :: s' =>
      if isWhiteSpace c then countWords_from false s'
      else (if inWord then 0 else 1) + countWords_from true s'
  end.

Definition countWords (s : jsstring) : nat := countWords_from false s.



(** What [replace(/\s+/g, " ")] computes, written directly: [inRun] says
    that the previous character was white space. *)
Fixpoint collapse (inRun : bool) (s : jsstring) : jsstring :=
  match s with
  | [] => []
  | c :: s' =>
      if isWhiteSpace c
      then (if inRun then collapse true s' else 32%N :: collapse true s')
      else c :: collapse false s'
  end.

(** The length of the white-space run a string starts with. *)
Fixpoint leadingRun (s : jsstring) : nat :=
  match s with
  | [] => 0
  | c :: s' => if isWhiteSpace c then S (leadingRun s') else 0
  end.

(** Every white-space character is a single space between two others. *)
Fixpoint singleSpaced (afterSpace : bool) (s : jsstring) : bool :=
  match s with
  | [] => true
  | c :: s' =>
      if isWhiteSpace c
      then (c =? 32)%N && negb afterSpace && singleSpaced true s'
      else singleSpaced false s'
  end.

Definition startsWithWord (s : jsstring) : Prop :=
  match s with
  | [] => False
  | c :: _ => isWhiteSpace c = false
  end.


(** The local-path answer of the collaborator for a recording of [samples]
    samples recognised as [t]. *)
Definition localReply (samples : N) (t : jsstring) : SttReply :=
  {| r_duration := Rejected []; r_fetch := Rejected [];
     r_samples := Resolved samples; r_pipeline := Resolved tt;
     r_whisper := Resolved (WString t) |}.

Definition sampleItem (index : nat) : QueueItem :=
  {| audioBlob := repeat Byte.x00 1200; segmentIndex := index;
     startTime := 0; audioFilePath := None |}.

(** Animation frames as actions: each tick brings the time and the
    frequency data then read. *)
Definition frames (ticks : list (Z * list N)) : list Action :=
  map (fun t => Frame (fst t) (snd t)) ticks.

(** [n] ticks, [period] ms apart, from time [from], all with the same data. *)
Fixpoint steadyTicks (from period : Z) (dataArray : list N) (n : nat)
    : list (Z * list N) :=
  match n with
  | O => []
  | S n' => (from, dataArray) :: steadyTicks (from + period) period dataArray n'
  end.

Definition quietData : list N := repeat 2%N 256.

(** A session just started at time 0, with no project. *)
Definition freshSession : Sys := toggleLiveMode_start 0 None initialSys.

(* ------------------------------------------------------------------ *)
(** *** Reading a history *)

(** The items put on the queue, in the order they were. *)
Definition enqueued (t : list Event) : list QueueItem :=
  flat_map (fun e => match e with EvEnqueued item => [item] | _ => [] end) t.

(** The items the collaborator has answered for, with the answers, in the
    order the worker got them. *)
Definition replies (t : list Event) : list (QueueItem * SttReply) :=
  flat_map (fun e => match e with EvReplied item r => [(item, r)] | _ => [] end) t.

Definition inFlight (w : WorkerTask) : list QueueItem :=
  match w with WInFlight item => [item] | _ => [] end.

Definition isIdle (w : WorkerTask) : bool :=
  match w with WIdle => true | _ => false end.

(** The segment, or the error message, an answered item leads to. *)
Definition segmentsOf (settings : option Settings) (p : QueueItem * SttReply)
    : list TranscriptSegment :=
  match transcribeItem settings (snd p) with
  | Completed segmentText audioDuration =>
      [newSegment (fst p) segmentText audioDuration]
  | _ => []
  end.


Definition errorsOf (settings : option Settings) (p : QueueItem * SttReply)
    : list jsstring :=
  match transcribeItem settings (snd p) with
  | Failed message => [message]
  | _ => []
  end.

(** A state in which the worker has not started and nothing has happened. *)
Definition quietWorker (s : Sys) : Prop :=
  trace s = [] /\ transcriptionQueueRef s = [] /\ worker s = WIdle
  /\ isTranscribingRef s = false.

(** What every run from such a state keeps true of queue and worker. *)
Definition workerInv (settings : option Settings)
    (segments0 : list TranscriptSegment) (errors0 : list jsstring) (s : Sys)
    : Prop :=
  enqueued (trace s)
    = map fst (replies (trace s)) ++ inFlight (worker s) ++ transcriptionQueueRef s
  /\ segments s = segments0 ++ flat_map (segmentsOf settings) (replies (trace s))
  /\ errorChannel s = errors0 ++ flat_map (errorsOf settings) (replies (trace s))
  /\ isTranscribingRef s = negb (isIdle (worker s))
  /\ (worker s = WYield -> transcriptionQueueRef s <> [])
  /\ (transcriptionQueueRef s <> [] ->
      isTranscribingRef s = true \/ 0 < workerTimers s).

(* ------------------------------------------------------------------ *)
(** *** A session with three segments, the second of which fails *)

(** Fifteen chunks of 80 bytes, a quiet frame that starts the silence
    timer, one 3001 ms later that ends it, and the recorder's stop event:
    with no project to save to, one more item is on the queue. *)
Definition sealOnce (t : Z) : list Action :=
  repeat (DataAvailable (repeat Byte.x00 80)) 15
    ++ [Frame t quietData; Frame (t + 3001) quietData; RecorderStopped 0].

(** The whisper call throws. *)
Definition failingReply (message : jsstring) : SttReply :=
  {| r_duration := Rejected []; r_fetch := Rejected [];
     r_samples := Resolved 64000%N; r_pipeline := Resolved tt;
     r_whisper := Rejected message |}.

(** The first item is still with the collaborator while the second and the
    third are sealed and queued. *)
Definition threeSegmentsRun : list Action :=
  sealOnce 1000 ++ [WorkerTimer; WorkerResume]
    ++ sealOnce 6000 ++ sealOnce 11000
    ++ [SttDone (localReply 64000 (js "Hallo Welt")); WorkerNext; WorkerResume;
        SttDone (failingReply (js "whisper failed")); WorkerResume;
        SttDone (localReply 32000 (js "Guten Tag")); WorkerNext].

(** The API path, and its answer when the service reports an error. *)
Definition apiSettings : option Settings :=
  Some {| sttProvider := js "whisper-api";
          whisperApiKey := Some (js "sk-test");
          liveIdleTime := None |}.

Definition apiErrorReply (error : option jsstring) : SttReply :=
  {| r_duration := Resolved 4%Q;
     r_fetch := Resolved {| res_ok := false;
                            res_json := Resolved {| j_error := error;
                                                    j_transcript := None |} |};
     r_samples := Rejected []; r_pipeline := Rejected [];
     r_whisper := Rejected [] |}.

Definition stateAfter (settings : option Settings) (acts : list Action)
    (s : Sys) : Sys :=
  match run settings acts s with
  | Some s' => s'
  | None => s
  end.

(* ------------------------------------------------------------------ *)
(** *** Sessions used as examples *)

(** A live session whose recorder ref is empty. *)
Definition sessionWithoutRecorder : Sys :=
  freshSession <| mediaRecorderRef := None |>.

(** A session started at time 0 with a project to save to. *)
Definition projectSession : Sys :=
  toggleLiveMode_start 0 (Some (js "p1")) initialSys.

(** The [saveAudioToProject] calls of a history, with the index passed. *)
Definition savedIndices (t : list Event) : list nat :=
  flat_map (fun e => match e with EvSaveAudio _ index => [index] | _ => [] end) t.

(** A seal is triggered and its blob is being saved when the user stops;
    the final seal of the stop sequence is built, large enough, before
    that save returns. *)
Definition overlappingSeals : list Action :=
  repeat (DataAvailable (repeat Byte.x00 80)) 15
    ++ [Frame 1000 quietData; Frame 4001 quietData; RecorderStopped 0;
        ClickStop; StopTimer 4100;
        DataAvailable (repeat Byte.x00 1200); RecorderStopped 1;
        AudioSaved 0 (Some (js "audio/segment_0000.webm"));
        AudioSaved 0 (Some (js "audio/segment_0000.webm"))].


(** A pause after fifteen chunks of 10 bytes: the seal that the loop
    triggers is waiting for the recorder to stop. *)
Definition smallSeal : Sys :=
  stateAfter None
    (repeat (DataAvailable (repeat Byte.x00 10)) 15
       ++ [Frame 1000 quietData; Frame 4001 quietData])
    projectSession.

(* ------------------------------------------------------------------ *)
(** *** The order of a stop sequence

    The stop sequence as a machine that reads a history: where the
    sequence stands after the events read so far, and which event may
    come next.  A history it rejects has an event out of order. *)

Inductive StopPhase :=
| NotStopped                          (* stop has not begun *)
| Waiting (polls : nat)               (* inactive, loop cancelled; waiting for a seal *)
| FinalSealCalled                     (* the final processLiveSegment is made *)
| Released                            (* stream and analysis released *)
| AwaitingDrain                       (* queue or worker still busy *)
| Drained                             (* queue seen empty and worker idle *)
| Persisted                           (* the final write is made *)
| Done.                               (* settled *)

Definition nextPhase (p : StopPhase) (e : Event) : option StopPhase :=
  match e, p with
  | EvVadTrigger _, NotStopped => Some NotStopped
  | EvVadTrigger _, _ => None
  | EvStopBegin, NotStopped => Some (Waiting 0)
  | EvStopBegin, _ => None
  | EvStopPoll, Waiting n => if n <? 50 then Some (Waiting (S n)) else None
  | EvStopPoll, _ => None
  | EvFinalSeal, Waiting _ => Some FinalSealCalled
  | EvFinalSeal, _ => None
  | EvRelease, Waiting _ => Some Released
  | EvRelease, FinalSealCalled => Some Released
  | EvRelease, _ => None
  | EvDraining _, Released => Some AwaitingDrain
  | EvDraining _, _ => None
  | EvDrained 0 false, Released => Some Drained
  | EvDrained 0 false, AwaitingDrain => Some Drained
  | EvDrained _ _, _ => None
  | EvPersist _, Drained => Some Persisted
  | EvPersist _, _ => None
  | EvSettled, Drained => Some Done
  | EvSettled, Persisted => Some Done
  | EvSettled, _ => None
  | _, _ => Some p
  end.

Definition readEvent (p : option StopPhase) (e : Event) : option StopPhase :=
  match p with
  | Some ph => nextPhase ph e
  | None => None
  end.

Definition phaseOf (t : list Event) : option StopPhase :=
  fold_left readEvent t (Some NotStopped).

(** The phase a suspended stop task stands in. *)
Definition agrees (task : StopTask) (p : StopPhase) : Prop :=
  match task, p with
  | NoStop, NotStopped => True
  | StopScheduled _, NotStopped => True
  | StopWaiting _ n, Waiting m => n = m /\ n < 50
  | StopSealing _, FinalSealCalled => True
  | Draining _, AwaitingDrain => True
  | FinalDelay _, Drained => True
  | Persisting, Persisted => True
  | Settled, Done => True
  | _, _ => False
  end.

Definition stopBegun (task : StopTask) : bool :=
  match task with
  | NoStop | StopScheduled _ => false
  | _ => true
  end.

(** What every run keeps true of the stop sequence. *)
Definition stopInv (s : Sys) : Prop :=
  (exists p, phaseOf (trace s) = Some p /\ agrees (stopTask s) p)
  /\ (stopBegun (stopTask s) = true ->
      liveModeActiveRef s = false /\ pendingFrame s = None)
  /\ (forall h, pendingFrame s = Some h -> liveAnimationRef s = Some h /\ h <> 0)
  /\ nextHandle s <> 0
  /\ (liveMode s = true -> stopTask s = NoStop).

(** A session in which no stop was asked for, at the start of a history. *)
Definition beforeStop (s : Sys) : Prop :=
  trace s = [] /\ stopTask s = NoStop
  /\ (forall h, pendingFrame s = Some h -> liveAnimationRef s = Some h /\ h <> 0)
  /\ nextHandle s <> 0.

(** The same, inside a step of the stop sequence, when the history has
    reached phase [p] and the task is not yet updated. *)
Definition midStop (s : Sys) (p : StopPhase) : Prop :=
  phaseOf (trace s) = Some p
  /\ liveModeActiveRef s = false /\ pendingFrame s = None
  /\ nextHandle s <> 0 /\ liveMode s = false.

(** All that [stopInv], and all that [midStop], looks at. *)
Definition stopView (s : Sys) :=
  (trace s, stopTask s, liveModeActiveRef s, pendingFrame s,
   liveAnimationRef s, nextHandle s, liveMode s).

Definition midView (s : Sys) :=
  (trace s, liveModeActiveRef s, pendingFrame s, nextHandle s, liveMode s).

(** An event that tells nothing about queue or worker. *)
Definition silentEvent (e : Event) : Prop :=
  match e with
  | EvEnqueued _ | EvReplied _ _ => False
  | _ => True
  end.

(** An event the stop machine passes over in every phase. *)
Definition neutralEvent (e : Event) : Prop := forall p, nextPhase p e = Some p.

(* ------------------------------------------------------------------ *)
(** *** The shape of a history, as far as the stop sequence goes *)

Definition isOrderEvent (e : Event) : bool :=
  match e with
  | EvVadTrigger _ | EvStopBegin | EvStopPoll | EvFinalSeal | EvRelease
  | EvDraining _ | EvDrained _ _ | EvPersist _ | EvSettled => true
  | _ => false
  end.

(** The seals the loop triggered and the steps of the stop sequence, in
    the order they happened. *)
Definition orderEvents (t : list Event) : list Event := filter isOrderEvent t.

Definition isVadTrigger (e : Event) : bool :=
  match e with EvVadTrigger _ => true | _ => false end.

Definition optionalEvent {A} (f : A -> Event) (o : option A) : list Event :=
  match o with Some a => [f a] | None => [] end.

(** Triggers of the loop, then the stop: inactive and cancelled, [polls]
    waits, and the final seal if [sealed]. *)
Definition untilFinalSeal (triggers : list Event) (polls : nat) (sealed : bool)
    : list Event :=
  triggers ++ [EvStopBegin] ++ repeat EvStopPoll polls
    ++ (if sealed then [EvFinalSeal] else []).

(** ... then the release, the wait for the queue if one was needed, and
    the queue seen empty with the worker idle. *)
Definition untilDrained (triggers : list Event) (polls : nat) (sealed : bool)
    (waited : option nat) : list Event :=
  untilFinalSeal triggers polls sealed
    ++ [EvRelease] ++ optionalEvent EvDraining waited ++ [EvDrained 0 false].

(** The histories each phase of the stop sequence can have behind it. *)
Definition shape (p : StopPhase) (l : list Event) : Prop :=
  match p with
  | NotStopped => forallb isVadTrigger l = true
  | Waiting polls =>
      exists triggers,
        forallb isVadTrigger triggers = true /\ polls <= 50
        /\ l = untilFinalSeal triggers polls false
  | FinalSealCalled =>
      exists triggers polls,
        forallb isVadTrigger triggers = true /\ polls <= 50
        /\ l = untilFinalSeal triggers polls true
  | Released =>
      exists triggers polls sealed,
        forallb isVadTrigger triggers = true /\ polls <= 50
        /\ l = untilFinalSeal triggers polls sealed ++ [EvRelease]
  | AwaitingDrain =>
      exists triggers polls sealed queueLength,
        forallb isVadTrigger triggers = true /\ polls <= 50
        /\ l = untilFinalSeal triggers polls sealed
                 ++ [EvRelease] ++ [EvDraining queueLength]
  | Drained =>
      exists triggers polls sealed waited,
        forallb isVadTrigger triggers = true /\ polls <= 50
        /\ l = untilDrained triggers polls sealed waited
  | Persisted =>
      exists triggers polls sealed waited audioFiles,
        forallb isVadTrigger triggers = true /\ polls <= 50
        /\ l = untilDrained triggers polls sealed waited
                 ++ [EvPersist audioFiles]
  | Done =>
      exists triggers polls sealed waited persisted,
        forallb isVadTrigger triggers = true /\ polls <= 50
        /\ l = untilDrained triggers polls sealed waited
                 ++ optionalEvent EvPersist persisted ++ [EvSettled]
  end.

(* ------------------------------------------------------------------ *)
(** *** Two stops *)

Definition chunks15 : list Action :=
  repeat (DataAvailable (repeat Byte.x00 80)) 15.

(** A pause seals one segment, which is transcribed; the user speaks on
    and stops: the final seal flushes the rest, that item is transcribed
    too, the queue drains, the project is written. *)
Definition stopWithFinalSeal : list Action :=
  chunks15
    ++ [Frame 1000 quietData; Frame 4001 quietData; RecorderStopped 0;
        AudioSaved 0 (Some (js "audio/segment_0000.webm"));
        WorkerTimer; WorkerResume; SttDone (localReply 64000 (js "Hallo Welt"));
        WorkerNext]
    ++ chunks15
    ++ [ClickStop; StopTimer 9000; RecorderStopped 0;
        AudioSaved 0 (Some (js "audio/segment_0001.webm"));
        WorkerTimer; WorkerResume; SttDone (localReply 32000 (js "Guten Tag"));
        WorkerNext; DrainCheck; FinalDelayOver; PersistDone].

(** The user stops while the seal of a pause is in flight: that seal has
    stopped the recorder, and finds the session inactive when it resumes. *)
Definition stopDuringSeal : list Action :=
  chunks15
    ++ [Frame 1000 quietData; Frame 4001 quietData;
        ClickStop; StopTimer 4050; RecorderStopped 0; StopWaitTick 4150;
        WorkerTimer; WorkerResume; SttDone (localReply 64000 (js "Hallo Welt"));
        WorkerNext; DrainCheck; FinalDelayOver].

(* ------------------------------------------------------------------ *)
(** *** The end-to-end scenario *)





(** What the uses of [queueView] below leave alone. *)
Definition queueView (s : Sys) :=
  (transcriptionQueueRef s, liveAudioBlobsRef s, segments s,
   enqueued (trace s), savedIndices (trace s), workerTimers s, seals s).


(* ------------------------------------------------------------------ *)
(** *** Texts and tags *)

(** The three characters a non-speech tag can start with: every pattern of
    [nonSpeechTagPatterns] begins with a literal bracket, parenthesis or
    asterisk. *)
Definition isTagStart (c : N) : bool :=
  ((c =? 91) || (c =? 40) || (c =? 42))%N.

Definition startsWithTagChar (r : regex) : bool :=
  match r with
  | Piece (Lit c) 1 (Some 1) :: _ => isTagStart c
  | _ => false
  end.

(** A segment as the worker leaves it: trimmed text of two characters or
    more, lasting half a second or more. *)
Definition wellFormedSegment (seg : TranscriptSegment) : Prop :=
  trim (text seg) = text seg
  /\ 2 <= List.length (text seg)
  /\ (1 # 2 <= endTime seg - seg_startTime seg)%Q.

(** A key that [trim()] leaves empty, or no key. *)
Definition blankKey (k : option jsstring) : Prop :=
  match k with
  | Some key => Forall (fun c => isWhiteSpace c = true) key
  | None => True
  end.

(* ------------------------------------------------------------------ *)
(** *** Seals in flight *)

Definition isAwaitStop (t : SealTask) : bool :=
  match t with
  | AwaitStop _ _ _ => true
  | AwaitSave _ _ _ _ => false
  end.

(** The blobs given to [saveAudioToProject] in a history. *)
Definition savedBlobs (t : list Event) : list Blob :=
  flat_map (fun e => match e with EvSaveAudio blob _ => [blob] | _ => [] end) t.

(** [activeProject?.id] is falsy: nothing is saved to disk. *)
Definition noProject (s : Sys) : Prop :=
  truthy (or_else (currentProjectRef s) []) = false.

Definition largeBlob (blob : Blob) : Prop := 1000 <= size blob.

Definition largeSave (t : SealTask) : Prop :=
  match t with
  | AwaitSave blob _ _ _ => largeBlob blob
  | AwaitStop _ _ _ => True
  end.

(** What every step keeps true of the seals: the lock is held exactly
    while one call waits for the recorder's stop event; while the session
    is live the stream is there and, with the lock free, the recorder
    records; only blobs of 1000 bytes or more get past the size test; the
    project the session is bound to stays the same; and without a project
    the indices count up from [base]. *)
Definition sealInv (base : nat) (project : option jsstring) (s : Sys) : Prop :=
  currentProjectRef s = project
  /\ List.length (filter isAwaitStop (seals s))
  = (if isProcessingSegmentRef s then 1 else 0)
  /\ (liveModeActiveRef s = true ->
      recordingStreamRef s = true
      /\ (isProcessingSegmentRef s = false -> mediaRecorderRef s = Some recording))
  /\ Forall largeSave (seals s)
  /\ Forall (fun item => largeBlob (audioBlob item)) (enqueued (trace s))
  /\ Forall largeBlob (savedBlobs (trace s))
  /\ (noProject s ->
      Forall (fun t => isAwaitStop t = true) (seals s)
      /\ List.length (liveAudioBlobsRef s)
         = base + List.length (enqueued (trace s))
      /\ map segmentIndex (enqueued (trace s))
         = seq base (List.length (enqueued (trace s)))).

(** All that [sealInv] looks at. *)
Definition sealView (s : Sys) :=
  (isProcessingSegmentRef s, seals s, liveModeActiveRef s,
   recordingStreamRef s, mediaRecorderRef s, currentProjectRef s,
   liveAudioBlobsRef s, enqueued (trace s), savedBlobs (trace s)).

(** The stop sequence has switched the session off before it releases
    the stream. *)
Definition offWhenStopping (s : Sys) : Prop :=
  stopBegun (stopTask s) = true -> liveModeActiveRef s = false.

(* ------------------------------------------------------------------ *)
(** *** Saving a segment's audio: renderer and main process

    [saveAudioToProject] turns the blob into a binary string, 8192 bytes at
    a time, and sends its base64 form; the handler of [projects:saveAudio]
    decodes it and writes it under a name made from the index. *)

(** [uint8Array.slice(i, i + chunkSize)] *)
Definition slice {A} (from to : nat) (l : list A) : list A :=
  firstn (to - from) (skipn from l).

(** [String.fromCharCode.apply(null, Array.from(chunk))] *)
Definition fromCharCodes (chunk : list Byte.byte) : jsstring :=
  map Byte.to_N chunk.

(** The loop [for (let i = 0; i < uint8Array.length; i += chunkSize)];
    [turns] bounds the number of turns. *)
Fixpoint binaryFrom (turns : nat) (chunkSize : nat) (uint8Array : list Byte.byte)
    (i : nat) (binary : jsstring) : jsstring :=
  match turns with
  | O => binary
  | S turns' =>
      if i <? List.length uint8Array then
        let chunk := slice i (i + chunkSize) uint8Array in
        binaryFrom turns' chunkSize uint8Array (i + chunkSize)
          (binary ++ fromCharCodes chunk)
      else binary
  end.

Definition chunkSize : nat := N.to_nat 8192.

Definition binaryOf (audioBlob : Blob) : jsstring :=
  binaryFrom (S (List.length audioBlob)) chunkSize audioBlob 0 [].

(** The base64 alphabet. *)
Definition base64Char (sextet : N) : N :=
  (if sextet <? 26 then 65 + sextet
   else if sextet <? 52 then 97 + (sextet - 26)
   else if sextet <? 62 then 48 + (sextet - 52)
   else if sextet =? 62 then 43
   else 47)%N.

(** [btoa(binary)], for a binary string (every code unit below 256). *)
Fixpoint btoa (binary : jsstring) : jsstring :=
  match binary with
  | [] => []
  | [b0] =>
      [base64Char (b0 / 4); base64Char ((b0 mod 4) * 16); 61; 61]%N
  | [b0; b1] =>
      [base64Char (b0 / 4); base64Char ((b0 mod 4) * 16 + b1 / 16);
       base64Char ((b1 mod 16) * 4); 61]%N
  | b0 :: b1 :: b2 :: rest =>
      (base64Char (b0 / 4) :: base64Char ((b0 mod 4) * 16 + b1 / 16)
       :: base64Char ((b1 mod 16) * 4 + b2 / 64) :: base64Char (b2 mod 64)
       :: btoa rest)%N
  end.

(** The value of a base64 character for Node's decoder, which also takes
    the URL-safe [-] and [_]. *)
Definition unbase64 (c : N) : option N :=
  (if (65 <=? c) && (c <=? 90) then Some (c - 65)
   else if (97 <=? c) && (c <=? 122) then Some (c - 97 + 26)
   else if (48 <=? c) && (c <=? 57) then Some (c - 48 + 52)
   else if (c =? 43) || (c =? 45) then Some 62
   else if (c =? 47) || (c =? 95) then Some 63
   else None)%N.

(** The sextets of the characters up to the first [=]; characters outside
    the alphabet are passed over. *)
Fixpoint sextetsOf (s : jsstring) : list N :=
  match s with
  | [] => []
  | c :: s' =>
      if (c =? 61)%N then []
      else
        match unbase64 c with
        | Some v => v :: sextetsOf s'
        | None => sextetsOf s'
        end
  end.

Fixpoint bytesOfSextets (l : list N) : list N :=
  match l with
  | a :: b :: c :: d :: rest =>
      ((a * 4 + b / 16) :: ((b mod 16) * 16 + c / 4) :: ((c mod 4) * 64 + d)
       :: bytesOfSextets rest)%N
  | [a; b; c] => [a * 4 + b / 16; (b mod 16) * 16 + c / 4]%N
  | [a; b] => [a * 4 + b / 16]%N
  | _ => []
  end.

(** [Buffer.from(audioData, "base64")] *)
Definition Buffer_from_base64 (audioData : jsstring) : list N :=
  bytesOfSextets (sextetsOf audioData).

(** [`segment_${String(segmentIndex).padStart(4, "0")}.webm`] *)
Definition segmentFileName (segmentIndex : nat) : jsstring :=
  js "segment_" ++ padStart (String_of_nat segmentIndex) 4 48%N ++ js ".webm".

(** [path.join("audio", fileName)] with the separator of the platform. *)
Definition audioFilePathOf (sep : N) (fileName : jsstring) : jsstring :=
  js "audio" ++ [sep] ++ fileName.

(** What the handler of [projects:saveAudio] does when the file system
    does not fail: the bytes written, under which name, and the path
    returned to the renderer. *)
Record SavedAudio := {
  sa_fileName : jsstring;
  sa_written : list N;
  sa_filePath : jsstring
}.

Definition projects_saveAudio (sep : N) (audioData : jsstring)
    (segmentIndex : nat) : SavedAudio :=
  let fileName := segmentFileName segmentIndex in
  {| sa_fileName := fileName;
     sa_written := Buffer_from_base64 audioData;
     sa_filePath := audioFilePathOf sep fileName |}.

(** The call [desktop.projects.saveAudio(targetProjectId, base64,
    segmentIndex)] of [saveAudioToProject], answered by the handler. *)
Definition saveAudioToProject_call (sep : N) (audioBlob : Blob)
    (segmentIndex : nat) : SavedAudio :=
  projects_saveAudio sep (btoa (binaryOf audioBlob)) segmentIndex.

(** The number a run of decimal digits stands for. *)
Definition digitsValue (s : jsstring) : nat :=
  fold_left (fun acc c => 10 * acc + N.to_nat (c - 48)) s 0.

(** The index read back from a file name: the digits between
    ["segment_"] and [".webm"]. *)
Definition indexOfFileName (fileName : jsstring) : nat :=
  digitsValue
    (firstn (List.length fileName - 13) (skipn 8 fileName)).

(* ------------------------------------------------------------------ *)
(** *** Display helpers *)

(** [Math.trunc], and the remainder [x % y] of JS, which takes the sign
    of [x]. *)
Definition Qtrunc (x : Q) : Z :=
  if Qle_bool 0 x then Qfloor x else Qceiling x.

Definition jsRemainder (x y : Q) : Q := x - y * inject_Z (Qtrunc (x / y)).

(** [n.toString()] for an integer. *)
Definition Number_toString (z : Z) : jsstring :=
  match z with
  | Zneg p => 45%N :: String_of_nat (Pos.to_nat p)
  | _ => String_of_nat (Z.to_nat z)
  end.

Definition formatTime (seconds : Q) : jsstring :=
  let mins := Qfloor (seconds / 60) in
  let secs := Qfloor (jsRemainder seconds 60) in
  Number_toString mins ++ js ":" ++ padStart (Number_toString secs) 2 48%N.

(** The label of a segment in the list: [formatTime(duration)] with
    [duration = Math.max(0, (segment.endTime || 0) - (segment.startTime || 0))]. *)
Definition segmentTimeLabel (segment : TranscriptSegment) : jsstring :=
  formatTime (Qmax 0 (endTime segment - seg_startTime segment)).

(** The whole seconds a label [M:SS] stands for. *)
Fixpoint takeUntil (c : N) (s : jsstring) : jsstring :=
  match s with
  | [] => []
  | x :: s' => if (x =? c)%N then [] else x :: takeUntil c s'
  end.

Fixpoint dropThrough (c : N) (s : jsstring) : jsstring :=
  match s with
  | [] => []
  | x :: s' => if (x =? c)%N then s' else dropThrough c s'
  end.

Definition readTime (label : jsstring) : nat :=
  60 * digitsValue (takeUntil 58 label) + digitsValue (dropThrough 58 label).

(* ------------------------------------------------------------------ *)
(** *** Editing: segments and the transcript field *)

(** The part of the component the editing functions work on.  [ed_saves]
    records the calls to [saveCurrentProject] with the project id given. *)
Record ProjectData := {
  d_segments : option (list TranscriptSegment);
  d_rawTranscript : option jsstring;
  d_audioFiles : option (list jsstring);
  d_enrichedResult : option jsstring
}.

Definition noData : ProjectData :=
  {| d_segments := None; d_rawTranscript := None;
     d_audioFiles := None; d_enrichedResult := None |}.

Record Editor := {
  ed_segments : list TranscriptSegment;
  ed_transcript : jsstring;
  transcriptValueRef : jsstring;
  editingSegmentId : option nat;
  editingText : jsstring;
  ed_currentProject : option jsstring;     (* currentProjectRef.current?.id *)
  manualEditSaveTimer : option jsstring;   (* the armed timer, with its [newText] *)
  ed_saves : list (jsstring * ProjectData)
}.

Definition startEditingSegment (segment : TranscriptSegment) (e : Editor)
    : Editor :=
  e <| editingSegmentId := Some (seg_id segment) |>
    <| editingText := text segment |>.

Definition cancelEditingSegment (e : Editor) : Editor :=
  e <| editingSegmentId := None |> <| editingText := [] |>.

(** [segments.map(seg => seg.id === segmentId ? { ...seg, text: trimmedText } : seg)] *)
Definition withEditedText (segmentId : nat) (trimmedText : jsstring)
    (segs : list TranscriptSegment) : list TranscriptSegment :=
  map (fun seg =>
         if seg_id seg =? segmentId then seg <| text := trimmedText |> else seg)
      segs.

(** [saveSegmentEdit]; the [await] on the save is not a state of its own:
    the two updates after it touch the editing fields only. *)
Definition saveSegmentEdit (segmentId : nat) (e : Editor) : Editor :=
  let trimmedText := trim (editingText e) in
  let updatedSegments := withEditedText segmentId trimmedText (ed_segments e) in
  let newTranscript := join (js " ") (map text updatedSegments) in
  let e1 := e <| ed_segments := updatedSegments |>
              <| ed_transcript := newTranscript |> in
  let e2 :=
    match ed_currentProject e1 with
    | Some projectId =>
        if truthy projectId then
          e1 <| ed_saves ::= fun l =>
                  l ++ [(projectId,
                         noData <| d_segments := Some updatedSegments |>
                                <| d_rawTranscript := Some newTranscript |>)] |>
        else e1
    | None => e1
    end in
  e2 <| editingSegmentId := None |> <| editingText := [] |>.


(** [handleManualTranscriptChange]: the value is kept as typed, and the
    500 ms timer is cleared and armed again. *)
Definition handleManualTranscriptChange (newText : jsstring) (e : Editor)
    : Editor :=
  e <| transcriptValueRef := newText |>
    <| ed_transcript := newText |>
    <| manualEditSaveTimer := Some newText |>.

(** The 500 ms timer fires. *)
Definition manualEditTimerFires (e : Editor) : Editor :=
  match manualEditSaveTimer e with
  | None => e
  | Some newText =>
      let e1 := e <| manualEditSaveTimer := None |> in
      match ed_currentProject e1 with
      | Some projectId =>
          if truthy projectId then
            e1 <| ed_saves ::= fun l =>
                    l ++ [(projectId,
                           noData <| d_rawTranscript := Some newText |>)] |>
          else e1
      | None => e1
      end
  end.

Inductive EditAction :=
| Typed (newText : jsstring)
| TimerFired.

Definition editStep (e : Editor) (a : EditAction) : Editor :=
  match a with
  | Typed newText => handleManualTranscriptChange newText e
  | TimerFired => manualEditTimerFires e
  end.

(** The segments, and [project.rawTranscript || fullTranscript] or else
    the empty string, as [loadProject] sets them from a project. *)
Definition loadedSegments (project_segments : option (list TranscriptSegment))
    : list TranscriptSegment :=
  match project_segments with
  | Some segs => segs
  | None => []
  end.

Definition loadedTranscript (project_segments : option (list TranscriptSegment))
    (project_rawTranscript : option jsstring) : jsstring :=
  let fullTranscript :=
    join (js " ") (map text (loadedSegments project_segments)) in
  or_else project_rawTranscript (if truthy fullTranscript then fullTranscript else []).

(* ------------------------------------------------------------------ *)
(** *** Prompts *)

Record CustomPrompt := {
  cp_id : jsstring;
  cp_name : jsstring;
  cp_prompt : jsstring
}.

Definition initialPrompts : list CustomPrompt :=
  [ {| cp_id := js "note"; cp_name := js "Notiz";
       cp_prompt := js "Mache aus dem Transkript eine strukturierte Notiz mit Titel, Key Points, Details und Next Steps." |};
    {| cp_id := js "meeting"; cp_name := js "Meeting";
       cp_prompt := js "Wandle das Transkript in Meeting Minutes um mit Summary, Entscheidungen, Action Items und offenen Fragen." |};
    {| cp_id := js "tasks"; cp_name := js "Aufgaben";
       cp_prompt := js "Extrahiere alle Aufgaben aus dem Transkript mit Datum falls erwählt und Kontext." |};
    {| cp_id := js "email"; cp_name := js "E-Mail";
       cp_prompt := js "Formuliere aus dem Transkript eine professionelle E-Mail auf Deutsch (Sie) mit Betreff." |} ].

(** [merged.some(p => p.id === id)] *)
Definition hasId (id : jsstring) (prompts : list CustomPrompt) : bool :=
  existsb (fun p => jsstring_eqb (cp_id p) id) prompts.

(** "Add any missing initial prompts to the list" *)
Definition addMissing (merged : list CustomPrompt) (initial : CustomPrompt)
    : list CustomPrompt :=
  if negb (hasId (cp_id initial) merged) then merged ++ [initial] else merged.

(** [allPrompts], from [settings?.customPrompts || []]. *)
Definition allPrompts (custom : list CustomPrompt) : list CustomPrompt :=
  match custom with
  | [] => initialPrompts
  | _ :: _ => fold_left addMissing initialPrompts custom
  end.


(** The list the delete button saves as [customPrompts]: nothing is saved
    when one prompt is left. *)
Definition deletePrompt (id : jsstring) (custom : list CustomPrompt)
    : list CustomPrompt :=
  if List.length (allPrompts custom) <=? 1 then custom
  else filter (fun cp => negb (jsstring_eqb (cp_id cp) id)) (allPrompts custom).

(* ------------------------------------------------------------------ *)
(** *** Project folders (main process)

    [projects:create] names the folder of a project after the time and the
    name given; [projects:rename] keeps the time and replaces the name. *)

(** The class [[a-zA-Z0-9äöüÄÖÜß_-]], on code units. *)
Definition isSafeNameChar (c : N) : bool :=
  (((97 <=? c) && (c <=? 122)) || ((65 <=? c) && (c <=? 90))
   || ((48 <=? c) && (c <=? 57))
   || (c =? 228) || (c =? 246) || (c =? 252)
   || (c =? 196) || (c =? 214) || (c =? 220) || (c =? 223)
   || (c =? 95) || (c =? 45))%N.

(** [name.replace(/[^a-zA-Z0-9äöüÄÖÜß_-]/g, "_")] *)
Definition safeName (name : jsstring) : jsstring :=
  map (fun c => if isSafeNameChar c then c else 95%N) name.

(** [now.toISOString()] for a date of the years 0 to 9999. *)
Record DateParts := {
  dp_year : N; dp_month : N; dp_day : N;
  dp_hours : N; dp_minutes : N; dp_seconds : N; dp_ms : N
}.

Definition digitsOf (width : nat) (n : N) : jsstring :=
  padStart (String_of_nat (N.to_nat n)) width 48%N.

Definition toISOString (d : DateParts) : jsstring :=
  digitsOf 4 (dp_year d) ++ js "-" ++ digitsOf 2 (dp_month d) ++ js "-"
    ++ digitsOf 2 (dp_day d) ++ js "T" ++ digitsOf 2 (dp_hours d) ++ js ":"
    ++ digitsOf 2 (dp_minutes d) ++ js ":" ++ digitsOf 2 (dp_seconds d)
    ++ js "." ++ digitsOf 3 (dp_ms d) ++ js "Z".

(** The fields fit the widths of the format: a year of at most four
    digits, two digits for the others, three for the milliseconds. *)
Definition fitsWidth (width : nat) (n : N) : Prop :=
  List.length (String_of_nat (N.to_nat n)) <= width.

Definition validDate (d : DateParts) : Prop :=
  fitsWidth 4 (dp_year d) /\ fitsWidth 2 (dp_month d) /\ fitsWidth 2 (dp_day d)
  /\ fitsWidth 2 (dp_hours d) /\ fitsWidth 2 (dp_minutes d)
  /\ fitsWidth 2 (dp_seconds d) /\ fitsWidth 3 (dp_ms d).

(** [.replace(/[-:]/g, e)] with the empty string [e] *)
Definition removeDashColon (s : jsstring) : jsstring :=
  filter (fun c => negb ((c =? 45) || (c =? 58))%N) s.

(** [.replace("T", "_")]: the first occurrence only. *)
Fixpoint replaceFirstChar (c r : N) (s : jsstring) : jsstring :=
  match s with
  | [] => []
  | x :: s' => if (x =? c)%N then r :: s' else x :: replaceFirstChar c r s'
  end.

(** [.replace(/\..+/, e)] with the empty string [e]: the first dot that a character other than a
    line terminator follows goes, with all up to the end of its line. *)
Fixpoint cutFraction (s : jsstring) : jsstring :=
  match s with
  | [] => []
  | c :: s' =>
      if (c =? 46)%N
         && match s' with
            | x :: _ => negb (isLineTerminator x)
            | [] => false
            end
      then dropWhile (fun x => negb (isLineTerminator x)) s'
      else c :: cutFraction s'
  end.

(** "Format: YYYYMMDD_HHMMSS" *)
Definition timestampOf (iso : jsstring) : jsstring :=
  firstn 15 (cutFraction (replaceFirstChar 84 95 (removeDashColon iso))).

(** [projectName ? `${timestamp}_${safe}` : timestamp] *)
Definition folderIdOf (timestamp projectName : jsstring) : jsstring :=
  if truthy projectName then timestamp ++ js "_" ++ safeName projectName
  else timestamp.

Definition projects_create_id (now : DateParts) (name : option jsstring)
    : jsstring :=
  folderIdOf (timestampOf (toISOString now)) (or_else name []).

(** The folder id after [projects:rename]. *)
Definition projects_rename_id (projectId newName : jsstring) : jsstring :=
  folderIdOf (firstn 15 projectId) newName.

(* ------------------------------------------------------------------ *)
(** *** Saving the project: the lock and the queue of the renderer *)

Record SaveRequest := {
  sr_projectId : jsstring;
  sr_data : ProjectData
}.

(** [sv_inFlight] holds the calls of [desktop.projects.save] that have not
    settled; [sv_sent] and [sv_accepted] are histories: the calls made, and
    the requests that passed the two guards, in the order they came. *)
Record Saver := {
  sv_desktop : bool;                  (* window.desktop?.projects *)
  sv_currentId : option jsstring;     (* currentProjectRef.current?.id *)
  saveLockRef : bool;
  saveQueueRef : list SaveRequest;
  sv_inFlight : list SaveRequest;
  sv_sent : list SaveRequest;
  sv_accepted : list SaveRequest
}.

(** [projectId || currentProjectRef.current?.id]; the empty string stands
    for a falsy id. *)
Definition targetProjectId (projectId : option jsstring) (sv : Saver) : jsstring :=
  or_else projectId (or_else (sv_currentId sv) []).

(** [saveCurrentProject] up to its [await]. *)
Definition saveCurrentProject (data : ProjectData) (projectId : option jsstring)
    (sv : Saver) : Saver :=
  let target := targetProjectId projectId sv in
  if negb (sv_desktop sv) || negb (truthy target) then sv
  else
    let request := {| sr_projectId := target; sr_data := data |} in
    if saveLockRef sv then sv <| saveQueueRef ::= fun q => q ++ [request] |>
    else
      sv <| saveLockRef := true |>
         <| sv_inFlight ::= fun l => l ++ [request] |>
         <| sv_sent ::= fun l => l ++ [request] |>.

(** A caller asks for a save: the request is noted when it passes the
    guards, then [saveCurrentProject] runs. *)
Definition requestSave (data : ProjectData) (projectId : option jsstring)
    (sv : Saver) : Saver :=
  let target := targetProjectId projectId sv in
  let sv1 :=
    if negb (sv_desktop sv) || negb (truthy target) then sv
    else sv <| sv_accepted ::= fun l =>
                 l ++ [{| sr_projectId := target; sr_data := data |}] |> in
  saveCurrentProject data projectId sv1.

(** The awaited call settles: with the updated project (its id) or with
    an error, which is logged; then the [finally] block frees the lock and
    starts the next queued save. *)
Definition saveSettled (request : SaveRequest) (i : nat)
    (outcome : Awaited jsstring) (sv : Saver) : Saver :=
  let sv1 := sv <| sv_inFlight ::= remove_nth i |> in
  let sv2 :=
    match outcome with
    | Resolved updatedId =>
        match sv_currentId sv1 with
        | Some current =>
            if jsstring_eqb current (sr_projectId request)
            then sv1 <| sv_currentId := Some updatedId |>
            else sv1
        | None => sv1
        end
    | Rejected _ => sv1
    end in
  let sv3 := sv2 <| saveLockRef := false |> in
  match saveQueueRef sv3 with
  | [] => sv3
  | next :: rest =>
      saveCurrentProject (sr_data next) (Some (sr_projectId next))
        (sv3 <| saveQueueRef := rest |>)
  end.

Inductive SaverAction :=
| AskSave (data : ProjectData) (projectId : option jsstring)
| SaveAnswered (i : nat) (outcome : Awaited jsstring).

Definition saverStep (a : SaverAction) (sv : Saver) : option Saver :=
  match a with
  | AskSave data projectId => Some (requestSave data projectId sv)
  | SaveAnswered i outcome =>
      match nth_error (sv_inFlight sv) i with
      | Some request => Some (saveSettled request i outcome sv)
      | None => None
      end
  end.

Fixpoint saverRun (acts : list SaverAction) (sv : Saver) : option Saver :=
  match acts with
  | [] => Some sv
  | a :: rest =>
      match saverStep a sv with
      | Some sv' => saverRun rest sv'
      | None => None
      end
  end.

Definition saverAfter (acts : list SaverAction) (sv : Saver) : Saver :=
  match saverRun acts sv with
  | Some sv' => sv'
  | None => sv
  end.

Definition idleSaver (desktop : bool) (current : option jsstring) : Saver :=
  {| sv_desktop := desktop; sv_currentId := current;
     saveLockRef := false; saveQueueRef := [];
     sv_inFlight := []; sv_sent := []; sv_accepted := [] |}.

(** What every step of the saver keeps. *)
Definition saverInv (sv : Saver) : Prop :=
  List.length (sv_inFlight sv) = (if saveLockRef sv then 1 else 0)
  /\ (saveLockRef sv = false -> saveQueueRef sv = [])
  /\ sv_accepted sv = sv_sent sv ++ saveQueueRef sv
  /\ Forall (fun r => truthy (sr_projectId r) = true) (saveQueueRef sv)
  /\ (saveQueueRef sv <> [] -> sv_desktop sv = true).

(* ------------------------------------------------------------------ *)
(** *** Saving the project: the handler of [projects:save] (main process)

    A [project.json] holds the fields below; keys the application never
    writes are left out.  A field that is absent is [None]. *)

Record Meta := {
  m_name : option jsstring;
  m_createdAt : option jsstring;
  m_updatedAt : option jsstring;
  m_mode : option jsstring;
  m_language : option jsstring;
  m_audioFiles : option (list jsstring);
  m_segments : option (list TranscriptSegment);
  m_enrichedResult : option jsstring;
  m_rawTranscript : option jsstring
}.

(** The content of the file: a text that [JSON.parse] accepts, or not. *)
Inductive FileContent :=
| Json (meta : Meta)
| Corrupt.

(** "Try to recover by using a clean slate with basic info" *)
Definition cleanSlate (now : jsstring) : Meta :=
  {| m_name := Some []; m_createdAt := Some now; m_updatedAt := None;
     m_mode := Some (js "note"); m_language := Some (js "de-DE");
     m_audioFiles := Some []; m_segments := Some [];
     m_enrichedResult := None; m_rawTranscript := None |}.

Definition existingOf (content : FileContent) (now : jsstring) : Meta :=
  match content with
  | Json meta => meta
  | Corrupt => cleanSlate now
  end.

Definition orKeep {A} (given kept : option A) : option A :=
  match given with
  | Some v => Some v
  | None => kept
  end.

(** [{ ...existing, ...data, updatedAt: new Date().toISOString() }] *)
Definition mergeData (existing : Meta) (data : ProjectData) (now : jsstring)
    : Meta :=
  {| m_name := m_name existing;
     m_createdAt := m_createdAt existing;
     m_updatedAt := Some now;
     m_mode := m_mode existing;
     m_language := m_language existing;
     m_audioFiles := orKeep (d_audioFiles data) (m_audioFiles existing);
     m_segments := orKeep (d_segments data) (m_segments existing);
     m_enrichedResult := orKeep (d_enrichedResult data) (m_enrichedResult existing);
     m_rawTranscript := orKeep (d_rawTranscript data) (m_rawTranscript existing) |}.

(** One save as the handler applies it; the two times are those of the
    clean slate and of [updatedAt]. *)
Record AppliedSave := {
  ap_projectId : jsstring;
  ap_data : ProjectData;
  ap_parsedAt : jsstring;
  ap_mergedAt : jsstring
}.

Definition applySave (content : FileContent) (a : AppliedSave) : FileContent :=
  Json (mergeData (existingOf content (ap_parsedAt a)) (ap_data a) (ap_mergedAt a)).

(** An invocation of the handler, suspended at one of its [await]s. *)
Inductive SaveTask :=
| TEntering (projectId : jsstring) (data : ProjectData)
                                  (* ensureTranscriptionsDir() *)
| TSleeping (projectId : jsstring) (data : ProjectData)
                                  (* the 50 ms wait of the [while] loop *)
| TReading (projectId : jsstring) (data : ProjectData)
                                  (* lock taken; fs.readFile(metaPath) *)
| TWritingTemp (save : AppliedSave) (updated : Meta)
                                  (* fs.writeFile(tempPath, jsonContent) *)
| TRenaming (save : AppliedSave) (updated : Meta).
                                  (* fs.rename(tempPath, metaPath) *)

Definition taskProject (t : SaveTask) : jsstring :=
  match t with
  | TEntering p _ | TSleeping p _ | TReading p _ => p
  | TWritingTemp a _ | TRenaming a _ => ap_projectId a
  end.

(** Between taking the lock and the [finally] block. *)
Definition holdsLock (t : SaveTask) : bool :=
  match t with
  | TEntering _ _ | TSleeping _ _ => false
  | _ => true
  end.

Record MainProcess := {
  projectSaveLocks : jsstring -> bool;          (* [get(id)] is truthy *)
  metaFiles : jsstring -> option FileContent;   (* project.json of a project *)
  tempFiles : jsstring -> option Meta;          (* project.json.tmp *)
  saveTasks : list SaveTask;
  appliedSaves : list AppliedSave               (* history: saves completed *)
}.

Definition setKey {A} (key : jsstring) (v : A) (m : jsstring -> A)
    : jsstring -> A :=
  fun k => if jsstring_eqb k key then v else m k.

(** The [while] test, and what follows when it fails: the lock is taken
    and the file is read. *)
Definition enterSave (i : nat) (projectId : jsstring) (data : ProjectData)
    (mp : MainProcess) : MainProcess :=
  if projectSaveLocks mp projectId
  then mp <| saveTasks ::= replace_nth i (TSleeping projectId data) |>
  else mp <| projectSaveLocks ::= setKey projectId true |>
          <| saveTasks ::= replace_nth i (TReading projectId data) |>.

(** The [finally] block, and the end of the invocation. *)
Definition leaveSave (i : nat) (projectId : jsstring) (mp : MainProcess)
    : MainProcess :=
  mp <| projectSaveLocks ::= setKey projectId false |>
     <| saveTasks ::= remove_nth i |>.

Inductive MainAction :=
| Invoke (projectId : jsstring) (data : ProjectData)
| DirReady (i : nat) (ok : bool)
| Woke (i : nat)
| ReadDone (i : nat) (ok : bool) (parsedAt mergedAt : jsstring)
| TempWritten (i : nat) (ok : bool)
| Renamed (i : nat) (ok : bool).

Definition mainStep (a : MainAction) (mp : MainProcess) : option MainProcess :=
  match a with
  | Invoke projectId data =>
      Some (mp <| saveTasks ::= fun l => l ++ [TEntering projectId data] |>)
  | DirReady i ok =>
      match nth_error (saveTasks mp) i with
      | Some (TEntering projectId data) =>
          if ok then Some (enterSave i projectId data mp)
          else Some (mp <| saveTasks ::= remove_nth i |>)   (* thrown before [try] *)
      | _ => None
      end
  | Woke i =>
      match nth_error (saveTasks mp) i with
      | Some (TSleeping projectId data) => Some (enterSave i projectId data mp)
      | _ => None
      end
  | ReadDone i ok parsedAt mergedAt =>
      match nth_error (saveTasks mp) i with
      | Some (TReading projectId data) =>
          match (if ok then metaFiles mp projectId else None) with
          | Some content =>
              let save := {| ap_projectId := projectId; ap_data := data;
                             ap_parsedAt := parsedAt; ap_mergedAt := mergedAt |} in
              let updated :=
                mergeData (existingOf content parsedAt) data mergedAt in
              Some (mp <| saveTasks ::= replace_nth i (TWritingTemp save updated) |>)
          | None => Some (leaveSave i projectId mp)
          end
      | _ => None
      end
  | TempWritten i ok =>
      match nth_error (saveTasks mp) i with
      | Some (TWritingTemp save updated) =>
          if ok then
            Some (mp <| tempFiles ::= setKey (ap_projectId save) (Some updated) |>
                     <| saveTasks ::= replace_nth i (TRenaming save updated) |>)
          else Some (leaveSave i (ap_projectId save) mp)
      | _ => None
      end
  | Renamed i ok =>
      match nth_error (saveTasks mp) i with
      | Some (TRenaming save updated) =>
          match (if ok then tempFiles mp (ap_projectId save) else None) with
          | Some moved =>
              Some (leaveSave i (ap_projectId save)
                      (mp <| metaFiles ::= setKey (ap_projectId save)
                                             (Some (Json moved)) |>
                          <| tempFiles ::= setKey (ap_projectId save) None |>
                          <| appliedSaves ::= fun l => l ++ [save] |>))
          | None => Some (leaveSave i (ap_projectId save) mp)
          end
      | _ => None
      end
  end.

Fixpoint mainRun (acts : list MainAction) (mp : MainProcess)
    : option MainProcess :=
  match acts with
  | [] => Some mp
  | a :: rest =>
      match mainStep a mp with
      | Some mp' => mainRun rest mp'
      | None => None
      end
  end.

Definition mainAfter (acts : list MainAction) (mp : MainProcess) : MainProcess :=
  match mainRun acts mp with
  | Some mp' => mp'
  | None => mp
  end.

(** No invocation under way, with the files [files]. *)
Definition idleMain (files : jsstring -> option FileContent) : MainProcess :=
  {| projectSaveLocks := fun _ => false; metaFiles := files;
     tempFiles := fun _ => None; saveTasks := []; appliedSaves := [] |}.

(** The invocations that hold the lock of a project. *)
Definition holders (projectId : jsstring) (tasks : list SaveTask) : list SaveTask :=
  filter (fun t => holdsLock t && jsstring_eqb (taskProject t) projectId) tasks.

(** The completed saves of a project, applied one after the other. *)
Definition savesOf (projectId : jsstring) (log : list AppliedSave)
    : list AppliedSave :=
  filter (fun a => jsstring_eqb (ap_projectId a) projectId) log.

Definition replay (content : FileContent) (log : list AppliedSave) : FileContent :=
  fold_left applySave log content.

(** What a holder has computed is what the file gives at this moment. *)
Definition upToDate (mp : MainProcess) (t : SaveTask) : Prop :=
  match t with
  | TWritingTemp save updated =>
      exists content,
        metaFiles mp (ap_projectId save) = Some content
        /\ applySave content save = Json updated
  | TRenaming save updated =>
      (exists content,
          metaFiles mp (ap_projectId save) = Some content
          /\ applySave content save = Json updated)
      /\ tempFiles mp (ap_projectId save) = Some updated
  | _ => True
  end.

Definition mainInv (files0 : jsstring -> option FileContent) (mp : MainProcess)
    : Prop :=
  (forall p, List.length (holders p (saveTasks mp))
             = if projectSaveLocks mp p then 1 else 0)
  /\ (forall p, metaFiles mp p
                = match files0 p with
                  | Some content => Some (replay content (savesOf p (appliedSaves mp)))
                  | None => None
                  end)
  /\ Forall (upToDate mp) (saveTasks mp).

(** Two invocations for one project: the second finds the lock taken, waits
    twice and saves after the first has left. *)
Definition twoSaves : list MainAction :=
  [Invoke (js "p1") (noData <| d_rawTranscript := Some (js "a") |>);
   Invoke (js "p1") (noData <| d_segments := Some [] |>);
   DirReady 0 true; DirReady 1 true; ReadDone 0 true (js "t0") (js "t1"); Woke 1;
   TempWritten 0 true; Renamed 0 true;
   Woke 0; ReadDone 0 true (js "t2") (js "t3"); TempWritten 0 true;
   Renamed 0 true].

(** A disk with one project, whose file is damaged. *)
Definition oneDamagedProject : jsstring -> option FileContent :=
  fun projectId =>
    if jsstring_eqb projectId (js "p1") then Some Corrupt else None.

(** What [loadProject] shows for a project that it reads from disk with
    [projects:load]: the handler throws on a file that does not parse, and
    [loadProject] then reports the error and shows nothing new. *)
Definition shownSegments (content : FileContent)
    : option (list TranscriptSegment) :=
  match content with
  | Json meta => Some (loadedSegments (m_segments meta))
  | Corrupt => None
  end.

Definition shownTranscript (content : FileContent) : option jsstring :=
  match content with
  | Json meta => Some (loadedTranscript (m_segments meta) (m_rawTranscript meta))
  | Corrupt => None
  end.

(* ================================================================== *)
(** ** Theorems *)

Example filter_ja : filterNonSpeechTags (js "ja...") false = js "ja...".
Proof. vm_compute. reflexivity. Qed.

Example filter_tags :
  filterNonSpeechTags (js "  [Musik] Hallo   *leise Musik*  Welt (music) ") false
  = js "Hallo Welt".
Proof. vm_compute. reflexivity. Qed.

Example filter_umlaut :
  filterNonSpeechTags (js "* GELÄCHTER * ok") false = js "ok".
Proof. vm_compute. reflexivity. Qed.

Example split_ex : split_ws (js " a  b ") = [[]; js "a"; js "b"; []].
Proof. vm_compute. reflexivity. Qed.

(* ------------------------------------------------------------------ *)
(** *** Strings *)





(* ------------------------------------------------------------------ *)
(** *** [replace(/\s+/g, " ")] is [collapse] *)

Lemma length_dropWhile_leadingRun s :
  List.length s - List.length (dropWhile isWhiteSpace s) = leadingRun s
  /\ List.length (dropWhile isWhiteSpace s) <= List.length s.
Proof.
  induction s as [|c s [IH1 IH2]]; [split; reflexivity|].
  cbn [dropWhile leadingRun]. destruct (isWhiteSpace c); cbn [List.length]; lia.
Qed.

Lemma repeat_whiteSpace s : forall count,
  repeat_atom WhiteSpace 1 None (match_at []) count s =
  if 1 <=? count + leadingRun s
  then Some (dropWhile isWhiteSpace s) else None.
Proof.
  induction s as [|c s IH]; intros count; cbn [repeat_atom leadingRun dropWhile].
  - rewrite Nat.add_0_r. reflexivity.
  - cbn [atom_matches below]. rewrite andb_true_r.
    destruct (isWhiteSpace c) eqn:Hc.
    + rewrite IH. replace (S count + leadingRun s) with (count + S (leadingRun s)) by lia.
      destruct (1 <=? count + S (leadingRun s)) eqn:E; [reflexivity|].
      apply Nat.leb_gt in E. lia.
    + rewrite Nat.add_0_r. reflexivity.
Qed.

Lemma match_whiteSpaceRun s :
  match_at whiteSpaceRun s =
  match s with
  | c :: _ => if isWhiteSpace c then Some (dropWhile isWhiteSpace s) else None
  | [] => None
  end.
Proof.
  unfold whiteSpaceRun, plus. cbn [match_at p_atom p_min p_max].
  rewrite repeat_whiteSpace. destruct s as [|c s]; [reflexivity|].
  cbn [leadingRun dropWhile]. destruct (isWhiteSpace c); reflexivity.
Qed.

Lemma replace_whiteSpaceRun s :
  replaceAll_from whiteSpaceRun (js " ") 0 s = collapse false s
  /\ replaceAll_from whiteSpaceRun (js " ") (leadingRun s) s = collapse true s.
Proof.
  induction s as [|c s [IH0 IH1]].
  - split; reflexivity.
  - assert (H0 : replaceAll_from whiteSpaceRun (js " ") 0 (c :: s)
                 = collapse false (c :: s)).
    { cbn [replaceAll_from]. rewrite match_whiteSpaceRun.
      cbn [collapse]. destruct (isWhiteSpace c) eqn:Hc.
      - cbn [dropWhile]. rewrite Hc.
        destruct (length_dropWhile_leadingRun s) as [Hl Hle].
        replace (List.length (c :: s) - List.length (dropWhile isWhiteSpace s))
          with (S (leadingRun s)) by (cbn [List.length]; lia).
        rewrite IH1. reflexivity.
      - rewrite IH0. reflexivity. }
    split; [exact H0|].
    cbn [leadingRun]. destruct (isWhiteSpace c) eqn:Hc.
    + cbn [replaceAll_from collapse]. rewrite Hc. exact IH1.
    + rewrite H0. cbn [collapse]. rewrite Hc. reflexivity.
Qed.

(* ------------------------------------------------------------------ *)
(** *** The shape of a filtered text *)

Lemma singleSpaced_weaken s : forall b,
  singleSpaced b s = true -> singleSpaced false s = true.
Proof.
  destruct s as [|c s]; intros b; simpl; [reflexivity|].
  destruct (isWhiteSpace c); [|trivial].
  rewrite !andb_true_iff. intros [[H1 _] H2]. auto.
Qed.

Lemma singleSpaced_collapse s : forall b, singleSpaced b (collapse b s) = true.
Proof.
  induction s as [|c s IH]; intros b; cbn [collapse]; [reflexivity|].
  destruct (isWhiteSpace c) eqn:Hc.
  - destruct b; [apply IH|]. cbn [singleSpaced].
    change (isWhiteSpace 32) with true. cbn. apply IH.
  - cbn [singleSpaced]. rewrite Hc. apply IH.
Qed.

Lemma singleSpaced_app_l s : forall b t,
  singleSpaced b (s ++ t) = true -> singleSpaced b s = true.
Proof.
  induction s as [|c s IH]; intros b t; simpl; [reflexivity|].
  destruct (isWhiteSpace c).
  - rewrite !andb_true_iff. intros [H1 H2]. split; [exact H1 | eauto].
  - eauto.
Qed.

Lemma singleSpaced_dropWhile s : forall b,
  singleSpaced b s = true -> singleSpaced false (dropWhile isWhiteSpace s) = true.
Proof.
  induction s as [|c s IH]; intros b; cbn [dropWhile]; [reflexivity|].
  destruct (isWhiteSpace c) eqn:Hc.
  - cbn [singleSpaced]. rewrite Hc, !andb_true_iff. intros [_ H]. eauto.
  - apply singleSpaced_weaken.
Qed.

Lemma dropWhile_suffix {A} (p : A -> bool) l :
  exists pre, l = pre ++ dropWhile p l.
Proof.
  induction l as [|x l [pre IH]]; simpl; [now exists []|].
  destruct (p x); [|now exists []].
  exists (x :: pre). simpl. now f_equal.
Qed.

Lemma dropWhile_head s :
  dropWhile isWhiteSpace s = [] \/ startsWithWord (dropWhile isWhiteSpace s).
Proof.
  induction s as [|c s IH]; simpl; [now left|].
  destruct (isWhiteSpace c) eqn:Hc; [exact IH|]. right. exact Hc.
Qed.

Lemma startsWithWord_dropWhile s :
  startsWithWord s -> dropWhile isWhiteSpace s = s.
Proof. destruct s as [|c s]; simpl; [tauto|]. now intros ->. Qed.

(** A trimmed text: empty, or it begins and ends with a word. *)
Lemma trim_shape s :
  trim s = [] \/ (startsWithWord (trim s) /\ startsWithWord (rev (trim s))).
Proof.
  unfold trim. set (t := dropWhile isWhiteSpace s).
  destruct (dropWhile_head (rev t)) as [E | Hrev].
  - left. now rewrite E.
  - right. rewrite rev_involutive. split; [|exact Hrev].
    destruct (dropWhile_suffix isWhiteSpace (rev t)) as [pre Hpre].
    assert (Ht : t = rev (dropWhile isWhiteSpace (rev t)) ++ rev pre).
    { rewrite <- rev_app_distr, <- Hpre. now rewrite rev_involutive. }
    destruct (rev (dropWhile isWhiteSpace (rev t))) as [|c u] eqn:Eu.
    + apply (f_equal (@rev N)) in Eu. rewrite rev_involutive in Eu.
      rewrite Eu in Hrev. destruct Hrev.
    + simpl. pose proof (dropWhile_head s) as Hd. fold t in Hd.
      destruct Hd as [E | Hs].
      * rewrite E in Ht. discriminate.
      * rewrite Ht in Hs. exact Hs.
Qed.

Lemma trim_singleSpaced s b :
  singleSpaced b s = true -> singleSpaced false (trim s) = true.
Proof.
  intros H. apply singleSpaced_dropWhile in H. unfold trim.
  set (t := dropWhile isWhiteSpace s) in *.
  destruct (dropWhile_suffix isWhiteSpace (rev t)) as [pre Hpre].
  assert (Ht : t = rev (dropWhile isWhiteSpace (rev t)) ++ rev pre).
  { rewrite <- rev_app_distr, <- Hpre. now rewrite rev_involutive. }
  rewrite Ht in H. now apply singleSpaced_app_l in H.
Qed.

Lemma startsWithWord_rev_tail c s :
  startsWithWord (rev (c :: s)) ->
  (s = [] /\ isWhiteSpace c = false) \/ (s <> [] /\ startsWithWord (rev s)).
Proof.
  destruct s as [|d s]; [now left|]. right. split; [discriminate|].
  change (rev (c :: d :: s)) with (rev (d :: s) ++ [c]) in H.
  destruct (rev (d :: s)) as [|x r] eqn:E; [|exact H].
  apply (f_equal (@List.length N)) in E. rewrite length_rev in E. discriminate.
Qed.

(** On a single-spaced text that begins and ends with a word,
    [split(/\s+/)] yields exactly its words. *)
Lemma splitOn_words s : forall b cur,
  singleSpaced b s = true ->
  s = [] \/ startsWithWord (rev s) ->
  (cur = [] -> startsWithWord s) ->
  Forall (fun piece => truthy piece = true) (splitOn b cur s)
  /\ List.length (splitOn b cur s)
     = (if truthy cur then 1 else 0) + countWords_from (truthy cur) s.
Proof.
  induction s as [|c s IH]; intros b cur Hsp Hend Hcur.
  - destruct cur as [|x cur]; [destruct (Hcur eq_refl)|].
    split; [repeat constructor | reflexivity].
  - destruct Hend as [Hend | Hend]; [discriminate|].
    apply startsWithWord_rev_tail in Hend.
    cbn [singleSpaced] in Hsp. cbn [splitOn countWords_from].
    destruct (isWhiteSpace c) eqn:Hc.
    + apply andb_true_iff in Hsp as [Hsp Hs]. apply andb_true_iff in Hsp as [_ Hb].
      apply negb_true_iff in Hb. subst b.
      destruct Hend as [[_ Hend] | [Hne Hend]]; [congruence|].
      destruct cur as [|x cur].
      { specialize (Hcur eq_refl). simpl in Hcur. congruence. }
      assert (Hword : startsWithWord s).
      { destruct s as [|d s]; [congruence|]. simpl in Hs |- *.
        destruct (isWhiteSpace d); [|reflexivity].
        rewrite andb_false_r in Hs. discriminate. }
      destruct (IH true [] Hs (or_intror Hend) (fun _ => Hword)) as [HF HL].
      split.
      * constructor; [reflexivity | exact HF].
      * cbn [List.length truthy]. rewrite HL. reflexivity.
    + assert (Hend' : s = [] \/ startsWithWord (rev s)) by tauto.
      assert (Hcur' : cur ++ [c] = [] -> startsWithWord s).
      { intros E. destruct cur; discriminate. }
      destruct (IH false (cur ++ [c]) Hsp Hend' Hcur') as [HF HL].
      split; [exact HF|]. rewrite HL.
      replace (truthy (cur ++ [c])) with true by (destruct cur; reflexivity).
      destruct (truthy cur); reflexivity.
Qed.


(** The text [filterNonSpeechTags] hands to the heuristic is single-spaced
    and, unless empty, begins and ends with a word. *)
Lemma filtered_shape t :
  let w := filterNonSpeechTags t false in
  singleSpaced false w = true
  /\ (w = [] \/ (startsWithWord w /\ startsWithWord (rev w))).
Proof.
  unfold filterNonSpeechTags.
  set (filtered := fold_left _ nonSpeechTagPatterns t).
  unfold replaceAll. rewrite (proj1 (replace_whiteSpaceRun filtered)).
  split.
  - apply (trim_singleSpaced _ false), singleSpaced_collapse.
  - apply trim_shape.
Qed.

Lemma filtered_words t :
  let w := filterNonSpeechTags t false in
  w <> [] ->
  List.length (split_ws w) = countWords w
  /\ filter truthy (split_ws w) = split_ws w.
Proof.
  intros w Hne. pose proof (filtered_shape t) as H. cbv zeta in H. fold w in H.
  destruct H as [Hsp [E | [Hh Hl]]]; [contradiction|].
  destruct (splitOn_words w false [] Hsp (or_intror Hl) (fun _ => Hh)) as [HF HL].
  split; [exact HL|].
  unfold split_ws. clear HL. induction HF as [|x l Hx HF IHF]; [reflexivity|].
  simpl. rewrite Hx, IHF. reflexivity.
Qed.


(* ------------------------------------------------------------------ *)
(** *** Rationals *)

Lemma Qltb_spec x y : Qltb x y = true <-> (x < y)%Q.
Proof.
  unfold Qltb. rewrite negb_true_iff. split.
  - intros H. apply Qnot_le_lt. intros Hle.
    apply Qle_bool_iff in Hle. congruence.
  - intros H. destruct (Qle_bool y x) eqn:E; [|reflexivity].
    apply Qle_bool_iff in E. exfalso. exact (Qlt_not_le _ _ H E).
Qed.

Lemma Qltb_max0 x d : (x == d)%Q -> Qltb 3 (Qmax 0 x) = Qltb 3 d.
Proof.
  intros E. apply eq_true_iff_eq. rewrite !Qltb_spec, Q.max_lt_iff, E.
  split; [intros [H | H]; [discriminate H | exact H] | now right].
Qed.

(* ------------------------------------------------------------------ *)
(** *** The uncertainty heuristic *)




Lemma newSegment_is_worker_segment item segmentText audioDuration :
  let seg := newSegment item segmentText audioDuration in
  isUncertain seg = Some (classifyUncertain (text seg) audioDuration)
  /\ (endTime seg - seg_startTime seg == audioDuration)%Q.
Proof. split; [reflexivity | simpl; ring]. Qed.

(** The reasons of the tooltip, read against the tests of the worker: on
    the filtered text [filter(Boolean)] drops no word, and the duration
    rebuilt from the two times passes 3 s when the audio duration does. *)
Lemma tooltipCore_cases seg d :
  (endTime seg - seg_startTime seg == d)%Q ->
  let w := filterNonSpeechTags (text seg) false in
  tooltipCore seg
  = if negb (truthy w && (2 <=? List.length w)) then [reason_noSpeech]
    else (if (List.length (split_ws w) <=? 2) && Qltb 3 d
          then [reason_tooFewWords] else [])
           ++ (if includes (js "...") w then [reason_ellipsis] else [])
           ++ (if hasRepeatedChars w then [reason_repeated] else []).
Proof.
  intros Hdur. cbv zeta. unfold tooltipCore.
  pose proof (filtered_words (text seg)) as Hw. cbv zeta in Hw.
  set (w := filterNonSpeechTags (text seg) false) in *.
  rewrite (Qltb_max0 _ _ Hdur).
  destruct (truthy w && (2 <=? List.length w)) eqn:Has; cbn [negb];
    [|reflexivity].
  assert (Hne : w <> []) by (intros E; rewrite E in Has; discriminate).
  destruct (Hw Hne) as [_ Hfilter]. rewrite Hfilter.
  replace (truthy w) with true by (destruct w; [contradiction | reflexivity]).
  reflexivity.
Qed.

(** C10. The two implementations classify alike.  For a segment whose
    [endTime - startTime] is the audio duration, the body of
    [getUncertainTooltip], taken without its early return, derives at
    least one reason exactly when the worker's heuristic flags the text,
    and each reason exactly when the worker's test of that name holds (no
    speech; too few words for the duration, an ellipsis, repeated
    characters, each with speech).  So for a segment that carries the
    worker's flag, and for every segment the worker builds, a reason is
    derived exactly when the flag is set, and the tooltip of a flagged
    segment is its reasons joined, never the fallback text. *)
Theorem tooltip_reasons_iff_flag :
  (forall seg audioDuration,
      (endTime seg - seg_startTime seg == audioDuration)%Q ->
      let w := filterNonSpeechTags (text seg) false in
      let hasActualSpeech := truthy w && (2 <=? List.length w) in
      (tooltipCore seg <> [] <-> classifyUncertain (text seg) audioDuration = true)
      /\ (In reason_noSpeech (tooltipCore seg) <-> hasActualSpeech = false)
      /\ (In reason_tooFewWords (tooltipCore seg)
          <-> hasActualSpeech = true
              /\ (List.length (split_ws w) <=? 2) && Qltb 3 audioDuration = true)
      /\ (In reason_ellipsis (tooltipCore seg)
          <-> hasActualSpeech = true /\ includes (js "...") w = true)
      /\ (In reason_repeated (tooltipCore seg)
          <-> hasActualSpeech = true /\ hasRepeatedChars w = true)
      /\ (isUncertain seg = Some (classifyUncertain (text seg) audioDuration) ->
          (tooltipCore seg <> [] <-> isUncertain seg = Some true)
          /\ tooltipReasons seg
             = (if classifyUncertain (text seg) audioDuration
                then tooltipCore seg else [])
          /\ getUncertainTooltip seg
             = (if classifyUncertain (text seg) audioDuration
                then join (js " ") (tooltipCore seg)
                else js "Unsichere Erkennung")))
  /\ (forall item segmentText audioDuration,
        let seg := newSegment item segmentText audioDuration in
        (tooltipCore seg <> [] <-> isUncertain seg = Some true)
        /\ getUncertainTooltip seg
           = (if classifyUncertain segmentText audioDuration
              then join (js " ") (tooltipCore seg)
              else js "Unsichere Erkennung")).
Proof.
  assert (General : forall seg d,
    (endTime seg - seg_startTime seg == d)%Q ->
    (tooltipCore seg <> [] <-> classifyUncertain (text seg) d = true)
    /\ (isUncertain seg = Some (classifyUncertain (text seg) d) ->
        (tooltipCore seg <> [] <-> isUncertain seg = Some true)
        /\ tooltipReasons seg
           = (if classifyUncertain (text seg) d then tooltipCore seg else [])
        /\ getUncertainTooltip seg
           = (if classifyUncertain (text seg) d
              then join (js " ") (tooltipCore seg)
              else js "Unsichere Erkennung"))).
  { intros seg d Hdur.
    pose proof (tooltipCore_cases seg d Hdur) as Hc. cbv zeta in Hc.
    assert (Hiff : tooltipCore seg <> []
                   <-> classifyUncertain (text seg) d = true).
    { rewrite Hc. unfold classifyUncertain.
      set (w := filterNonSpeechTags (text seg) false) in *.
      destruct (truthy w && (2 <=? List.length w)) eqn:Has; cbn [negb andb orb].
      - replace (truthy w) with true
          by (destruct w; [discriminate Has | reflexivity]).
        rewrite orb_false_r.
        destruct ((List.length (split_ws w) <=? 2) && Qltb 3 d),
                 (includes (js "...") w), (hasRepeatedChars w);
          cbn [orb app]; split; intros H; try reflexivity; try discriminate;
          try (now contradiction H).
      - split; [reflexivity | discriminate]. }
    split; [exact Hiff|].
    intros Hflag. split; [rewrite Hflag, Hiff; split; congruence|].
    unfold getUncertainTooltip, tooltipReasons. rewrite Hflag.
    destruct (classifyUncertain (text seg) d) eqn:Hcl; cbn [is_true negb];
      [|split; reflexivity].
    split; [reflexivity|].
    destruct (tooltipCore seg) eqn:E; [|reflexivity].
    exfalso. now apply (proj2 Hiff eq_refl). }
  split.
  - intros seg d Hdur. cbv zeta.
    destruct (General seg d Hdur) as [Hiff Hworker].
    split; [exact Hiff|].
    rewrite (tooltipCore_cases seg d Hdur) in *. cbv zeta in *. clear Hiff.
    assert (Hdistinct : reason_noSpeech <> reason_tooFewWords
                        /\ reason_noSpeech <> reason_ellipsis
                        /\ reason_noSpeech <> reason_repeated
                        /\ reason_tooFewWords <> reason_ellipsis
                        /\ reason_tooFewWords <> reason_repeated
                        /\ reason_ellipsis <> reason_repeated)
      by (repeat split; vm_compute; discriminate).
    destruct Hdistinct as (D1 & D2 & D3 & D4 & D5 & D6).
    set (w := filterNonSpeechTags (text seg) false) in *.
    set (r1 := reason_noSpeech) in *. set (r2 := reason_tooFewWords) in *.
    set (r3 := reason_ellipsis) in *. set (r4 := reason_repeated) in *.
    clearbody r1 r2 r3 r4.
    split; [|split; [|split; [|split; [|exact Hworker]]]]; clear Hworker;
      destruct (truthy w && (2 <=? List.length w));
      destruct ((List.length (split_ws w) <=? 2) && Qltb 3 d);
      destruct (includes (js "...") w); destruct (hasRepeatedChars w);
      cbn [negb app In]; intuition congruence.
  - intros item segmentText d. cbv zeta.
    destruct (newSegment_is_worker_segment item segmentText d) as [Hflag Hdur].
    cbv zeta in Hflag, Hdur.
    destruct (General _ d Hdur) as [_ Hworker].
    destruct (Hworker Hflag) as (H1 & _ & H3). split; [exact H1|exact H3].
Qed.

Lemma tooltip_reasons_iff_flag_witness :
  let seg := newSegment (sampleItem 0) (js "ja...") 4 in
  (endTime seg - seg_startTime seg == 4)%Q
  /\ classifyUncertain (text seg) 4 = true
  /\ tooltipCore seg = [reason_tooFewWords; reason_ellipsis]
  /\ In reason_ellipsis (tooltipCore seg)
  /\ ~ In reason_noSpeech (tooltipCore seg).
Proof.
  cbv zeta.
  assert (Hdur : (endTime (newSegment (sampleItem 0) (js "ja...") 4)
                  - seg_startTime (newSegment (sampleItem 0) (js "ja...") 4)
                  == 4)%Q) by (vm_compute; reflexivity).
  destruct (proj1 tooltip_reasons_iff_flag
              (newSegment (sampleItem 0) (js "ja...") 4) 4%Q Hdur)
    as (_ & Hnone & _ & Hellipsis & _).
  split; [exact Hdur|]. split; [vm_compute; reflexivity|].
  split; [vm_compute; reflexivity|].
  split.
  - apply Hellipsis. split; vm_compute; reflexivity.
  - intros H. apply Hnone in H. vm_compute in H. discriminate H.
Defined.

(* ------------------------------------------------------------------ *)
(** *** The voice-activity loop *)

Ltac open_sys s := destruct s; cbn in *; subst.

Lemma gated_tick settings now dataArray s :
  liveModeActiveRef s = true ->
  isSilent dataArray = true ->
  List.length (audioChunksRef s) < minChunksForSegment ->
  let s' := checkVoiceActivity settings now dataArray s in
  silenceStartRef s' = None /\ silenceCountdown s' = None
  /\ trace s' = trace s /\ seals s' = seals s
  /\ isProcessingSegmentRef s' = isProcessingSegmentRef s
  /\ mediaRecorderRef s' = mediaRecorderRef s
  /\ liveModeActiveRef s' = true
  /\ audioChunksRef s' = audioChunksRef s
  /\ pendingFrame s' = Some (nextHandle s).
Proof.
  intros Hact Hsil Hch. unfold checkVoiceActivity.
  rewrite Hact, Hsil. cbn [negb].
  apply Nat.ltb_lt in Hch. rewrite Nat.ltb_antisym in Hch.
  apply negb_true_iff in Hch. rewrite Hch.
  open_sys s. repeat split.
Qed.

Lemma frame_taken s :
  let s1 := s <| pendingFrame := None |> in
  liveModeActiveRef s1 = liveModeActiveRef s
  /\ audioChunksRef s1 = audioChunksRef s
  /\ trace s1 = trace s /\ seals s1 = seals s
  /\ isProcessingSegmentRef s1 = isProcessingSegmentRef s
  /\ mediaRecorderRef s1 = mediaRecorderRef s
  /\ nextHandle s1 = nextHandle s.
Proof. open_sys s. repeat split. Qed.

(** C5. While fewer than 15 chunks are buffered, a tick whose loudness is
    below the threshold leaves the silence timer unset, shows no
    countdown and triggers no seal, and so does every run of such ticks,
    however long it lasts. *)
Theorem minimum_chunk_gating :
  forall settings s,
    liveModeActiveRef s = true ->
    List.length (audioChunksRef s) < minChunksForSegment ->
    (forall now dataArray,
        isSilent dataArray = true ->
        let s' := checkVoiceActivity settings now dataArray s in
        silenceStartRef s' = None /\ silenceCountdown s' = None
        /\ trace s' = trace s /\ seals s' = seals s
        /\ isProcessingSegmentRef s' = isProcessingSegmentRef s
        /\ mediaRecorderRef s' = mediaRecorderRef s)
    /\ (forall ticks,
          ticks <> [] ->
          Forall (fun t => isSilent (snd t) = true) ticks ->
          pendingFrame s <> None ->
          exists s',
            run settings (frames ticks) s = Some s'
            /\ silenceStartRef s' = None /\ silenceCountdown s' = None
            /\ trace s' = trace s /\ seals s' = seals s
            /\ isProcessingSegmentRef s' = isProcessingSegmentRef s
            /\ mediaRecorderRef s' = mediaRecorderRef s).
Proof.
  intros settings s Hact Hch. split.
  - intros now dataArray Hsil.
    destruct (gated_tick settings now dataArray s Hact Hsil Hch)
      as (H1 & H2 & H3 & H4 & H5 & H6 & _). auto 10.
  - intros ticks Hne Hall. revert s Hact Hch.
    induction Hall as [|[now dataArray] ticks Hsil Hall IH]; [contradiction|].
    intros s Hact Hch Hpending. cbn [frames map run exec fst snd].
    destruct (pendingFrame s) as [h|] eqn:Hp; [|contradiction].
    destruct (frame_taken s) as (F1 & F2 & F3 & F4 & F5 & F6 & F7).
    set (s1 := s <| pendingFrame := None |>) in *.
    assert (Hact1 : liveModeActiveRef s1 = true) by congruence.
    assert (Hch1 : List.length (audioChunksRef s1) < minChunksForSegment)
      by (rewrite F2; exact Hch).
    destruct (gated_tick settings now dataArray s1 Hact1 Hsil Hch1)
      as (H1 & H2 & H3 & H4 & H5 & H6 & H7 & H8 & H9).
    cbv zeta in *. set (s2 := checkVoiceActivity settings now dataArray s1) in *.
    destruct ticks as [|t ticks].
    + exists s2. cbn [map run]. repeat split; congruence.
    + destruct (IH ltac:(discriminate) s2 H7 ltac:(rewrite H8; exact Hch1)
                  ltac:(rewrite H9; discriminate))
        as (s' & Hrun & G1 & G2 & G3 & G4 & G5 & G6).
      exists s'. split; [exact Hrun|]. repeat split; congruence.
Qed.

Lemma minimum_chunk_gating_witness :
  exists s',
    run None (frames (steadyTicks 16 16 quietData 400)) freshSession = Some s'
    /\ silenceStartRef s' = None /\ silenceCountdown s' = None
    /\ trace s' = trace freshSession /\ seals s' = seals freshSession
    /\ isProcessingSegmentRef s' = isProcessingSegmentRef freshSession
    /\ mediaRecorderRef s' = mediaRecorderRef freshSession.
Proof.
  refine (proj2 (minimum_chunk_gating None freshSession eq_refl _)
            (steadyTicks 16 16 quietData 400) _ _ _).
  - vm_compute. lia.
  - discriminate.
  - apply Forall_forall, forallb_forall. vm_compute. reflexivity.
  - discriminate.
Defined.



(* ------------------------------------------------------------------ *)
(** *** Queue and worker: what every step keeps *)

Arguments transcribeItem : simpl never.
Arguments newSegment : simpl never.
Arguments appendTranscript : simpl never.
Arguments audioFileOf : simpl never.

Ltac break :=
  repeat match goal with
  | |- context [if ?b then _ else _] => destruct b eqn:?
  | |- context [match ?x with _ => _ end] => destruct x eqn:?
  end.

Lemma enqueued_snoc t e :
  enqueued (t ++ [e])
  = enqueued t ++ match e with EvEnqueued item => [item] | _ => [] end.
Proof. unfold enqueued. rewrite flat_map_app. simpl. now rewrite app_nil_r. Qed.

Lemma replies_snoc t e :
  replies (t ++ [e])
  = replies t ++ match e with EvReplied item r => [(item, r)] | _ => [] end.
Proof. unfold replies. rewrite flat_map_app. simpl. now rewrite app_nil_r. Qed.

Arguments enqueued : simpl never.
Arguments replies : simpl never.

Ltac inv_auto :=
  cbn in *; unfold RecordSetters.constant in *;
  rewrite ?enqueued_snoc, ?replies_snoc in *; cbn [app] in *;
  rewrite ?app_nil_r in *; intuition (try congruence; try lia).

Section WorkerInvariant.
Variable settings : option Settings.
Variable segments0 : list TranscriptSegment.
Variable errors0 : list jsstring.

Let P := workerInv settings segments0 errors0.

Lemma workerInv_emit e s : silentEvent e -> P s -> P (emit e s).
Proof.
  unfold P, workerInv, emit. intros He H. open_sys s.
  destruct e; try contradiction; inv_auto.
Qed.

Lemma workerInv_pendingFrame v s : P s -> P (s <| pendingFrame := v |>).
Proof. unfold P, workerInv. intros H. open_sys s. inv_auto. Qed.

Lemma workerInv_liveAnimation v s : P s -> P (s <| liveAnimationRef := v |>).
Proof. unfold P, workerInv. intros H. open_sys s. inv_auto. Qed.

Lemma workerInv_liveModeActive v s : P s -> P (s <| liveModeActiveRef := v |>).
Proof. unfold P, workerInv. intros H. open_sys s. inv_auto. Qed.

Lemma workerInv_stopTask v s : P s -> P (s <| stopTask := v |>).
Proof. unfold P, workerInv. intros H. open_sys s. inv_auto. Qed.

Lemma workerInv_release s : P s -> P (release s).
Proof. unfold P, workerInv, release, emit. intros H. open_sys s. inv_auto. Qed.

Lemma workerInv_stop_then c s : P s -> P (stop_then c s).
Proof.
  unfold P, workerInv, stop_then, after_drain, emit. intros H.
  open_sys s. break; inv_auto.
Qed.

Lemma workerInv_finish_seal a s : P s -> P (finish_seal a s).
Proof.
  unfold finish_seal. intros H. break; auto using workerInv_release, workerInv_stop_then.
Qed.

Lemma workerInv_processLiveSegment now a s :
  P s -> P (fst (processLiveSegment now a s)).
Proof.
  unfold P, workerInv, processLiveSegment, emit. intros H.
  open_sys s. break; inv_auto.
Qed.

Lemma workerInv_requestAnimationFrame s : P s -> P (requestAnimationFrame s).
Proof.
  unfold P, workerInv, requestAnimationFrame. intros H. open_sys s. inv_auto.
Qed.

Lemma workerInv_resetSilence s : P s -> P (resetSilence s).
Proof. unfold P, workerInv, resetSilence. intros H. open_sys s. inv_auto. Qed.

Lemma workerInv_silenceCountdown v s : P s -> P (s <| silenceCountdown := v |>).
Proof. unfold P, workerInv. intros H. open_sys s. inv_auto. Qed.

Lemma workerInv_silenceStart v s : P s -> P (s <| silenceStartRef := v |>).
Proof. unfold P, workerInv. intros H. open_sys s. inv_auto. Qed.

Lemma workerInv_checkVoiceActivity now d s :
  P s -> P (checkVoiceActivity settings now d s).
Proof.
  unfold checkVoiceActivity. intros H.
  break;
    repeat match goal with
      | |- _ (requestAnimationFrame _) => apply workerInv_requestAnimationFrame
      | |- _ (fst (processLiveSegment _ _ _)) => apply workerInv_processLiveSegment
      | |- _ (emit _ _) => apply workerInv_emit; [exact I|]
      | |- _ (resetSilence _) => apply workerInv_resetSilence
      end;
    first [ exact H | apply workerInv_silenceCountdown; exact H
          | apply workerInv_silenceStart; exact H ].
Qed.

Lemma workerInv_stop_final now c s : P s -> P (stop_final now c s).
Proof.
  unfold stop_final. intros H.
  destruct (mediaRecorderRef s) as [[|]|].
  - pose proof (workerInv_processLiveSegment now true (emit EvFinalSeal s)
                  (workerInv_emit EvFinalSeal s I H)) as H1.
    destruct (processLiveSegment now true (emit EvFinalSeal s)) as [s1 suspended].
    cbn [fst] in H1. destruct suspended.
    + now apply workerInv_stopTask.
    + now apply workerInv_stop_then, workerInv_release.
  - now apply workerInv_stop_then, workerInv_release.
  - now apply workerInv_stop_then, workerInv_release.
Qed.

Lemma workerInv_cancelAnimationFrame h s : P s -> P (cancelAnimationFrame h s).
Proof.
  unfold cancelAnimationFrame. intros H.
  destruct (pendingFrame s) as [p|]; [|exact H].
  destruct (p =? h); [|exact H]. now apply workerInv_pendingFrame.
Qed.

Lemma workerInv_stopLiveMode now c s : P s -> P (stopLiveMode now c s).
Proof.
  unfold stopLiveMode. intros H.
  apply (workerInv_liveModeActive false) in H.
  set (s1 := s <| liveModeActiveRef := false |>) in *. clearbody s1.
  set (s2 := match liveAnimationRef s1 with Some h => _ | None => _ end).
  assert (H2 : P s2).
  { subst s2. destruct (liveAnimationRef s1) as [h|]; [|exact H].
    destruct (h =? 0); [exact H|].
    now apply workerInv_liveAnimation, workerInv_cancelAnimationFrame. }
  clearbody s2. apply (workerInv_emit EvStopBegin _ I) in H2.
  destruct (isProcessingSegmentRef (emit EvStopBegin s2)).
  - now apply workerInv_stopTask.
  - now apply workerInv_stop_final.
Qed.

Lemma workerInv_stop_wait now c n s : P s -> P (stop_wait now c n s).
Proof.
  unfold stop_wait. intros H. apply (workerInv_emit EvStopPoll _ I) in H.
  destruct (isProcessingSegmentRef (emit EvStopPoll s) && (S n <? 50)).
  - now apply workerInv_stopTask.
  - now apply workerInv_stop_final.
Qed.

Lemma workerInv_enqueueSegment i blob index start path a s :
  P s -> P (enqueueSegment i blob index start path a s).
Proof.
  unfold enqueueSegment. intros H. apply workerInv_finish_seal.
  revert H. unfold P, workerInv, emit. clear. intros H.
  open_sys s. break; cbn in *; rewrite ?enqueued_snoc, ?replies_snoc;
    cbn [app]; rewrite ?app_nil_r;
    destruct H as (H1 & H2 & H3 & H4 & H5 & H6);
    (repeat split;
     [ rewrite H1, !app_assoc; reflexivity | assumption | assumption
     | assumption
     | intros _ E; apply app_eq_nil in E as [_ E]; discriminate
     | intros _; auto; right; lia ]).
Qed.

Lemma workerInv_seal_onstop i chunks start a s :
  P s -> P (seal_onstop i chunks start a s).
Proof.
  unfold seal_onstop. intros H.
  set (blob := new_Blob _).
  set (s3 := _ <| isProcessingSegmentRef := false |>).
  assert (H3 : P s3).
  { subst s3. revert H. unfold P, workerInv, emit. generalize blob. clear.
    intros blob H. open_sys s. break; inv_auto. }
  clearbody s3 blob.
  destruct (size blob <? 1000).
  - apply workerInv_finish_seal, workerInv_emit; [exact I|].
    revert H3. unfold P, workerInv. clear. intros H. open_sys s3. inv_auto.
  - destruct (truthy (or_else (currentProjectRef s3) [])).
    + apply workerInv_emit; [exact I|].
      revert H3. unfold P, workerInv. clear. intros H. open_sys s3. inv_auto.
    + now apply workerInv_enqueueSegment.
Qed.

Lemma workerInv_worker_loop s :
  P s -> worker s <> WIdle -> inFlight (worker s) = [] -> P (worker_loop s).
Proof.
  unfold P, workerInv, worker_loop. intros H Hw Hf.
  open_sys s. destruct worker0; try discriminate; try congruence;
    break; inv_auto.
Qed.

Lemma workerInv_exec a s s' : P s -> exec settings a s = Some s' -> P s'.
Proof.
  intros H Hex. destruct a; cbn [exec] in Hex.
  - (* Frame *)
    destruct (pendingFrame s); [|discriminate]. injection Hex as <-.
    apply workerInv_checkVoiceActivity.
    revert H. unfold P, workerInv. clear. intros H. open_sys s. inv_auto.
  - (* DataAvailable *)
    destruct (mediaRecorderRef s) as [st|]; [|discriminate].
    destruct (match st with recording => true | inactive => sealStopPending s end);
      [|discriminate].
    injection Hex as <-. destruct (0 <? size data); [|exact H].
    revert H. unfold P, workerInv. clear. intros H. open_sys s. inv_auto.
  - (* RecorderStopped *)
    destruct (nth_error (seals s) i) as [[chunks start a | ]|]; try discriminate.
    injection Hex as <-. now apply workerInv_seal_onstop.
  - (* AudioSaved *)
    destruct (nth_error (seals s) i) as [[| blob index start a]|]; try discriminate.
    injection Hex as <-. now apply workerInv_enqueueSegment.
  - (* WorkerTimer *)
    destruct (workerTimers s) as [|n] eqn:Hn; [discriminate|].
    injection Hex as <-. revert H Hn.
    unfold P, workerInv, processTranscriptionQueue, worker_loop. clear.
    intros (H1 & H2 & H3 & H4 & H5 & H6) Hn. open_sys s.
    destruct worker0; cbn in *; try (repeat split; auto; fail).
    destruct transcriptionQueueRef0 as [|item rest]; cbn in *;
      repeat split; auto; congruence.
  - (* WorkerResume *)
    destruct (worker s) eqn:Hw; try discriminate. injection Hex as <-.
    revert H Hw. unfold P, workerInv, worker_shift, worker_loop. clear.
    intros (H1 & H2 & H3 & H4 & H5 & H6) Hw. open_sys s.
    destruct transcriptionQueueRef0 as [|item rest]; [now destruct H5|].
    cbn in *. repeat split; auto; try discriminate.
  - (* SttDone *)
    destruct (worker s) as [| |item|] eqn:Hw; try discriminate.
    injection Hex as <-. revert H Hw.
    unfold P, workerInv, worker_reply, worker_loop, emit. clear.
    intros (H1 & H2 & H3 & H4 & H5 & H6) Hw. open_sys s.
    assert (Es : segmentsOf settings (item, reply)
                 = match transcribeItem settings reply with
                   | Completed t d => [newSegment item t d] | _ => [] end)
      by reflexivity.
    assert (Ee : errorsOf settings (item, reply)
                 = match transcribeItem settings reply with
                   | Failed m => [m] | _ => [] end)
      by reflexivity.
    destruct (transcribeItem settings reply) eqn:Ht;
      try destruct transcriptionQueueRef0 as [|next rest];
      cbn in *; unfold RecordSetters.constant;
      rewrite ?enqueued_snoc, ?replies_snoc, ?map_app, ?flat_map_app;
      cbn [map flat_map fst app]; rewrite ?Es, ?Ee, ?app_nil_r, <- ?app_assoc;
      repeat split; auto; try discriminate; try congruence.
  - (* WorkerNext *)
    destruct (worker s) eqn:Hw; try discriminate. injection Hex as <-.
    apply workerInv_worker_loop; [exact H | congruence | now rewrite Hw].
  - (* ClickStop *)
    destruct (liveMode s); [|discriminate]. injection Hex as <-.
    revert H. unfold P, workerInv, toggleLiveMode_stop. clear.
    intros H. open_sys s. inv_auto.
  - (* StopTimer *)
    destruct (stopTask s); try discriminate. injection Hex as <-.
    now apply workerInv_stopLiveMode.
  - (* StopWaitTick *)
    destruct (stopTask s); try discriminate. injection Hex as <-.
    now apply workerInv_stop_wait.
  - (* DrainCheck *)
    destruct (stopTask s); try discriminate.
    destruct ((List.length (transcriptionQueueRef s) =? 0)
              && negb (isTranscribingRef s)); injection Hex as <-; [|exact H].
    revert H. unfold P, workerInv, after_drain, emit. clear.
    intros H. open_sys s. inv_auto.
  - (* FinalDelayOver *)
    destruct (stopTask s); try discriminate. injection Hex as <-.
    revert H. unfold P, workerInv, final_save, emit. clear.
    intros H. open_sys s. break; inv_auto.
  - (* PersistDone *)
    destruct (stopTask s); try discriminate. injection Hex as <-.
    revert H. unfold P, workerInv, emit. clear. intros H. open_sys s. inv_auto.
Qed.

Lemma workerInv_run acts : forall s s',
  P s -> run settings acts s = Some s' -> P s'.
Proof.
  induction acts as [|a acts IH]; intros s s' H Hrun; cbn [run] in Hrun.
  - now injection Hrun as <-.
  - destruct (exec settings a s) as [s1|] eqn:Hex; [|discriminate].
    eauto using workerInv_exec.
Qed.
End WorkerInvariant.

Lemma workerInv_start settings s :
  quietWorker s -> workerInv settings (segments s) (errorChannel s) s.
Proof.
  intros (Ht & Hq & Hw & Hi). unfold workerInv.
  rewrite Ht, Hq, Hw, Hi. cbn. rewrite !app_nil_r.
  repeat split; try reflexivity; congruence.
Qed.

(* ------------------------------------------------------------------ *)
(** *** Order of the transcript *)

Lemma segment_ids_sorted settings rep :
  StronglySorted lt (map segmentIndex (map fst rep)) ->
  StronglySorted lt (map seg_id (flat_map (segmentsOf settings) rep))
  /\ incl (map seg_id (flat_map (segmentsOf settings) rep))
          (map segmentIndex (map fst rep)).
Proof.
  induction rep as [|[item r] rep IH]; intros Hs; cbn [map flat_map fst].
  - split; [constructor | apply incl_nil_l].
  - cbn [map fst] in Hs. apply StronglySorted_inv in Hs as [Hs Hall].
    destruct (IH Hs) as [IHs IHi]. unfold segmentsOf at 1 3. cbn [fst snd].
    destruct (transcribeItem settings r); cbn [app map];
      try (split; [exact IHs | now apply incl_tl]).
    split.
    + constructor; [exact IHs|]. apply Forall_forall. intros x Hx.
      apply IHi in Hx. rewrite Forall_forall in Hall. now apply Hall.
    + intros x [<- | Hx]; [now left | right; now apply IHi].
Qed.




(** C3. When the transcription of an item fails (a collaborator call
    throws, or the API answers with an error), the worker puts the
    message on the error channel, adds no segment and goes on with the
    next item.  With three items answered for, the second failing, the
    segment list gains the first and the third, in that order, and the
    error channel one message. *)
Theorem failed_item_is_isolated :
  (forall settings item reply message s,
      transcribeItem settings reply = Failed message ->
      let s' := worker_reply settings item reply s in
      errorChannel s' = errorChannel s ++ [message]
      /\ segments s' = segments s
      /\ transcriptionQueueRef s' = transcriptionQueueRef s
      /\ worker s' = match transcriptionQueueRef s with
                     | [] => WIdle
                     | _ :: _ => WYield
                     end)
  /\ (forall message, transcribeItem None (failingReply message) = Failed message)
  /\ (forall error,
        transcribeItem apiSettings (apiErrorReply error)
        = Failed (or_else error error_whisperApi))
  /\ (forall settings s0 acts s i1 i2 i3 r1 r2 r3 t1 d1 message t3 d3,
        quietWorker s0 ->
        run settings acts s0 = Some s ->
        replies (trace s) = [(i1, r1); (i2, r2); (i3, r3)] ->
        transcribeItem settings r1 = Completed t1 d1 ->
        transcribeItem settings r2 = Failed message ->
        transcribeItem settings r3 = Completed t3 d3 ->
        segments s = segments s0 ++ [newSegment i1 t1 d1; newSegment i3 t3 d3]
        /\ errorChannel s = errorChannel s0 ++ [message]).
Proof.
  split; [|split; [|split]].
  - intros settings item reply message s Hfail. cbv zeta.
    unfold worker_reply, worker_loop, emit. rewrite Hfail.
    open_sys s. destruct transcriptionQueueRef0; cbn; repeat split.
  - reflexivity.
  - reflexivity.
  - intros settings s0 acts s i1 i2 i3 r1 r2 r3 t1 d1 message t3 d3
      Hq Hrun Hrep Ht1 Ht2 Ht3.
    pose proof (workerInv_run settings _ _ acts s0 s (workerInv_start settings s0 Hq) Hrun)
      as (_ & H2 & H3 & _).
    rewrite H2, H3, Hrep. unfold segmentsOf, errorsOf. cbn [flat_map fst snd].
    rewrite Ht1, Ht2, Ht3. split; reflexivity.
Qed.

Lemma failed_item_is_isolated_witness :
  let s := stateAfter None threeSegmentsRun freshSession in
  exists i1 i3,
    segments s
    = segments freshSession
        ++ [newSegment i1 (js "Hallo Welt") (64000 # 16000);
            newSegment i3 (js "Guten Tag") (32000 # 16000)]
    /\ errorChannel s = errorChannel freshSession ++ [js "whisper failed"]
    /\ segmentIndex i1 = 0 /\ segmentIndex i3 = 2.
Proof.
  pose (s := stateAfter None threeSegmentsRun freshSession).
  pose (rep := replies (trace s)).
  assert (Hrep : exists i1 i2 i3,
             rep = [(i1, localReply 64000 (js "Hallo Welt"));
                    (i2, failingReply (js "whisper failed"));
                    (i3, localReply 32000 (js "Guten Tag"))]
             /\ segmentIndex i1 = 0 /\ segmentIndex i3 = 2).
  { vm_compute. eexists _, _, _. repeat split. }
  destruct Hrep as (i1 & i2 & i3 & Hrep & Hi1 & Hi3).
  exists i1, i3.
  destruct (proj2 (proj2 (proj2 failed_item_is_isolated))
              None freshSession threeSegmentsRun s
              i1 i2 i3 _ _ _ (js "Hallo Welt") (64000 # 16000)
              (js "whisper failed") (js "Guten Tag") (32000 # 16000)
              ltac:(repeat split) ltac:(vm_compute; reflexivity) Hrep
              eq_refl eq_refl eq_refl) as [Hs He].
  repeat split; assumption.
Defined.


(* ------------------------------------------------------------------ *)
(** *** The seal operation *)

(** C9 (as the code has it). Called with no recorder, or with no stream,
    [processLiveSegment] returns at its guard: nothing is thrown, nothing
    reaches the error channel, no event happens, the state is the same. *)
Theorem seal_without_recorder_returns :
  forall now awaited s,
    mediaRecorderRef s = None \/ recordingStreamRef s = false ->
    processLiveSegment now awaited s = (s, false).
Proof.
  intros now awaited s H. unfold processLiveSegment.
  destruct (isProcessingSegmentRef s); [reflexivity|].
  destruct H as [-> | ->]; [reflexivity|].
  rewrite orb_true_r. reflexivity.
Qed.

Lemma seal_without_recorder_returns_witness :
  processLiveSegment 5000 false sessionWithoutRecorder
  = (sessionWithoutRecorder, false).
Proof.
  apply (seal_without_recorder_returns 5000 false sessionWithoutRecorder).
  left. reflexivity.
Defined.

(** C9 as claimed does not hold: in a live session without a recorder the
    call is a silent no-op, also when the loop makes it at the end of a
    silence. *)
Lemma seal_without_recorder_is_silent :
  mediaRecorderRef sessionWithoutRecorder = None
  /\ processLiveSegment 5000 false sessionWithoutRecorder
     = (sessionWithoutRecorder, false)
  /\ errorChannel (fst (processLiveSegment 5000 false sessionWithoutRecorder)) = []
  /\ trace (fst (processLiveSegment 5000 false sessionWithoutRecorder)) = [].
Proof. repeat split. Qed.

(* ------------------------------------------------------------------ *)
(** *** The stop sequence: what every step keeps *)

Lemma phaseOf_snoc t e : phaseOf (t ++ [e]) = readEvent (phaseOf t) e.
Proof. unfold phaseOf. now rewrite fold_left_app. Qed.

Arguments phaseOf : simpl never.

Lemma stopInv_view s s' : stopView s = stopView s' -> stopInv s -> stopInv s'.
Proof.
  unfold stopView, stopInv. intros E. injection E as E1 E2 E3 E4 E5 E6 E7.
  now rewrite E1, E2, E3, E4, E5, E6, E7.
Qed.

Lemma midStop_view s s' p : midView s = midView s' -> midStop s p -> midStop s' p.
Proof.
  unfold midView, midStop. intros E. injection E as E1 E2 E3 E4 E5.
  now rewrite E1, E2, E3, E4, E5.
Qed.

Ltac same_view :=
  match goal with
  | |- ?V ?l = ?V ?s => clear; try (is_var s; destruct s); reflexivity
  end.

Lemma stopInv_emit e s : neutralEvent e -> stopInv s -> stopInv (emit e s).
Proof.
  unfold stopInv, emit. intros He ([p [Hp Ha]] & H2 & H3 & H4 & H5).
  destruct s; cbn in *. rewrite phaseOf_snoc, Hp. cbn. rewrite He. eauto 10.
Qed.

Lemma midStop_emit e s p q :
  nextPhase p e = Some q -> midStop s p -> midStop (emit e s) q.
Proof.
  unfold midStop, emit. intros He (Hp & H2). destruct s; cbn in *.
  rewrite phaseOf_snoc, Hp. cbn. now rewrite He.
Qed.

Lemma stopInv_mid s p :
  midStop s p -> agrees (stopTask s) p ->
  (forall h, pendingFrame s = Some h -> liveAnimationRef s = Some h /\ h <> 0) ->
  stopInv s.
Proof.
  unfold midStop, stopInv. intros (Hp & Ha & Hf & Hn & Hl) Hag H3.
  repeat split; eauto; try congruence; intros h Hh; now apply H3.
Qed.

Lemma midStop_of_inv s :
  stopInv s -> stopBegun (stopTask s) = true ->
  exists p, midStop s p /\ agrees (stopTask s) p.
Proof.
  unfold stopInv, midStop. intros ([p [Hp Ha]] & H2 & H3 & H4 & H5) Hb.
  destruct (H2 Hb) as [Hact Hpend]. exists p. repeat split; auto.
  destruct (liveMode s); [|reflexivity]. rewrite H5 in Hb by reflexivity.
  discriminate.
Qed.

Lemma midStop_release s p :
  midStop s p -> nextPhase p EvRelease = Some Released ->
  midStop (release s) Released.
Proof.
  intros H He. unfold release. apply (midStop_emit _ _ p); [exact He|].
  revert H. apply midStop_view. same_view.
Qed.

Lemma stopInv_after_drain c s p :
  midStop s p -> p = Released \/ p = AwaitingDrain ->
  transcriptionQueueRef s = [] -> isTranscribingRef s = false ->
  stopInv (after_drain c s).
Proof.
  intros H Hp Hq Ht. unfold after_drain. rewrite Hq, Ht. cbn [List.length].
  set (s1 := s <| isProcessingAfterLiveStopRef := false |>
               <| stopTask := FinalDelay c |>).
  assert (H1 : midStop s1 p) by (revert H; apply midStop_view; subst s1; same_view).
  apply (stopInv_mid _ Drained).
  - apply (midStop_emit _ _ p); [|exact H1]. destruct Hp as [-> | ->]; reflexivity.
  - destruct s; exact I.
  - destruct H as (_ & _ & Hf & _). destruct s; cbn in *. congruence.
Qed.

Lemma stopInv_stop_then c s :
  midStop s Released -> stopInv (stop_then c s).
Proof.
  intros H. unfold stop_then.
  destruct ((0 <? List.length (transcriptionQueueRef s)) || isTranscribingRef s)
    eqn:Hbusy.
  - set (s1 := s <| stopTask := Draining c |>).
    assert (H1 : midStop s1 Released)
      by (revert H; apply midStop_view; subst s1; same_view).
    apply (stopInv_mid _ AwaitingDrain).
    + apply (midStop_emit _ _ Released); [reflexivity | exact H1].
    + destruct s; exact I.
    + destruct H as (_ & _ & Hf & _). destruct s; cbn in *. congruence.
  - apply orb_false_iff in Hbusy as [Hq Ht].
    apply (stopInv_after_drain c s Released); auto.
    destruct (transcriptionQueueRef s); [reflexivity | discriminate].
Qed.

Lemma stopInv_finish_seal a s : stopInv s -> stopInv (finish_seal a s).
Proof.
  intros H. unfold finish_seal. destruct a; [|exact H].
  destruct (stopTask s) as [| | | c | | | |] eqn:Htask; try exact H.
  destruct (midStop_of_inv s H) as (p & Hm & Hag); [now rewrite Htask|].
  rewrite Htask in Hag. destruct p; try contradiction.
  apply stopInv_stop_then. now apply (midStop_release s FinalSealCalled).
Qed.

Lemma neutral_events :
  (forall b, neutralEvent (EvSealed b)) /\ (forall b, neutralEvent (EvDiscarded b))
  /\ (forall b i, neutralEvent (EvSaveAudio b i))
  /\ (forall i, neutralEvent (EvEnqueued i))
  /\ (forall i r, neutralEvent (EvReplied i r))
  /\ (forall q, neutralEvent (EvRecorderStop q)).
Proof. repeat split; intros; intros p; destruct p; reflexivity. Qed.

Lemma midStop_processLiveSegment now a s p :
  midStop s p -> midStop (fst (processLiveSegment now a s)) p.
Proof.
  intros H. unfold processLiveSegment.
  destruct (isProcessingSegmentRef s); [exact H|].
  destruct (negb (isSome (mediaRecorderRef s)) || negb (recordingStreamRef s));
    [exact H|].
  destruct (mediaRecorderRef s) as [[|]|]; cbn [fst].
  - apply (midStop_emit _ _ p); [destruct p; reflexivity|].
    revert H. apply midStop_view. same_view.
  - revert H. apply midStop_view. same_view.
  - revert H. apply midStop_view. same_view.
Qed.

Lemma stopInv_processLiveSegment now a s :
  stopInv s -> stopInv (fst (processLiveSegment now a s)).
Proof.
  intros H. unfold processLiveSegment.
  destruct (isProcessingSegmentRef s); [exact H|].
  destruct (negb (isSome (mediaRecorderRef s)) || negb (recordingStreamRef s));
    [exact H|].
  destruct (mediaRecorderRef s) as [[|]|]; cbn [fst].
  - apply stopInv_emit; [apply neutral_events|].
    revert H. apply stopInv_view. same_view.
  - revert H. apply stopInv_view. same_view.
  - revert H. apply stopInv_view. same_view.
Qed.

Lemma stopInv_stop_final now c s n :
  midStop s (Waiting n) -> stopInv (stop_final now c s).
Proof.
  intros H. unfold stop_final.
  assert (Hplain : stopInv (stop_then c (release s))).
  { apply stopInv_stop_then. now apply (midStop_release s (Waiting n)). }
  destruct (mediaRecorderRef s) as [[|]|]; try exact Hplain.
  assert (H0 : midStop (emit EvFinalSeal s) FinalSealCalled)
    by (now apply (midStop_emit _ _ (Waiting n))).
  pose proof (midStop_processLiveSegment now true _ _ H0) as H1.
  destruct (processLiveSegment now true (emit EvFinalSeal s)) as [s1 suspended].
  cbn [fst] in H1. destruct suspended.
  - apply (stopInv_mid _ FinalSealCalled).
    + revert H1. apply midStop_view. same_view.
    + destruct s1; exact I.
    + destruct H1 as (_ & _ & Hf & _). destruct s1; cbn in *. congruence.
  - apply stopInv_stop_then. now apply (midStop_release s1 FinalSealCalled).
Qed.

Lemma stopInv_stopLiveMode now c s :
  stopInv s -> stopTask s = StopScheduled c -> stopInv (stopLiveMode now c s).
Proof.
  intros ([p [Hp Ha]] & H2 & H3 & H4 & H5) Htask. unfold stopLiveMode.
  rewrite Htask in Ha. destruct p; try contradiction.
  set (s2 := match liveAnimationRef (s <| liveModeActiveRef := false |>) with
             | Some h => _ | None => _ end).
  assert (Hm : midStop (emit EvStopBegin s2) (Waiting 0)).
  { apply (midStop_emit _ _ NotStopped); [reflexivity|].
    subst s2. unfold midStop, cancelAnimationFrame.
    destruct s; cbn in *. subst.
    assert (Hl : liveMode0 = false)
      by (destruct liveMode0; [discriminate (H5 eq_refl) | reflexivity]).
    destruct liveAnimationRef0 as [h|]; cbn.
    - destruct pendingFrame0 as [q|]; cbn.
      + destruct (H3 q eq_refl) as [E Hq]. injection E as ->.
        apply Nat.eqb_neq in Hq. rewrite Hq. cbn. rewrite Nat.eqb_refl. cbn.
        repeat split; assumption.
      + destruct (h =? 0); cbn; repeat split; assumption.
    - destruct pendingFrame0 as [q|]; cbn.
      + destruct (H3 q eq_refl) as [E _]. discriminate.
      + repeat split; assumption. }
  clearbody s2.
  destruct (isProcessingSegmentRef (emit EvStopBegin s2)).
  - apply (stopInv_mid _ (Waiting 0)).
    + revert Hm. apply midStop_view. same_view.
    + generalize (emit EvStopBegin s2). intros s'. destruct s'; cbn. lia.
    + destruct Hm as (_ & _ & Hf & _). revert Hf.
      generalize (emit EvStopBegin s2). intros s'. destruct s'; cbn. congruence.
  - now apply (stopInv_stop_final now c _ 0).
Qed.

Lemma stopInv_stop_wait now c n s :
  stopInv s -> stopTask s = StopWaiting c n -> stopInv (stop_wait now c n s).
Proof.
  intros H Htask. unfold stop_wait.
  destruct (midStop_of_inv s H) as (p & Hm & Hag); [now rewrite Htask|].
  rewrite Htask in Hag. destruct p; try contradiction. destruct Hag as [<- Hn].
  assert (H1 : midStop (emit EvStopPoll s) (Waiting (S n))).
  { apply (midStop_emit _ _ (Waiting n)); [|exact Hm].
    change (nextPhase (Waiting n) EvStopPoll)
      with (if n <? 50 then Some (Waiting (S n)) else None).
    apply Nat.ltb_lt in Hn. now rewrite Hn. }
  destruct (isProcessingSegmentRef (emit EvStopPoll s) && (S n <? 50)) eqn:Hc.
  - apply andb_true_iff in Hc as [_ Hc]. apply Nat.ltb_lt in Hc.
    apply (stopInv_mid _ (Waiting (S n))).
    + revert H1. apply midStop_view. same_view.
    + generalize (emit EvStopPoll s). intros s'. destruct s'; cbn. lia.
    + destruct H1 as (_ & _ & Hf & _). revert Hf.
      generalize (emit EvStopPoll s). intros s'. destruct s'; cbn. congruence.
  - now apply (stopInv_stop_final now c _ (S n)).
Qed.

Lemma stopInv_toggleLiveMode_stop s :
  stopInv s -> liveMode s = true -> stopInv (toggleLiveMode_stop s).
Proof.
  unfold stopInv, toggleLiveMode_stop.
  intros ([p [Hp Ha]] & H2 & H3 & H4 & H5) Hl. rewrite (H5 Hl) in Ha.
  destruct p; try contradiction. destruct s; cbn in *.
  repeat split; eauto; try discriminate; apply H3; assumption.
Qed.

Lemma stopInv_final_save c s :
  stopInv s -> stopTask s = FinalDelay c -> stopInv (final_save c s).
Proof.
  intros H Htask. unfold final_save.
  destruct (midStop_of_inv s H) as (p & Hm & Hag); [now rewrite Htask|].
  rewrite Htask in Hag. destruct p; try contradiction.
  destruct (truthy (or_else (currentProjectRef s) [])).
  - apply (stopInv_mid _ Persisted).
    + apply (midStop_emit _ _ Drained); [reflexivity|].
      revert Hm. apply midStop_view. same_view.
    + destruct s; exact I.
    + destruct Hm as (_ & _ & Hf & _). destruct s; cbn in *. congruence.
  - apply (stopInv_mid _ Done).
    + apply (midStop_emit _ _ Drained); [reflexivity|].
      revert Hm. apply midStop_view. same_view.
    + destruct s; exact I.
    + destruct Hm as (_ & _ & Hf & _). destruct s; cbn in *. congruence.
Qed.

Lemma stopInv_persistDone s :
  stopInv s -> stopTask s = Persisting ->
  stopInv (emit EvSettled (s <| stopTask := Settled |>)).
Proof.
  intros H Htask.
  destruct (midStop_of_inv s H) as (p & Hm & Hag); [now rewrite Htask|].
  rewrite Htask in Hag. destruct p; try contradiction.
  apply (stopInv_mid _ Done).
  - apply (midStop_emit _ _ Persisted); [reflexivity|].
    revert Hm. apply midStop_view. same_view.
  - destruct s; exact I.
  - destruct Hm as (_ & _ & Hf & _). destruct s; cbn in *. congruence.
Qed.

Lemma stopInv_drainCheck c s :
  stopInv s -> stopTask s = Draining c ->
  (List.length (transcriptionQueueRef s) =? 0) && negb (isTranscribingRef s) = true ->
  stopInv (after_drain c s).
Proof.
  intros H Htask Hc. apply andb_true_iff in Hc as [Hq Ht].
  apply negb_true_iff in Ht.
  destruct (midStop_of_inv s H) as (p & Hm & Hag); [now rewrite Htask|].
  rewrite Htask in Hag. destruct p; try contradiction.
  apply (stopInv_after_drain c s AwaitingDrain); auto.
  destruct (transcriptionQueueRef s); [reflexivity | discriminate].
Qed.

Lemma stopInv_not_begun s :
  stopInv s -> liveModeActiveRef s = true ->
  phaseOf (trace s) = Some NotStopped /\ stopBegun (stopTask s) = false.
Proof.
  intros ([p [Hp Ha]] & H2 & _) Hact.
  destruct (stopBegun (stopTask s)) eqn:Hb.
  - destruct (H2 eq_refl) as [E _]. congruence.
  - split; [|reflexivity]. rewrite Hp. f_equal.
    destruct (stopTask s), p; try contradiction; try discriminate; reflexivity.
Qed.

Lemma stopInv_vadTrigger now s :
  stopInv s -> liveModeActiveRef s = true -> stopInv (emit (EvVadTrigger now) s).
Proof.
  intros H Hact. destruct (stopInv_not_begun s H Hact) as [Hp Hb].
  destruct H as ([p [Hp' Ha]] & H2 & H3 & H4 & H5).
  rewrite Hp in Hp'. injection Hp' as <-.
  unfold stopInv, emit. destruct s; cbn in *.
  rewrite phaseOf_snoc, Hp. cbn. eauto 10.
Qed.

Lemma stopInv_requestAnimationFrame s :
  stopInv s -> liveModeActiveRef s = true -> stopInv (requestAnimationFrame s).
Proof.
  intros H Hact. destruct (stopInv_not_begun s H Hact) as [Hp Hb].
  destruct H as (H1 & H2 & H3 & H4 & H5).
  unfold stopInv, requestAnimationFrame. destruct s; cbn in *.
  split; [exact H1|]. split; [intros; congruence|].
  split; [|split; [discriminate | exact H5]].
  intros h E. unfold RecordSetters.constant in E. injection E as <-.
  split; [reflexivity | exact H4].
Qed.

Lemma liveModeActive_processLiveSegment now a s :
  liveModeActiveRef (fst (processLiveSegment now a s)) = liveModeActiveRef s.
Proof.
  unfold processLiveSegment.
  destruct (isProcessingSegmentRef s); [reflexivity|].
  destruct (negb (isSome (mediaRecorderRef s)) || negb (recordingStreamRef s));
    [reflexivity|].
  destruct (mediaRecorderRef s) as [[|]|]; destruct s; reflexivity.
Qed.

Lemma stopInv_checkVoiceActivity settings now d s :
  stopInv s -> pendingFrame s = None ->
  stopInv (checkVoiceActivity settings now d s).
Proof.
  intros H Hpend. unfold checkVoiceActivity.
  destruct (liveModeActiveRef s) eqn:Hact; cbn [negb].
  2:{ revert H. apply stopInv_view. same_view. }
  set (s1 := if isSilent d then _ else _).
  assert (H1 : stopInv s1 /\ liveModeActiveRef s1 = true).
  { subst s1. unfold resetSilence.
    assert (Hreset : stopInv (s <| silenceStartRef := None |>
                                <| silenceCountdown := None |>)
                     /\ liveModeActiveRef (s <| silenceStartRef := None |>
                                             <| silenceCountdown := None |>) = true).
    { split; [revert H; apply stopInv_view; same_view|].
      destruct s; exact Hact. }
    destruct (isSilent d); [|exact Hreset].
    destruct (minChunksForSegment <=? List.length (audioChunksRef s));
      [|exact Hreset].
    destruct (silenceStartRef s) as [since|].
    - set (s0 := s <| silenceCountdown := _ |>).
      assert (H0 : stopInv s0 /\ liveModeActiveRef s0 = true).
      { split; [revert H; apply stopInv_view; subst s0; same_view|].
        subst s0. destruct s; exact Hact. }
      clearbody s0. destruct H0 as [H0 Hact0].
      destruct ((silenceDuration settings <? now - since)%Z
                && negb (isProcessingSegmentRef s0)); [|now split].
      set (s2 := s0 <| silenceStartRef := None |> <| silenceCountdown := None |>).
      assert (H2 : stopInv s2 /\ liveModeActiveRef s2 = true).
      { split; [revert H0; apply stopInv_view; subst s2; same_view|].
        subst s2. destruct s0; exact Hact0. }
      clearbody s2. destruct H2 as [H2 Hact2].
      split.
      + apply stopInv_processLiveSegment. now apply stopInv_vadTrigger.
      + rewrite liveModeActive_processLiveSegment. destruct s2; exact Hact2.
    - split; [revert H; apply stopInv_view; same_view|]. destruct s; exact Hact. }
  clearbody s1. destruct H1 as [H1 Hact1]. rewrite Hact1.
  now apply stopInv_requestAnimationFrame.
Qed.

Lemma stopInv_enqueueSegment i blob index start path a s :
  stopInv s -> stopInv (enqueueSegment i blob index start path a s).
Proof.
  intros H. unfold enqueueSegment. apply stopInv_finish_seal.
  apply stopInv_emit; [apply neutral_events|].
  revert H. apply stopInv_view.
  destruct (isTranscribingRef _); same_view.
Qed.

Lemma stopInv_seal_onstop i chunks start a s :
  stopInv s -> stopInv (seal_onstop i chunks start a s).
Proof.
  intros H. unfold seal_onstop.
  set (blob := new_Blob _).
  set (s3 := _ <| isProcessingSegmentRef := false |>).
  assert (H3 : stopInv s3).
  { subst s3.
    assert (H1 : stopInv (emit (EvSealed blob) (s <| audioChunksRef := [] |>))).
    { apply stopInv_emit; [apply neutral_events|].
      revert H. apply stopInv_view. same_view. }
    revert H1. generalize (emit (EvSealed blob) (s <| audioChunksRef := [] |>)).
    intros s1 H1. revert H1. apply stopInv_view.
    destruct (liveModeActiveRef s1 && recordingStreamRef s1); same_view. }
  clearbody s3 blob.
  destruct (size blob <? 1000).
  - apply stopInv_finish_seal, stopInv_emit; [apply neutral_events|].
    revert H3. apply stopInv_view. same_view.
  - destruct (truthy (or_else (currentProjectRef s3) [])).
    + apply stopInv_emit; [apply neutral_events|].
      revert H3. apply stopInv_view. same_view.
    + now apply stopInv_enqueueSegment.
Qed.

Lemma stopView_worker_loop s : stopView (worker_loop s) = stopView s.
Proof. unfold worker_loop. destruct (transcriptionQueueRef s); same_view. Qed.

Lemma stopView_processTranscriptionQueue s :
  stopView (processTranscriptionQueue s) = stopView s.
Proof.
  unfold processTranscriptionQueue.
  destruct (isTranscribingRef s); [reflexivity|].
  destruct (transcriptionQueueRef s); [reflexivity|].
  rewrite stopView_worker_loop. reflexivity.
Qed.

Lemma stopView_worker_shift s : stopView (worker_shift s) = stopView s.
Proof.
  unfold worker_shift. destruct (transcriptionQueueRef s); reflexivity.
Qed.

Lemma stopInv_exec settings a s s' :
  stopInv s -> exec settings a s = Some s' -> stopInv s'.
Proof.
  intros H Hex. destruct a; cbn [exec] in Hex.
  - (* Frame *)
    destruct (pendingFrame s) eqn:Hp; [|discriminate]. injection Hex as <-.
    apply stopInv_checkVoiceActivity; [|destruct s; reflexivity].
    destruct H as (H1 & H2 & H3 & H4 & H5). unfold stopInv.
    destruct s; cbn in *. repeat split; auto; try discriminate; now apply H2.
  - (* DataAvailable *)
    destruct (mediaRecorderRef s) as [st|]; [|discriminate].
    destruct (match st with recording => true | inactive => sealStopPending s end);
      [|discriminate].
    injection Hex as <-. destruct (0 <? size data); [|exact H].
    revert H. apply stopInv_view. same_view.
  - (* RecorderStopped *)
    destruct (nth_error (seals s) i) as [[chunks start a | ]|]; try discriminate.
    injection Hex as <-. now apply stopInv_seal_onstop.
  - (* AudioSaved *)
    destruct (nth_error (seals s) i) as [[| blob index start a]|]; try discriminate.
    injection Hex as <-. now apply stopInv_enqueueSegment.
  - (* WorkerTimer *)
    destruct (workerTimers s) as [|n]; [discriminate|]. injection Hex as <-.
    revert H. apply stopInv_view.
    rewrite stopView_processTranscriptionQueue. reflexivity.
  - (* WorkerResume *)
    destruct (worker s); try discriminate. injection Hex as <-.
    revert H. apply stopInv_view. now rewrite stopView_worker_shift.
  - (* SttDone *)
    destruct (worker s) as [| |item|]; try discriminate. injection Hex as <-.
    unfold worker_reply.
    assert (H1 : stopInv (emit (EvReplied item reply) s))
      by (apply stopInv_emit; [apply neutral_events | exact H]).
    revert H1. generalize (emit (EvReplied item reply) s). intros s1.
    apply stopInv_view.
    destruct (transcribeItem settings reply);
      rewrite ?stopView_worker_loop; reflexivity.
  - (* WorkerNext *)
    destruct (worker s); try discriminate. injection Hex as <-.
    revert H. apply stopInv_view. now rewrite stopView_worker_loop.
  - (* ClickStop *)
    destruct (liveMode s) eqn:Hl; [|discriminate]. injection Hex as <-.
    now apply stopInv_toggleLiveMode_stop.
  - (* StopTimer *)
    destruct (stopTask s) eqn:Ht; try discriminate. injection Hex as <-.
    now apply stopInv_stopLiveMode.
  - (* StopWaitTick *)
    destruct (stopTask s) eqn:Ht; try discriminate. injection Hex as <-.
    now apply stopInv_stop_wait.
  - (* DrainCheck *)
    destruct (stopTask s) eqn:Ht; try discriminate.
    destruct ((List.length (transcriptionQueueRef s) =? 0)
              && negb (isTranscribingRef s)) eqn:Hc;
      injection Hex as <-; [|exact H].
    now apply stopInv_drainCheck.
  - (* FinalDelayOver *)
    destruct (stopTask s) eqn:Ht; try discriminate. injection Hex as <-.
    now apply stopInv_final_save.
  - (* PersistDone *)
    destruct (stopTask s) eqn:Ht; try discriminate. injection Hex as <-.
    now apply stopInv_persistDone.
Qed.

Lemma stopInv_run settings acts : forall s s',
  stopInv s -> run settings acts s = Some s' -> stopInv s'.
Proof.
  induction acts as [|a acts IH]; intros s s' H Hrun; cbn [run] in Hrun.
  - now injection Hrun as <-.
  - destruct (exec settings a s) as [s1|] eqn:Hex; [|discriminate].
    eauto using stopInv_exec.
Qed.

Lemma stopInv_start s : beforeStop s -> stopInv s.
Proof.
  intros (Ht & Hs & H3 & H4). unfold stopInv. rewrite Ht, Hs.
  repeat split; auto; try discriminate; try (now apply H3).
  exists NotStopped. split; [reflexivity | exact I].
Qed.

(* ------------------------------------------------------------------ *)
(** *** Histories the stop machine accepts *)

Lemma repeat_snoc {A} (x : A) n : repeat x n ++ [x] = repeat x (S n).
Proof. induction n as [|n IH]; simpl; [reflexivity | now rewrite IH]. Qed.

Ltac list_eq :=
  cbn [app repeat optionalEvent]; rewrite ?app_nil_r, <- ?app_assoc;
  cbn [app]; try reflexivity.

Lemma shape_step p q l e :
  shape p l -> nextPhase p e = Some q ->
  shape q (l ++ if isOrderEvent e then [e] else []).
Proof.
  intros Hs Hn.
  destruct e; cbn [isOrderEvent];
    try (destruct p; cbn in Hn; injection Hn as <-; now rewrite app_nil_r);
    try match type of Hn with
        | nextPhase _ (EvDrained ?a ?b) = _ => destruct a; destruct b
        end;
    destruct p; cbn in Hn; try discriminate.
  all: unfold shape, untilDrained, untilFinalSeal in *.
  - (* a trigger while recording *)
    injection Hn as <-. rewrite forallb_app, Hs. reflexivity.
  - (* stop begins *)
    injection Hn as <-. exists l. split; [exact Hs | split; [lia | list_eq]].
  - (* one more wait *)
    destruct Hs as (tr & Htr & Hp & ->).
    destruct (polls <=? 49) eqn:Hlt; [|discriminate]. injection Hn as <-.
    apply Nat.leb_le in Hlt. exists tr. split; [exact Htr | split; [lia|]].
    rewrite <- repeat_snoc. list_eq.
  - (* the final seal *)
    destruct Hs as (tr & Htr & Hp & ->). injection Hn as <-.
    exists tr, polls. split; [exact Htr | split; [exact Hp | list_eq]].
  - (* release without a final seal *)
    destruct Hs as (tr & Htr & Hp & ->). injection Hn as <-.
    exists tr, polls, false. split; [exact Htr | split; [exact Hp | list_eq]].
  - (* release after the final seal *)
    destruct Hs as (tr & n & Htr & Hp & ->). injection Hn as <-.
    exists tr, n, true. split; [exact Htr | split; [exact Hp | list_eq]].
  - (* the queue is busy *)
    destruct Hs as (tr & n & sealed & Htr & Hp & ->). injection Hn as <-.
    exists tr, n, sealed, queueLength.
    split; [exact Htr | split; [exact Hp | list_eq]].
  - (* drained at once *)
    destruct Hs as (tr & n & sealed & Htr & Hp & ->).
    injection Hn as <-. exists tr, n, sealed, None.
    split; [exact Htr | split; [exact Hp | list_eq]].
  - (* drained after waiting *)
    destruct Hs as (tr & n & sealed & q0 & Htr & Hp & ->).
    injection Hn as <-. exists tr, n, sealed, (Some q0).
    split; [exact Htr | split; [exact Hp | list_eq]].
  - (* the final write *)
    destruct Hs as (tr & n & sealed & waited & Htr & Hp & ->). injection Hn as <-.
    exists tr, n, sealed, waited, audioFiles.
    split; [exact Htr | split; [exact Hp | list_eq]].
  - (* settled without a project *)
    destruct Hs as (tr & n & sealed & waited & Htr & Hp & ->). injection Hn as <-.
    exists tr, n, sealed, waited, None.
    split; [exact Htr | split; [exact Hp | list_eq]].
  - (* settled after the write *)
    destruct Hs as (tr & n & sealed & waited & files & Htr & Hp & ->).
    injection Hn as <-. exists tr, n, sealed, waited, (Some files).
    split; [exact Htr | split; [exact Hp | list_eq]].
Qed.

Lemma accepted_shape t : forall p,
  phaseOf t = Some p -> shape p (orderEvents t).
Proof.
  induction t as [|e t IH] using rev_ind; intros p Hp.
  - injection Hp as <-. reflexivity.
  - rewrite phaseOf_snoc in Hp. destruct (phaseOf t) as [p0|]; [|discriminate].
    unfold orderEvents. rewrite filter_app. cbn [filter].
    apply (shape_step p0); [now apply IH | exact Hp].
Qed.

(* ------------------------------------------------------------------ *)
(** *** The stop sequence *)

Lemma stop_final_recording now c s :
  mediaRecorderRef s = Some recording ->
  isProcessingSegmentRef s = false ->
  recordingStreamRef s = true ->
  let s' := stop_final now c s in
  stopTask s' = StopSealing c
  /\ seals s' = seals s ++ [AwaitStop (audioChunksRef s)
                              (seconds_since now (recordingStartTimeRef s)) true]
  /\ trace s' = trace s ++ [EvFinalSeal;
                            EvRecorderStop
                              (seconds_since now (recordingStartTimeRef s))].
Proof.
  intros Hr Hl Hs. unfold stop_final, processLiveSegment, emit.
  rewrite Hr. destruct s; cbn in *. subst. cbn.
  rewrite <- app_assoc. repeat split.
Qed.

Lemma stop_final_not_recording now c s :
  mediaRecorderRef s <> Some recording ->
  stop_final now c s = stop_then c (release s).
Proof.
  intros Hr. unfold stop_final.
  destruct (mediaRecorderRef s) as [[|]|]; [contradiction | reflexivity ..].
Qed.

(** C1 (as the code has it). In every run the stop sequence keeps its
    order: first the session is marked inactive and the loop's frame
    cancelled, after which no frame can fire and no seal is triggered;
    then at most 50 waits of 100 ms for a seal in flight; then, if the
    recorder is still recording, one call of [processLiveSegment], awaited
    (with an inactive recorder the call is not made); then the release of
    stream and analysis; then, if needed, the wait for the queue; then the
    queue seen empty and the worker idle; only then the final write (for a
    project) and the settled signal. *)
Theorem stop_sequence_order :
  forall settings s0 acts s,
    beforeStop s0 ->
    run settings acts s0 = Some s ->
    (exists p, agrees (stopTask s) p /\ shape p (orderEvents (trace s)))
    /\ (stopBegun (stopTask s) = true ->
        liveModeActiveRef s = false /\ pendingFrame s = None
        /\ forall now d, exec settings (Frame now d) s = None)
    /\ (stopTask s = Settled ->
        exists triggers polls sealed waited persisted,
          forallb isVadTrigger triggers = true /\ polls <= 50
          /\ orderEvents (trace s)
             = untilDrained triggers polls sealed waited
                 ++ optionalEvent EvPersist persisted ++ [EvSettled])
    /\ (forall now c s1,
          (mediaRecorderRef s1 = Some recording ->
           isProcessingSegmentRef s1 = false ->
           recordingStreamRef s1 = true ->
           stopTask (stop_final now c s1) = StopSealing c
           /\ seals (stop_final now c s1)
              = seals s1 ++ [AwaitStop (audioChunksRef s1)
                               (seconds_since now (recordingStartTimeRef s1))
                               true])
          /\ (mediaRecorderRef s1 <> Some recording ->
              stop_final now c s1 = stop_then c (release s1))).
Proof.
  intros settings s0 acts s H0 Hrun.
  pose proof (stopInv_run settings acts s0 s (stopInv_start s0 H0) Hrun)
    as ([p [Hp Ha]] & H2 & H3 & H4 & H5).
  pose proof (accepted_shape _ _ Hp) as Hshape.
  split; [now exists p|]. split; [|split].
  - intros Hb. destruct (H2 Hb) as [Hact Hpend]. repeat split; auto.
    intros now d. cbn [exec]. now rewrite Hpend.
  - intros Hs. rewrite Hs in Ha. destruct p; try contradiction. exact Hshape.
  - intros now c s1. split.
    + intros Hr Hl Hst.
      destruct (stop_final_recording now c s1 Hr Hl Hst) as (E1 & E2 & _).
      now split.
    + apply stop_final_not_recording.
Qed.

Lemma stop_sequence_order_witness :
  let s := stateAfter None stopWithFinalSeal projectSession in
  stopTask s = Settled
  /\ orderEvents (trace s)
     = [EvVadTrigger 4001; EvStopBegin; EvFinalSeal; EvRelease; EvDraining 1;
        EvDrained 0 false;
        EvPersist [js "audio/segment_0000.webm"]; EvSettled]
  /\ exists triggers polls sealed waited persisted,
       forallb isVadTrigger triggers = true /\ polls <= 50
       /\ orderEvents (trace s)
          = untilDrained triggers polls sealed waited
              ++ optionalEvent EvPersist persisted ++ [EvSettled].
Proof.
  split; [vm_compute; reflexivity|]. split; [vm_compute; reflexivity|].
  refine (proj1 (proj2 (proj2
            (stop_sequence_order None projectSession stopWithFinalSeal _ _ _))) _).
  - unfold beforeStop. split; [reflexivity|]. split; [reflexivity|].
    split; [|discriminate].
    intros h E. vm_compute in E. injection E as <-.
    split; [reflexivity | discriminate].
  - vm_compute. reflexivity.
  - vm_compute. reflexivity.
Defined.

(** C1 as claimed does not hold: a stop that finds the recorder already
    stopped by a seal in flight settles without any final seal. *)
Lemma stop_without_final_seal :
  let s := stateAfter None stopDuringSeal freshSession in
  stopTask s = Settled
  /\ ~ In EvFinalSeal (trace s)
  /\ orderEvents (trace s)
     = [EvVadTrigger 4001; EvStopBegin; EvStopPoll; EvRelease; EvDraining 1;
        EvDrained 0 false; EvSettled]
  /\ List.length (segments s) = 1.
Proof.
  cbv zeta. split; [vm_compute; reflexivity|]. split; [|split].
  - assert (E : existsb (fun e => match e with EvFinalSeal => true | _ => false end)
                   (trace (stateAfter None stopDuringSeal freshSession)) = false)
      by (vm_compute; reflexivity).
    intros Hin. apply Bool.not_true_iff_false in E. apply E.
    apply existsb_exists. exists EvFinalSeal. split; [exact Hin | reflexivity].
  - vm_compute. reflexivity.
  - vm_compute. reflexivity.
Qed.

(* ------------------------------------------------------------------ *)
(** *** Small blobs, and the index of a segment *)

Lemma queueView_finish_seal a s : queueView (finish_seal a s) = queueView s.
Proof.
  unfold finish_seal. destruct a; [|reflexivity].
  destruct (stopTask s); try reflexivity.
  unfold stop_then, after_drain, release, emit.
  match goal with |- context [if ?c then _ else _] => destruct c end;
    destruct s; unfold queueView, enqueued, savedIndices; cbn;
    rewrite !flat_map_app; cbn; rewrite !app_nil_r; reflexivity.
Qed.

(** C6. A sealed blob under 1000 bytes is dropped when the recorder has
    stopped: nothing is queued, no audio file is saved, no index is taken
    and no worker is started; an index is taken exactly when an item is
    queued.  But the index is read before the save is awaited and taken
    after it, with the lock already released: when the final seal of a
    stop is built while an earlier blob is still being saved, both items
    are queued, and saved, under the same index. *)
Theorem small_blob_discarded_index_reused :
  (forall i chunks start awaited s,
      size (new_Blob (chunks ++ skipn (List.length chunks) (audioChunksRef s)))
        < 1000 ->
      let s' := seal_onstop i chunks start awaited s in
      transcriptionQueueRef s' = transcriptionQueueRef s
      /\ liveAudioBlobsRef s' = liveAudioBlobsRef s
      /\ segments s' = segments s
      /\ enqueued (trace s') = enqueued (trace s)
      /\ savedIndices (trace s') = savedIndices (trace s)
      /\ workerTimers s' = workerTimers s
      /\ seals s' = remove_nth i (seals s))
  /\ (forall i blob index start path awaited s,
        let s' := enqueueSegment i blob index start path awaited s in
        List.length (liveAudioBlobsRef s') = S (List.length (liveAudioBlobsRef s))
        /\ transcriptionQueueRef s'
           = transcriptionQueueRef s
               ++ [{| audioBlob := blob; segmentIndex := index;
                      startTime := start; audioFilePath := path |}])
  /\ (let s := stateAfter None overlappingSeals projectSession in
      map segmentIndex (transcriptionQueueRef s) = [0; 0]
      /\ savedIndices (trace s) = [0; 0]
      /\ List.length (liveAudioBlobsRef s) = 2).
Proof.
  split; [|split].
  - intros i chunks start awaited s Hsmall. cbv zeta. unfold seal_onstop.
    apply Nat.ltb_lt in Hsmall. rewrite Hsmall.
    match goal with |- context [finish_seal awaited ?x] =>
      pose proof (queueView_finish_seal awaited x) as E;
      set (s' := finish_seal awaited x) in *
    end.
    assert (E' : queueView s' =
                 (transcriptionQueueRef s, liveAudioBlobsRef s, segments s,
                  enqueued (trace s), savedIndices (trace s), workerTimers s,
                  remove_nth i (seals s))).
    { rewrite E. clear. unfold emit.
      match goal with |- context [if ?c then _ else _] => destruct c end;
        destruct s; unfold queueView, enqueued, savedIndices; cbn;
        rewrite !flat_map_app; cbn; rewrite !app_nil_r; reflexivity. }
    clearbody s'. unfold queueView in E'. injection E' as -> -> -> -> -> -> ->.
    repeat split.
  - intros i blob index start path awaited s. cbv zeta. unfold enqueueSegment.
    match goal with |- context [finish_seal awaited ?x] =>
      pose proof (queueView_finish_seal awaited x) as E;
      set (s' := finish_seal awaited x) in *
    end.
    unfold queueView in E. injection E as E1 E2 _.
    rewrite E1, E2. clear. unfold emit.
    match goal with |- context [if ?c then _ else _] => destruct c end;
      destruct s; cbn; rewrite length_app; cbn; split; try reflexivity; lia.
  - vm_compute. repeat split.
Qed.

Lemma small_blob_discarded_index_reused_witness :
  let chunks := repeat (repeat Byte.x00 10) 15 in
  let start := seconds_since 4001 0 in
  let s' := seal_onstop 0 chunks start false smallSeal in
  seals smallSeal = [AwaitStop chunks start false]
  /\ size (new_Blob (chunks ++ skipn (List.length chunks) (audioChunksRef smallSeal)))
     = 150
  /\ transcriptionQueueRef s' = []
  /\ liveAudioBlobsRef s' = []
  /\ savedIndices (trace s') = []
  /\ seals s' = [].
Proof.
  cbv zeta.
  destruct small_blob_discarded_index_reused as [Hsmall _].
  specialize (Hsmall 0 (repeat (repeat Byte.x00 10) 15) (seconds_since 4001 0)
                false smallSeal).
  assert (Hsize : size (new_Blob (repeat (repeat Byte.x00 10) 15
            ++ skipn (List.length (repeat (repeat Byte.x00 10) 15))
                 (audioChunksRef smallSeal))) = 150)
    by (vm_compute; reflexivity).
  assert (Hlt : size (new_Blob (repeat (repeat Byte.x00 10) 15
            ++ skipn (List.length (repeat (repeat Byte.x00 10) 15))
                 (audioChunksRef smallSeal))) < 1000)
    by (rewrite Hsize; lia).
  specialize (Hsmall Hlt). cbv zeta in Hsmall.
  destruct Hsmall as (Hq & Hb & _ & _ & Hi & _ & Hs).
  split; [vm_compute; reflexivity|].
  split; [exact Hsize|].
  split; [rewrite Hq; vm_compute; reflexivity|].
  split; [rewrite Hb; vm_compute; reflexivity|].
  split; [rewrite Hi; vm_compute; reflexivity|].
  rewrite Hs. vm_compute. reflexivity.
Defined.

(* ------------------------------------------------------------------ *)
(** *** The end-to-end scenario *)



(* ------------------------------------------------------------------ *)
(** *** Texts and tags *)

Lemma length_replaceAll_from_nil r s : forall skip,
  List.length (replaceAll_from r [] skip s) <= List.length s.
Proof.
  induction s as [|c s IH]; intros skip; cbn [replaceAll_from].
  - destruct skip; [destruct (match_at r [])|]; cbn; lia.
  - destruct skip as [|k].
    + destruct (match_at r (c :: s)) as [rest|].
      * destruct (List.length (c :: s) - List.length rest) as [|k].
        -- cbn. specialize (IH 0). lia.
        -- cbn. specialize (IH k). lia.
      * cbn. specialize (IH 0). lia.
    + specialize (IH k). cbn. lia.
Qed.

Lemma length_collapse s : forall b, List.length (collapse b s) <= List.length s.
Proof.
  induction s as [|c s IH]; intros b; cbn; [lia|].
  destruct (isWhiteSpace c); [destruct b|]; cbn;
    [specialize (IH true)|specialize (IH true)|specialize (IH false)]; lia.
Qed.

Lemma length_dropWhile {A} (p : A -> bool) l :
  List.length (dropWhile p l) <= List.length l.
Proof.
  induction l as [|x l IH]; cbn; [lia|]. destruct (p x); cbn; lia.
Qed.

Lemma length_trim s : List.length (trim s) <= List.length s.
Proof.
  unfold trim. rewrite length_rev.
  etransitivity; [apply length_dropWhile|].
  rewrite length_rev. apply length_dropWhile.
Qed.

Lemma length_strip_patterns ps : forall t,
  List.length (fold_left (fun acc pattern => replaceAll pattern [] acc) ps t)
  <= List.length t.
Proof.
  induction ps as [|p ps IH]; intros t; cbn [fold_left]; [lia|].
  etransitivity; [apply IH|]. apply length_replaceAll_from_nil.
Qed.

(** X1. Stripping tags never makes a text longer, in either mode. *)
Theorem filter_never_lengthens text preserveWhitespace :
  List.length (filterNonSpeechTags text preserveWhitespace) <= List.length text.
Proof.
  unfold filterNonSpeechTags.
  pose proof (length_strip_patterns nonSpeechTagPatterns text) as H.
  destruct preserveWhitespace; [exact H|].
  etransitivity; [apply length_trim|].
  unfold replaceAll.
  rewrite (proj1 (replace_whiteSpaceRun _)).
  etransitivity; [apply length_collapse|exact H].
Qed.

Lemma canonicalize_tagStart c x :
  isTagStart c = true -> isTagStart x = false ->
  (canonicalize c =? canonicalize x)%N = false.
Proof.
  unfold isTagStart, canonicalize. intros Hc Hx.
  apply N.eqb_neq.
  rewrite !orb_true_iff, !N.eqb_eq in Hc.
  rewrite !orb_false_iff, !N.eqb_neq in Hx.
  destruct Hx as [[H1 H2] H3].
  repeat match goal with
         | |- context [if ?b then _ else _] => destruct b eqn:?
         end;
    repeat match goal with
           | H : (_ && _) = true |- _ => apply andb_true_iff in H as [? ?]
           | H : (_ <=? _)%N = true |- _ => apply N.leb_le in H
           | H : negb _ = true |- _ => apply negb_true_iff in H
           | H : (_ =? _)%N = false |- _ => apply N.eqb_neq in H
           end;
    lia.
Qed.

Lemma no_match_without_tagStart r s :
  startsWithTagChar r = true ->
  match s with [] => True | x :: _ => isTagStart x = false end ->
  match_at r s = None.
Proof.
  unfold startsWithTagChar. intros Hr Hs.
  destruct r as [|[a mn mx] r]; [discriminate|].
  destruct a as [c| |]; try discriminate.
  destruct mn as [|[|mn]]; try discriminate.
  destruct mx as [[|[|mx]]|]; try discriminate.
  cbn [match_at p_atom p_min p_max].
  destruct s as [|x s]; [reflexivity|].
  cbn [repeat_atom atom_matches].
  rewrite (canonicalize_tagStart c x Hr Hs). reflexivity.
Qed.

Lemma replaceAll_without_tagStart r repl s :
  startsWithTagChar r = true ->
  Forall (fun x => isTagStart x = false) s ->
  replaceAll r repl s = s.
Proof.
  intros Hr. unfold replaceAll.
  induction 1 as [|x s Hx Hs IH]; cbn [replaceAll_from].
  - now rewrite (no_match_without_tagStart r [] Hr I).
  - rewrite (no_match_without_tagStart r (x :: s) Hr Hx). now rewrite IH.
Qed.

Lemma strip_without_tagStart ps s :
  forallb startsWithTagChar ps = true ->
  Forall (fun x => isTagStart x = false) s ->
  fold_left (fun acc pattern => replaceAll pattern [] acc) ps s = s.
Proof.
  intros Hps Hs. induction ps as [|p ps IH]; [reflexivity|].
  cbn in Hps. apply andb_true_iff in Hps as [Hp Hps].
  cbn [fold_left]. rewrite (replaceAll_without_tagStart p [] s Hp Hs).
  now apply IH.
Qed.

(** X2. A text with no bracket, no parenthesis and no asterisk carries no
    tag: in editing mode the filter returns it as it is, and in processing
    mode only its white space is normalised. *)
Theorem filter_keeps_text_without_tag_characters text :
  Forall (fun c => c <> 91%N /\ c <> 40%N /\ c <> 42%N) text ->
  filterNonSpeechTags text true = text
  /\ filterNonSpeechTags text false
     = trim (replaceAll whiteSpaceRun (js " ") text).
Proof.
  intros H.
  assert (Hs : Forall (fun x => isTagStart x = false) text).
  { eapply Forall_impl; [|exact H]. cbv beta. intros c (H1 & H2 & H3).
    unfold isTagStart. rewrite !orb_false_iff, !N.eqb_neq. auto. }
  assert (Hps : forallb startsWithTagChar nonSpeechTagPatterns = true)
    by (vm_compute; reflexivity).
  unfold filterNonSpeechTags.
  rewrite (strip_without_tagStart _ _ Hps Hs). split; reflexivity.
Qed.

Lemma filter_keeps_text_without_tag_characters_witness :
  filterNonSpeechTags (js "Hallo  Welt ") true = js "Hallo  Welt "
  /\ filterNonSpeechTags (js "Hallo  Welt ") false = js "Hallo Welt".
Proof.
  destruct (filter_keeps_text_without_tag_characters (js "Hallo  Welt "))
    as [H1 H2].
  - apply Forall_forall. intros c Hc.
    assert (Hb : forallb (fun c => negb (isTagStart c)) (js "Hallo  Welt ") = true)
      by (vm_compute; reflexivity).
    rewrite forallb_forall in Hb. specialize (Hb c Hc).
    apply negb_true_iff in Hb. unfold isTagStart in Hb.
    rewrite !orb_false_iff, !N.eqb_neq in Hb. tauto.
  - split; [exact H1|]. rewrite H2. vm_compute. reflexivity.
Defined.


Lemma canonicalize_not_bracket x :
  x <> 93%N -> (canonicalize 93 =? canonicalize x)%N = false.
Proof.
  intros Hx. apply N.eqb_neq. unfold canonicalize.
  repeat match goal with
         | |- context [if ?b then _ else _] => destruct b eqn:?
         end;
    repeat match goal with
           | H : (_ && _) = true |- _ => apply andb_true_iff in H as [? ?]
           | H : (_ <=? _)%N = true |- _ => apply N.leb_le in H
           | H : (_ && _) = false |- _ => clear H
           | H : negb _ = true |- _ => clear H
           end;
    try discriminate; lia.
Qed.

Lemma bracket_body inner : forall count,
  Forall (fun c => c <> 93%N) inner ->
  1 <= count + List.length inner <= 50 ->
  repeat_atom (NotLit 93) 1 (Some 50) (match_at (lits "]")) count
    (inner ++ [93%N]) = Some [].
Proof.
  induction inner as [|x inner IH]; intros count Hin Hlen.
  - cbn [app repeat_atom atom_matches].
    replace (canonicalize 93 =? canonicalize 93)%N with true
      by (symmetry; apply N.eqb_refl).
    cbn [negb andb]. cbn [List.length] in Hlen.
    replace (1 <=? count) with true by (symmetry; apply Nat.leb_le; lia).
    reflexivity.
  - inversion Hin as [|? ? Hx Hin']; subst.
    cbn [app repeat_atom atom_matches].
    rewrite (canonicalize_not_bracket x Hx). cbn [negb andb below].
    cbn [List.length] in Hlen.
    replace (count <? 50) with true by (symmetry; apply Nat.ltb_lt; lia).
    rewrite (IH (S count) Hin') by lia. reflexivity.
Qed.

Lemma one_literal_then c (k : jsstring -> option jsstring) body r :
  k body = Some r ->
  repeat_atom (Lit c) 1 (Some 1) k 0 (c :: body) = Some r.
Proof.
  intros Hk. cbn [repeat_atom atom_matches].
  rewrite N.eqb_refl. cbn [andb below Nat.ltb Nat.leb].
  destruct body as [|y rest]; cbn [repeat_atom below Nat.ltb Nat.leb].
  - now rewrite Hk.
  - rewrite andb_false_r. now rewrite Hk.
Qed.

Lemma skip_whole_text r s : replaceAll_from r [] (List.length s) s = [].
Proof.
  induction s as [|c s IH]; cbn [List.length replaceAll_from].
  - destruct (match_at r []); reflexivity.
  - exact IH.
Qed.

Lemma strip_empty ps :
  fold_left (fun acc pattern => replaceAll pattern [] acc) ps [] = [].
Proof.
  induction ps as [|p ps IH]; [reflexivity|]. cbn [fold_left].
  replace (replaceAll p [] []) with (@nil N); [exact IH|].
  unfold replaceAll. cbn. destruct (match_at p []); reflexivity.
Qed.

Lemma filter_bracket_tag inner :
  inner <> [] -> List.length inner <= 50 ->
  Forall (fun c => c <> 93%N) inner ->
  filterNonSpeechTags (91%N :: inner ++ [93%N]) false = [].
Proof.
  intros Hne Hlen Hin. unfold filterNonSpeechTags.
  change nonSpeechTagPatterns
    with ((lits "[" ++ [between (NotLit 93) 1 50] ++ lits "]")
            :: tl nonSpeechTagPatterns).
  cbn [fold_left].
  assert (E : replaceAll (lits "[" ++ [between (NotLit 93) 1 50] ++ lits "]") []
                (91%N :: inner ++ [93%N]) = []).
  { unfold replaceAll.
    change (lits "[" ++ [between (NotLit 93) 1 50] ++ lits "]")
      with (one (Lit 91) :: between (NotLit 93) 1 50 :: lits "]").
    assert (M : match_at (one (Lit 91) :: between (NotLit 93) 1 50 :: lits "]")
                  (91%N :: inner ++ [93%N]) = Some []).
    { change (match_at (one (Lit 91) :: between (NotLit 93) 1 50 :: lits "]")
                (91%N :: inner ++ [93%N]))
        with (repeat_atom (Lit 91) 1 (Some 1)
                (repeat_atom (NotLit 93) 1 (Some 50) (match_at (lits "]")) 0)
                0 (91%N :: inner ++ [93%N])).
      apply one_literal_then. apply bracket_body; [exact Hin|].
      destruct inner; [contradiction|]. cbn [List.length] in *. lia. }
    cbn [replaceAll_from]. rewrite M.
    cbn [List.length Nat.sub]. apply skip_whole_text. }
  rewrite E, strip_empty. reflexivity.
Qed.

(** X3. A segment whose text is nothing but one bracketed tag of 1 to 50
    characters has no speech left after filtering: the worker flags it as
    uncertain whatever its duration, and the tooltip gives the reason
    "Kaum oder kein erkannter Sprachinhalt.". *)
Theorem bracket_tag_alone_is_flagged inner item audioDuration :
  inner <> [] -> List.length inner <= 50 ->
  Forall (fun c => c <> 93%N) inner ->
  let segmentText := 91%N :: inner ++ [93%N] in
  filterNonSpeechTags segmentText false = []
  /\ isUncertain (newSegment item segmentText audioDuration) = Some true
  /\ getUncertainTooltip (newSegment item segmentText audioDuration)
     = js "Kaum oder kein erkannter Sprachinhalt.".
Proof.
  intros Hne Hlen Hin. cbv zeta.
  pose proof (filter_bracket_tag inner Hne Hlen Hin) as E.
  assert (U : classifyUncertain (91%N :: inner ++ [93%N]) audioDuration = true).
  { unfold classifyUncertain. rewrite E. reflexivity. }
  split; [exact E|]. split.
  - unfold newSegment. cbn [isUncertain]. now rewrite U.
  - unfold getUncertainTooltip, tooltipReasons, tooltipCore, newSegment.
    cbn [isUncertain text]. rewrite U, E. reflexivity.
Qed.

Lemma bracket_tag_alone_is_flagged_witness :
  filterNonSpeechTags (js "[Musik]") false = []
  /\ isUncertain (newSegment (sampleItem 0) (js "[Musik]") 2) = Some true
  /\ getUncertainTooltip (newSegment (sampleItem 0) (js "[Musik]") 2)
     = js "Kaum oder kein erkannter Sprachinhalt.".
Proof.
  apply (bracket_tag_alone_is_flagged (js "Musik") (sampleItem 0) 2).
  - discriminate.
  - vm_compute. lia.
  - apply Forall_forall. intros c Hc.
    assert (Hb : forallb (fun c => negb (c =? 93)%N) (js "Musik") = true)
      by (vm_compute; reflexivity).
    rewrite forallb_forall in Hb. specialize (Hb c Hc).
    apply negb_true_iff, N.eqb_neq in Hb. exact Hb.
Defined.


Lemma singleSpaced_only_spaces s : forall b c,
  singleSpaced b s = true -> In c s -> isWhiteSpace c = true -> c = 32%N.
Proof.
  induction s as [|x s IH]; intros b c Hs Hin Hw; [destruct Hin|].
  cbn in Hs. destruct Hin as [<-|Hin].
  - rewrite Hw in Hs. apply andb_true_iff in Hs as [Hs _].
    apply andb_true_iff in Hs as [Hs _]. now apply N.eqb_eq in Hs.
  - destruct (isWhiteSpace x).
    + apply andb_true_iff in Hs as [_ Hs]. eapply IH; eauto.
    + eapply IH; eauto.
Qed.

Lemma singleSpaced_no_double_space s : forall b,
  singleSpaced b s = true -> includes [32%N; 32%N] s = false.
Proof.
  induction s as [|x s IH]; intros b Hs; [reflexivity|].
  cbn [includes]. apply orb_false_iff. split.
  - cbn [startsWith]. destruct (32 =? x)%N eqn:Ex; [|reflexivity].
    apply N.eqb_eq in Ex. subst x. cbn in Hs.
    apply andb_true_iff in Hs as [_ Hs].
    destruct s as [|y s]; [reflexivity|]. cbn [andb startsWith].
    destruct (32 =? y)%N eqn:Ey; [|reflexivity].
    apply N.eqb_eq in Ey. subst y. cbn in Hs. discriminate.
  - cbn in Hs. destruct (isWhiteSpace x).
    + apply andb_true_iff in Hs as [_ Hs]. eapply IH; eauto.
    + eapply IH; eauto.
Qed.

Lemma dropWhile_word s : startsWithWord s -> dropWhile isWhiteSpace s = s.
Proof.
  destruct s as [|c s]; cbn; [contradiction|]. now intros ->.
Qed.

Lemma trim_fixed s :
  s = [] \/ (startsWithWord s /\ startsWithWord (rev s)) -> trim s = s.
Proof.
  intros [->|[H1 H2]]; [reflexivity|].
  unfold trim. rewrite (dropWhile_word s H1), (dropWhile_word _ H2).
  apply rev_involutive.
Qed.

Lemma trim_idempotent s : trim (trim s) = trim s.
Proof. apply trim_fixed, trim_shape. Qed.

(** X4. In processing mode the filtered text is in normal form: it has no
    white space at either end, every white-space character left is a plain
    space, and no two spaces are adjacent. *)
Theorem filtered_text_is_normalised text :
  let w := filterNonSpeechTags text false in
  trim w = w
  /\ (forall c, In c w -> isWhiteSpace c = true -> c = 32%N)
  /\ includes (js "  ") w = false.
Proof.
  cbv zeta. pose proof (filtered_shape text) as H. cbv zeta in H.
  destruct H as [Hs Hw]. split; [|split].
  - now apply trim_fixed.
  - intros c. now apply (singleSpaced_only_spaces _ false).
  - now apply (singleSpaced_no_double_space _ false).
Qed.

(* ------------------------------------------------------------------ *)
(** *** What the worker makes of an answer *)

Lemma nonEmptyResult_completed raw d t d' :
  nonEmptyResult (trim raw) d = Completed t d' ->
  t = trim raw /\ d' = d /\ 2 <= List.length t.
Proof.
  unfold nonEmptyResult.
  destruct (negb (truthy (trim raw)) || (List.length (trim raw) <? 2)) eqn:E;
    [discriminate|].
  intros [= <- <-]. apply orb_false_iff in E as [_ E].
  apply Nat.ltb_ge in E. auto.
Qed.

Lemma transcribeItem_completed settings reply t d :
  transcribeItem settings reply = Completed t d ->
  trim t = t /\ 2 <= List.length t /\ (1 # 2 <= d)%Q.
Proof.
  unfold transcribeItem.
  destruct (match settings with
            | Some st => jsstring_eqb (sttProvider st) (js "whisper-api")
            | None => false
            end).
  - destruct (r_duration reply) as [dur|]; [|discriminate].
    destruct (Qltb dur (1 # 2)) eqn:Ed; [discriminate|].
    match goal with |- context [if ?c then _ else _] => destruct c end;
      [discriminate|].
    destruct (r_fetch reply) as [res|]; [|discriminate].
    destruct (negb (res_ok res)).
    + destruct (res_json res); discriminate.
    + destruct (res_json res) as [data|]; [|discriminate].
      intros H. apply nonEmptyResult_completed in H as (-> & -> & Hl).
      split; [apply trim_idempotent|]. split; [exact Hl|].
      destruct (Qlt_le_dec dur (1 # 2)) as [Hlt|Hle]; [|exact Hle].
      apply Qltb_spec in Hlt. congruence.
  - destruct (r_samples reply) as [samples|]; [|discriminate].
    destruct (samples <? 8000)%N eqn:Es; [discriminate|].
    destruct (r_pipeline reply); [|discriminate].
    destruct (r_whisper reply) as [result|]; [|discriminate].
    intros H. apply nonEmptyResult_completed in H as (-> & -> & Hl).
    split; [apply trim_idempotent|]. split; [exact Hl|].
    apply N.ltb_ge in Es. unfold Qle. cbn. lia.
Qed.

Lemma newSegment_wellFormed item settings reply t d :
  transcribeItem settings reply = Completed t d ->
  wellFormedSegment (newSegment item t d).
Proof.
  intros H. apply transcribeItem_completed in H as (Ht & Hl & Hd).
  unfold wellFormedSegment, newSegment. cbn [text endTime seg_startTime].
  repeat split; auto.
  setoid_replace (startTime item + d - startTime item)%Q with d by ring.
  exact Hd.
Qed.

(** X5. Whatever the collaborator answers and however the steps
    interleave, every segment the worker adds has trimmed text of at least
    two characters and lasts at least half a second. *)
Theorem worker_segments_are_well_formed settings s0 acts s :
  quietWorker s0 ->
  run settings acts s0 = Some s ->
  exists added,
    segments s = segments s0 ++ added /\ Forall wellFormedSegment added.
Proof.
  intros Hq Hrun.
  pose proof (workerInv_run settings _ _ acts s0 s
                (workerInv_start settings s0 Hq) Hrun) as (_ & Hseg & _).
  eexists. split; [exact Hseg|].
  apply Forall_forall. intros seg Hin.
  apply in_flat_map in Hin as ((item & reply) & _ & Hin).
  unfold segmentsOf in Hin. cbn [fst snd] in Hin.
  destruct (transcribeItem settings reply) as [| |t d] eqn:E;
    try contradiction.
  destruct Hin as [<-|[]]. eapply newSegment_wellFormed; eauto.
Qed.


Lemma worker_segments_are_well_formed_witness :
  exists added,
    segments (stateAfter None threeSegmentsRun freshSession)
    = segments freshSession ++ added
    /\ Forall wellFormedSegment added.
Proof.
  apply (worker_segments_are_well_formed None freshSession threeSegmentsRun).
  - repeat split.
  - vm_compute. reflexivity.
Defined.

Lemma dropWhile_all_whiteSpace key :
  Forall (fun c => isWhiteSpace c = true) key -> dropWhile isWhiteSpace key = [].
Proof.
  induction 1 as [|c key Hc _ IH]; [reflexivity|]. cbn. now rewrite Hc.
Qed.

Lemma blankKey_trimmed k :
  blankKey k -> truthy (or_else (option_map trim k) []) = false.
Proof.
  destruct k as [key|]; [|reflexivity]. cbn [blankKey option_map or_else].
  intros H. unfold trim. rewrite (dropWhile_all_whiteSpace key H). reflexivity.
Qed.

Lemma transcribeItem_blankKey st reply :
  sttProvider st = js "whisper-api" ->
  blankKey (whisperApiKey st) ->
  transcribeItem (Some st) reply
  = match r_duration reply with
    | Rejected message => Failed message
    | Resolved audioDuration =>
        if Qltb audioDuration (1 # 2) then Skipped else Failed error_missingKey
    end.
Proof.
  intros Hp Hk. unfold transcribeItem. rewrite Hp.
  change (jsstring_eqb (js "whisper-api") (js "whisper-api")) with true.
  cbv iota. destruct (r_duration reply) as [d|]; [|reflexivity].
  destruct (Qltb d (1 # 2)); [reflexivity|].
  now rewrite (blankKey_trimmed _ Hk).
Qed.

Lemma segmentsOf_blankKey st rep :
  sttProvider st = js "whisper-api" ->
  blankKey (whisperApiKey st) ->
  flat_map (segmentsOf (Some st)) rep = [].
Proof.
  intros Hp Hk. induction rep as [|[item reply] l IH]; [reflexivity|].
  cbn [flat_map]. rewrite IH, app_nil_r. unfold segmentsOf. cbn [snd].
  rewrite (transcribeItem_blankKey st reply Hp Hk).
  destruct (r_duration reply) as [d|]; [|reflexivity].
  destruct (Qltb d (1 # 2)); reflexivity.
Qed.

Lemma errorsOf_blankKey st rep :
  sttProvider st = js "whisper-api" ->
  blankKey (whisperApiKey st) ->
  flat_map (errorsOf (Some st)) rep
  = flat_map
      (fun answered =>
         match r_duration (snd answered) with
         | Rejected message => [message]
         | Resolved audioDuration =>
             if Qltb audioDuration (1 # 2) then [] else [error_missingKey]
         end) rep.
Proof.
  intros Hp Hk. induction rep as [|[item reply] l IH]; [reflexivity|].
  cbn [flat_map]. rewrite IH. f_equal. unfold errorsOf. cbn [snd].
  rewrite (transcribeItem_blankKey st reply Hp Hk).
  destruct (r_duration reply) as [d|]; [|reflexivity].
  destruct (Qltb d (1 # 2)); reflexivity.
Qed.

(** X6. With the Whisper API selected and no key entered (none, empty or
    only white space), no segment is ever added: every item of at least
    half a second ends with the message that the key is missing, shorter
    ones are skipped, and the only other messages are failures to read the
    duration. *)
Theorem missing_key_yields_no_segment st s0 acts s :
  sttProvider st = js "whisper-api" ->
  blankKey (whisperApiKey st) ->
  quietWorker s0 ->
  run (Some st) acts s0 = Some s ->
  segments s = segments s0
  /\ errorChannel s
     = errorChannel s0
         ++ flat_map
              (fun answered =>
                 match r_duration (snd answered) with
                 | Rejected message => [message]
                 | Resolved audioDuration =>
                     if Qltb audioDuration (1 # 2) then []
                     else [error_missingKey]
                 end)
              (replies (trace s)).
Proof.
  intros Hp Hk Hq Hrun.
  pose proof (workerInv_run (Some st) _ _ acts s0 s
                (workerInv_start (Some st) s0 Hq) Hrun) as (_ & Hseg & Herr & _).
  split.
  - rewrite Hseg, (segmentsOf_blankKey st _ Hp Hk). apply app_nil_r.
  - rewrite Herr, (errorsOf_blankKey st _ Hp Hk). reflexivity.
Qed.

Lemma missing_key_yields_no_segment_witness :
  let st := {| sttProvider := js "whisper-api";
               whisperApiKey := Some (js "  ");
               liveIdleTime := None |} in
  let s := stateAfter (Some st)
             (sealOnce 1000
                ++ [WorkerTimer; WorkerResume; SttDone (apiErrorReply None)])
             freshSession in
  segments s = [] /\ errorChannel s = [error_missingKey].
Proof.
  cbv zeta.
  set (st := {| sttProvider := js "whisper-api";
                whisperApiKey := Some (js "  ");
                liveIdleTime := None |}).
  set (acts := sealOnce 1000
                 ++ [WorkerTimer; WorkerResume; SttDone (apiErrorReply None)]).
  assert (Hrun : run (Some st) acts freshSession
                 = Some (stateAfter (Some st) acts freshSession))
    by (vm_compute; reflexivity).
  destruct (missing_key_yields_no_segment st freshSession acts _ eq_refl
              ltac:(repeat constructor) ltac:(repeat split) Hrun) as [Hs He].
  split.
  - rewrite Hs. reflexivity.
  - rewrite He. vm_compute. reflexivity.
Defined.

(* ------------------------------------------------------------------ *)
(** *** Seals in flight: what every step keeps *)

Lemma savedBlobs_snoc t e :
  savedBlobs (t ++ [e])
  = savedBlobs t ++ match e with EvSaveAudio blob _ => [blob] | _ => [] end.
Proof. unfold savedBlobs. rewrite flat_map_app. simpl. now rewrite app_nil_r. Qed.

Arguments savedBlobs : simpl never.

Lemma sealInv_view base project s s' :
  sealView s = sealView s' -> sealInv base project s -> sealInv base project s'.
Proof.
  unfold sealView, sealInv, noProject.
  intros [= E1 E2 E3 E4 E5 E6 E7 E8 E9].
  now rewrite E1, E2, E3, E4, E5, E6, E7, E8, E9.
Qed.

Ltac view_eq :=
  unfold sealView, emit;
  cbn; unfold RecordSetters.constant;
  rewrite ?enqueued_snoc, ?savedBlobs_snoc; cbn [app];
  rewrite ?app_nil_r; reflexivity.

Ltac same_sealView s :=
  apply (sealInv_view _ _ s); [clear; destruct s; view_eq | assumption].

Lemma sealInv_off base project s s' :
  liveModeActiveRef s' = false ->
  (isProcessingSegmentRef s, seals s, currentProjectRef s,
   liveAudioBlobsRef s, enqueued (trace s), savedBlobs (trace s))
  = (isProcessingSegmentRef s', seals s', currentProjectRef s',
     liveAudioBlobsRef s', enqueued (trace s'), savedBlobs (trace s')) ->
  sealInv base project s -> sealInv base project s'.
Proof.
  unfold sealInv, noProject.
  intros Hoff [= E1 E2 E3 E4 E5 E6] (H0 & H1 & _ & H3 & H4 & H5 & H6).
  rewrite <- E1, <- E2, <- E3, <- E4, <- E5, <- E6, Hoff.
  split; [exact H0|]. split; [exact H1|]. split; [discriminate|].
  split; [exact H3|]. split; [exact H4|]. split; [exact H5|exact H6].
Qed.

Lemma filter_snoc {A} (p : A -> bool) l x :
  filter p (l ++ [x]) = filter p l ++ (if p x then [x] else []).
Proof. rewrite filter_app. reflexivity. Qed.

Lemma count_remove_nth {A} (p : A -> bool) l : forall i t,
  nth_error l i = Some t ->
  List.length (filter p l)
  = (if p t then 1 else 0) + List.length (filter p (remove_nth i l)).
Proof.
  induction l as [|x l IH]; intros [|i] t H; try discriminate; cbn in *.
  - injection H as ->. destruct (p t); reflexivity.
  - pose proof (IH i t H). destruct (p x), (p t); cbn in *; lia.
Qed.

Lemma count_replace_nth {A} (p : A -> bool) l : forall i t y,
  nth_error l i = Some t ->
  (if p y then 1 else 0) + List.length (filter p l)
  = (if p t then 1 else 0) + List.length (filter p (replace_nth i y l)).
Proof.
  induction l as [|x l IH]; intros [|i] t y H; try discriminate; cbn in *.
  - injection H as ->. destruct (p t), (p y); cbn; lia.
  - pose proof (IH i t y H). destruct (p x); cbn; lia.
Qed.

Lemma Forall_remove_nth {A} (P : A -> Prop) l : forall i,
  Forall P l -> Forall P (remove_nth i l).
Proof.
  induction l as [|x l IH]; intros [|i] H; cbn; auto;
    inversion H; subst; auto.
Qed.

Lemma Forall_replace_nth {A} (P : A -> Prop) l : forall i y,
  P y -> Forall P l -> Forall P (replace_nth i y l).
Proof.
  induction l as [|x l IH]; intros [|i] y Hy H; cbn; auto;
    inversion H; subst; auto.
Qed.

Lemma Forall_nth_error {A} (P : A -> Prop) l i t :
  Forall P l -> nth_error l i = Some t -> P t.
Proof.
  intros H Hn. rewrite Forall_forall in H. eauto using nth_error_In.
Qed.

Section SealInvariant.
Variable base : nat.
Variable project : option jsstring.

Lemma sealInv_release_then c s :
  liveModeActiveRef s = false -> sealInv base project s ->
  sealInv base project (stop_then c (release s)).
Proof.
  intros Hoff H. apply (sealInv_off base project s); [| |exact H].
  - unfold stop_then, after_drain, release, emit.
    match goal with |- context [if ?b then _ else _] => destruct b end;
      destruct s; exact Hoff.
  - unfold stop_then, after_drain, release, emit.
    match goal with |- context [if ?b then _ else _] => destruct b end;
      destruct s; cbn; unfold RecordSetters.constant;
      rewrite ?enqueued_snoc, ?savedBlobs_snoc; cbn [app];
      rewrite ?app_nil_r; reflexivity.
Qed.

Lemma sealInv_finish_seal a s :
  offWhenStopping s -> sealInv base project s -> sealInv base project (finish_seal a s).
Proof.
  intros Hoff H. unfold finish_seal. destruct a; [|exact H].
  destruct (stopTask s) eqn:Ht; try exact H.
  apply sealInv_release_then; [|exact H].
  apply Hoff. now rewrite Ht.
Qed.

Lemma sealInv_processLiveSegment now a s :
  (isProcessingSegmentRef s = false -> mediaRecorderRef s = Some recording) ->
  sealInv base project s -> sealInv base project (fst (processLiveSegment now a s)).
Proof.
  intros Hrec H. unfold processLiveSegment.
  destruct (isProcessingSegmentRef s) eqn:Hl; [exact H|].
  rewrite (Hrec eq_refl). cbn [isSome negb orb].
  destruct (recordingStreamRef s) eqn:Hs; [|exact H]. cbn [negb fst].
  revert H. unfold sealInv, noProject, emit. destruct s. cbn in *.
  unfold RecordSetters.constant. subst.
  rewrite enqueued_snoc, savedBlobs_snoc, app_nil_r, app_nil_r.
  rewrite filter_snoc. cbn [isAwaitStop]. rewrite length_app.
  intros (H0 & H1 & H2 & H3 & H4 & H5 & H6).
  repeat split; auto.
  - cbn. lia.
  - discriminate.
  - apply Forall_app. split; [exact H3|]. repeat constructor.
  - apply Forall_app. split; [now apply H6|]. repeat constructor.
  - now apply H6.
  - now apply H6.
Qed.


Lemma sealInv_enqueueSegment i blob index start path a s :
  largeBlob blob ->
  offWhenStopping s ->
  (noProject s -> index = List.length (liveAudioBlobsRef s)) ->
  sealInv base project (s <| seals ::= remove_nth i |>) ->
  sealInv base project (enqueueSegment i blob index start path a s).
Proof.
  intros Hb Hoff Hidx H. unfold enqueueSegment.
  apply sealInv_finish_seal.
  - revert Hoff. unfold offWhenStopping, emit.
    destruct (isTranscribingRef _); destruct s; exact (fun H => H).
  - revert H Hidx. unfold sealInv, noProject, emit.
    destruct (isTranscribingRef _); destruct s; cbn;
      unfold RecordSetters.constant;
      rewrite enqueued_snoc, savedBlobs_snoc, ?app_nil_r;
      intros (H0 & H1 & H2 & H3 & H4 & H5 & H6) Hidx;
      (split; [exact H0|];
       split; [exact H1|]; split; [exact H2|]; split; [exact H3|];
       split; [apply Forall_app; split; [exact H4|repeat constructor; exact Hb]|];
       split; [exact H5|];
       intros Hn; specialize (H6 Hn); specialize (Hidx Hn);
       destruct H6 as (H6 & H7 & H8);
       split; [exact H6|];
       rewrite !length_app, map_app, H8; cbn [List.length map segmentIndex];
       split; [lia|];
       rewrite Nat.add_1_r, seq_S; do 2 f_equal; lia).
Qed.

Lemma sealInv_seal_onstop i chunks start a s :
  nth_error (seals s) i = Some (AwaitStop chunks start a) ->
  offWhenStopping s ->
  sealInv base project s -> sealInv base project (seal_onstop i chunks start a s).
Proof.
  intros Hn Hoff H. unfold seal_onstop.
  set (blob := new_Blob (chunks ++ skipn (List.length chunks) (audioChunksRef s))).
  set (s1 := emit (EvSealed blob) (s <| audioChunksRef := [] |>)).
  set (s2 := if liveModeActiveRef s1 && recordingStreamRef s1
             then s1 <| mediaRecorderRef := Some recording |> else s1).
  set (s3 := s2 <| isProcessingSegmentRef := false |>).
  assert (Hoff3 : offWhenStopping (s3 <| seals ::= remove_nth i |>)).
  { revert Hoff. unfold offWhenStopping, s3, s2, s1, emit.
    destruct (liveModeActiveRef _ && recordingStreamRef _);
      destruct s; exact (fun H => H). }
  assert (Hoff3' : offWhenStopping s3).
  { revert Hoff. unfold offWhenStopping, s3, s2, s1, emit.
    destruct (liveModeActiveRef _ && recordingStreamRef _);
      destruct s; exact (fun H => H). }
  assert (H3 : sealInv base project (s3 <| seals ::= remove_nth i |>)).
  { destruct H as (H0 & H1 & H2 & H3 & H4 & H5 & H6).
    pose proof (count_remove_nth isAwaitStop _ _ _ Hn) as Hc.
    cbn [isAwaitStop] in Hc.
    assert (Hl : isProcessingSegmentRef s = true).
    { destruct (isProcessingSegmentRef s); [reflexivity|]. lia. }
    rewrite Hl in H1.
    unfold sealInv, noProject, s3, s2, s1, emit.
    destruct (liveModeActiveRef s) eqn:Hlive.
    - destruct (H2 eq_refl) as [Hs _].
      destruct s; cbn in *; unfold RecordSetters.constant; subst.
      cbn. rewrite enqueued_snoc, savedBlobs_snoc, ?app_nil_r.
      split; [reflexivity|].
      split; [lia|]. split; [auto|]. split; [now apply Forall_remove_nth|].
      split; [exact H4|]. split; [exact H5|].
      intros Hp. destruct (H6 Hp) as (H7 & H8 & H9).
      split; [now apply Forall_remove_nth|]. auto.
    - destruct s; cbn in *; unfold RecordSetters.constant; subst.
      cbn. rewrite enqueued_snoc, savedBlobs_snoc, ?app_nil_r.
      split; [reflexivity|].
      split; [lia|]. split; [discriminate|].
      split; [now apply Forall_remove_nth|].
      split; [exact H4|]. split; [exact H5|].
      intros Hp. destruct (H6 Hp) as (H7 & H8 & H9).
      split; [now apply Forall_remove_nth|]. auto. }
  destruct (size blob <? 1000) eqn:Hsize.
  - apply sealInv_finish_seal.
    + revert Hoff3. unfold offWhenStopping, emit. destruct s3. exact (fun H => H).
    + apply (sealInv_view base project (s3 <| seals ::= remove_nth i |>)); [|exact H3].
      destruct s3; view_eq.
  - apply Nat.ltb_ge in Hsize.
    destruct (truthy (or_else (currentProjectRef s3) [])) eqn:Hp.
    + revert H3 Hp. unfold sealInv, noProject, emit.
      pose proof (count_remove_nth isAwaitStop (seals s3) i _
                    ltac:(unfold s3, s2, s1, emit;
                          destruct (liveModeActiveRef _ && recordingStreamRef _);
                          destruct s; exact Hn)) as Hc1.
      pose proof (count_replace_nth isAwaitStop (seals s3) i _
                    (AwaitSave blob (List.length (liveAudioBlobsRef s3)) start a)
                    ltac:(unfold s3, s2, s1, emit;
                          destruct (liveModeActiveRef _ && recordingStreamRef _);
                          destruct s; exact Hn)) as Hc2.
      cbn [isAwaitStop] in Hc1, Hc2.
      pose proof (Forall_replace_nth largeSave (seals s3) i
                    (AwaitSave blob (List.length (liveAudioBlobsRef s3)) start a)
                    Hsize) as Hf.
      assert (Hall : Forall largeSave (seals s3)).
      { destruct H as (_ & _ & _ & Hall & _). revert Hall.
        unfold s3, s2, s1, emit.
        destruct (liveModeActiveRef _ && recordingStreamRef _);
          destruct s; exact (fun H => H). }
      specialize (Hf Hall).
      destruct s3; cbn in *; unfold RecordSetters.constant.
      rewrite enqueued_snoc, savedBlobs_snoc, ?app_nil_r.
      intros (H0 & H1 & H2 & H3 & H4 & H5 & H6) Hp.
      split; [exact H0|].
      split; [lia|]. split; [exact H2|]. split; [exact Hf|].
      split; [exact H4|].
      split; [apply Forall_app; split; [exact H5|repeat constructor; exact Hsize]|].
      intros Hp'. congruence.
    + apply sealInv_enqueueSegment; auto.
Qed.


Lemma sealInv_checkVoiceActivity settings now d s :
  sealInv base project s -> sealInv base project (checkVoiceActivity settings now d s).
Proof.
  intros H. unfold checkVoiceActivity.
  destruct (liveModeActiveRef s) eqn:Hlive; cbn [negb].
  - match goal with
    | |- sealInv base project (if liveModeActiveRef ?x then _ else _) =>
        assert (Hx : sealInv base project x)
    end.
    { destruct (isSilent d); [|unfold resetSilence; same_sealView s].
      destruct (minChunksForSegment <=? _);
        [|unfold resetSilence; same_sealView s].
      destruct (silenceStartRef s); [|same_sealView s].
      match goal with |- context [if ?c then _ else _] => destruct c eqn:Hc end;
        [|same_sealView s].
      apply andb_true_iff in Hc as [_ Hc]. apply negb_true_iff in Hc.
      apply sealInv_processLiveSegment.
      - intros _. destruct H as (_ & _ & H2 & _).
        destruct (H2 Hlive) as [_ Hr]. revert Hr Hc.
        unfold resetSilence, emit. destruct s. cbn. auto.
      - unfold resetSilence. same_sealView s. }
    match goal with
    | |- context [if ?c then _ else _] => destruct c
    end; [|exact Hx].
    match goal with
    | |- sealInv base project (requestAnimationFrame ?x) =>
        apply (sealInv_view base project x); [|exact Hx]
    end.
    unfold requestAnimationFrame.
    match goal with |- sealView ?x = _ => destruct x end. reflexivity.
  - same_sealView s.
Qed.

Lemma sealInv_stop_final now c s :
  liveModeActiveRef s = false ->
  sealInv base project s -> sealInv base project (stop_final now c s).
Proof.
  intros Hoff H. unfold stop_final.
  destruct (mediaRecorderRef s) as [[|]|] eqn:Hrec;
    try (now apply sealInv_release_then).
  assert (Hp : sealInv base project (fst (processLiveSegment now true (emit EvFinalSeal s)))).
  { apply sealInv_processLiveSegment.
    - intros _. unfold emit. destruct s. exact Hrec.
    - same_sealView s. }
  assert (Hoff' : liveModeActiveRef
                    (fst (processLiveSegment now true (emit EvFinalSeal s))) = false).
  { unfold processLiveSegment, emit.
    repeat match goal with
           | |- context [if ?b then _ else _] => destruct b
           | |- context [match ?x with _ => _ end] => destruct x
           end; destruct s; exact Hoff. }
  destruct (processLiveSegment now true (emit EvFinalSeal s)) as [s1 suspended].
  cbn [fst] in *. destruct suspended.
  - same_sealView s1.
  - now apply sealInv_release_then.
Qed.

Lemma sealInv_stopLiveMode now c s :
  sealInv base project s -> sealInv base project (stopLiveMode now c s).
Proof.
  intros H. unfold stopLiveMode.
  match goal with
  | |- sealInv base project (if isProcessingSegmentRef ?x then _ else _) =>
      assert (Hx : sealInv base project x /\ liveModeActiveRef x = false)
  end.
  { split.
    - apply (sealInv_off base project s); [| |exact H];
        clear; unfold cancelAnimationFrame, emit; destruct s; cbn;
        repeat match goal with
               | |- context [match ?x with _ => _ end] => is_var x; destruct x
               | |- context [if ?b then _ else _] => destruct b
               end;
        cbn; unfold RecordSetters.constant;
        rewrite ?enqueued_snoc, ?savedBlobs_snoc, ?app_nil_r; reflexivity.
    - clear; unfold cancelAnimationFrame, emit; destruct s; cbn;
        repeat match goal with
               | |- context [match ?x with _ => _ end] => is_var x; destruct x
               | |- context [if ?b then _ else _] => destruct b
               end; reflexivity. }
  destruct Hx as [Hx Hoff].
  match goal with
  | |- context [if ?c then _ else _] => destruct c
  end.
  - match goal with
    | |- sealInv base project (?x <| stopTask := _ |>) =>
        apply (sealInv_view base project x); [|exact Hx];
        generalize x; clear; intros y; destruct y; reflexivity
    end.
  - now apply sealInv_stop_final.
Qed.

Lemma sealInv_stop_wait now c n s :
  liveModeActiveRef s = false ->
  sealInv base project s -> sealInv base project (stop_wait now c n s).
Proof.
  intros Hoff H. unfold stop_wait.
  assert (Hx : sealInv base project (emit EvStopPoll s)) by same_sealView s.
  match goal with
  | |- context [if ?c then _ else _] => destruct c
  end.
  - same_sealView (emit EvStopPoll s).
  - apply sealInv_stop_final; [|exact Hx]. destruct s. exact Hoff.
Qed.

Lemma sealInv_worker_loop s : sealInv base project s -> sealInv base project (worker_loop s).
Proof.
  intros H. unfold worker_loop. destruct (transcriptionQueueRef s); same_sealView s.
Qed.

Lemma sealInv_processTranscriptionQueue s :
  sealInv base project s -> sealInv base project (processTranscriptionQueue s).
Proof.
  intros H. unfold processTranscriptionQueue.
  destruct (isTranscribingRef s); [exact H|].
  destruct (transcriptionQueueRef s); [exact H|].
  apply sealInv_worker_loop. same_sealView s.
Qed.

Lemma sealInv_worker_shift s :
  sealInv base project s -> sealInv base project (worker_shift s).
Proof.
  intros H. unfold worker_shift.
  destruct (transcriptionQueueRef s); same_sealView s.
Qed.

Lemma sealInv_worker_reply settings item reply s :
  sealInv base project s -> sealInv base project (worker_reply settings item reply s).
Proof.
  intros H. unfold worker_reply. destruct (transcribeItem settings reply).
  - apply sealInv_worker_loop. same_sealView s.
  - apply sealInv_worker_loop. same_sealView s.
  - same_sealView s.
Qed.

Lemma sealInv_exec settings a s s' :
  stopInv s -> sealInv base project s -> exec settings a s = Some s' -> sealInv base project s'.
Proof.
  intros Hstop H Hex.
  assert (Hoff : offWhenStopping s).
  { intros Hb. now apply Hstop. }
  destruct a; cbn [exec] in Hex.
  - (* Frame *)
    destruct (pendingFrame s); [|discriminate]. injection Hex as <-.
    apply sealInv_checkVoiceActivity. same_sealView s.
  - (* DataAvailable *)
    destruct (mediaRecorderRef s) as [st|]; [|discriminate].
    destruct (match st with recording => true | inactive => sealStopPending s end);
      [|discriminate].
    injection Hex as <-. destruct (0 <? size data); [same_sealView s|exact H].
  - (* RecorderStopped *)
    destruct (nth_error (seals s) i) as [[chunks start awaited|]|] eqn:Hn;
      try discriminate.
    injection Hex as <-. now apply sealInv_seal_onstop.
  - (* AudioSaved *)
    destruct (nth_error (seals s) i) as [[|blob index start awaited]|] eqn:Hn;
      try discriminate.
    injection Hex as <-.
    assert (Hlarge : largeBlob blob).
    { destruct H as (_ & _ & _ & H3 & _).
      exact (Forall_nth_error largeSave _ _ _ H3 Hn). }
    apply sealInv_enqueueSegment; auto.
    + intros Hp. destruct H as (_ & _ & _ & _ & _ & _ & H6).
      destruct (H6 Hp) as (H7 & _).
      pose proof (Forall_nth_error _ _ _ _ H7 Hn) as Hc. discriminate Hc.
    + destruct H as (H0 & H1 & H2 & H3 & H4 & H5 & H6).
      pose proof (count_remove_nth isAwaitStop _ _ _ Hn) as Hc.
      cbn [isAwaitStop] in Hc.
      unfold sealInv, noProject. destruct s; cbn in *.
      split; [exact H0|]. split; [lia|]. split; [exact H2|].
      split; [now apply Forall_remove_nth|].
      split; [exact H4|]. split; [exact H5|].
      intros Hp. destruct (H6 Hp) as (H7 & H8 & H9).
      split; [now apply Forall_remove_nth|]. auto.
  - (* WorkerTimer *)
    destruct (workerTimers s); [discriminate|]. injection Hex as <-.
    apply sealInv_processTranscriptionQueue. same_sealView s.
  - (* WorkerResume *)
    destruct (worker s); try discriminate. injection Hex as <-.
    now apply sealInv_worker_shift.
  - (* SttDone *)
    destruct (worker s); try discriminate. injection Hex as <-.
    now apply sealInv_worker_reply.
  - (* WorkerNext *)
    destruct (worker s); try discriminate. injection Hex as <-.
    now apply sealInv_worker_loop.
  - (* ClickStop *)
    destruct (liveMode s); [|discriminate]. injection Hex as <-.
    unfold toggleLiveMode_stop. same_sealView s.
  - (* StopTimer *)
    destruct (stopTask s); try discriminate. injection Hex as <-.
    now apply sealInv_stopLiveMode.
  - (* StopWaitTick *)
    destruct (stopTask s) eqn:Ht; try discriminate. injection Hex as <-.
    apply sealInv_stop_wait; [|exact H]. apply Hoff. now rewrite Ht.
  - (* DrainCheck *)
    destruct (stopTask s); try discriminate.
    destruct ((List.length (transcriptionQueueRef s) =? 0)
              && negb (isTranscribingRef s));
      injection Hex as <-; [|exact H].
    unfold after_drain. same_sealView s.
  - (* FinalDelayOver *)
    destruct (stopTask s); try discriminate. injection Hex as <-.
    unfold final_save.
    destruct (truthy (or_else (currentProjectRef s) [])); same_sealView s.
  - (* PersistDone *)
    destruct (stopTask s); try discriminate. injection Hex as <-.
    same_sealView s.
Qed.

Lemma sealInv_run settings acts : forall s s',
  stopInv s -> sealInv base project s -> run settings acts s = Some s' ->
  sealInv base project s'.
Proof.
  induction acts as [|a acts IH]; intros s s' Hstop H Hrun; cbn [run] in Hrun.
  - now injection Hrun as <-.
  - destruct (exec settings a s) as [s1|] eqn:Hex; [|discriminate].
    eapply IH; [| |exact Hrun].
    + eapply stopInv_exec; eauto.
    + eapply sealInv_exec; eauto.
Qed.

End SealInvariant.


Lemma beforeStop_session now created :
  beforeStop (toggleLiveMode_start now created initialSys).
Proof.
  unfold beforeStop.
  destruct created; cbn.
  - split; [reflexivity|]. split; [reflexivity|]. split; [|discriminate].
    intros h [= <-]. split; [reflexivity|discriminate].
  - split; [reflexivity|]. split; [reflexivity|]. split; [|discriminate].
    intros h [= <-]. split; [reflexivity|discriminate].
Qed.

Lemma quietWorker_session now created :
  quietWorker (toggleLiveMode_start now created initialSys).
Proof. destruct created; repeat split. Qed.

Lemma sealInv_session now created :
  sealInv 0 created (toggleLiveMode_start now created initialSys).
Proof.
  destruct created; cbn; unfold sealInv, noProject; cbn;
    repeat split; auto; constructor.
Qed.

Lemma sealInv_session_run settings now created acts s :
  run settings acts (toggleLiveMode_start now created initialSys) = Some s ->
  sealInv 0 created s.
Proof.
  intros Hrun.
  eapply sealInv_run; [| |exact Hrun].
  - apply stopInv_start, beforeStop_session.
  - apply sealInv_session.
Qed.

Lemma existsb_count {A} (p : A -> bool) l :
  existsb p l = (0 <? List.length (filter p l)).
Proof.
  induction l as [|x l IH]; [reflexivity|]. cbn.
  destruct (p x); [reflexivity|exact IH].
Qed.

(** X7. In a live session started on a fresh component, whatever the
    schedule: at most one seal waits for the recorder's stop event, the
    lock [isProcessingSegmentRef] is held exactly while one does, and as
    long as the session is live its stream is there and, with the lock
    free, the recorder is recording. *)
Theorem one_seal_at_a_time settings now created acts s :
  run settings acts (toggleLiveMode_start now created initialSys) = Some s ->
  List.length (filter isAwaitStop (seals s)) <= 1
  /\ isProcessingSegmentRef s = sealStopPending s
  /\ (liveModeActiveRef s = true ->
      recordingStreamRef s = true
      /\ (isProcessingSegmentRef s = false ->
          mediaRecorderRef s = Some recording)).
Proof.
  intros Hrun.
  destruct (sealInv_session_run _ _ _ _ _ Hrun) as (_ & H1 & H2 & _).
  split; [|split; [|exact H2]].
  - rewrite H1. destruct (isProcessingSegmentRef s); lia.
  - unfold sealStopPending.
    change (fun t => match t with AwaitStop _ _ _ => true | _ => false end)
      with isAwaitStop.
    rewrite existsb_count, H1. now destruct (isProcessingSegmentRef s).
Qed.

Lemma one_seal_at_a_time_witness :
  let s := stateAfter None overlappingSeals projectSession in
  List.length (filter isAwaitStop (seals s)) <= 1
  /\ isProcessingSegmentRef s = sealStopPending s
  /\ (liveModeActiveRef s = true ->
      recordingStreamRef s = true
      /\ (isProcessingSegmentRef s = false ->
          mediaRecorderRef s = Some recording)).
Proof.
  apply (one_seal_at_a_time None 0 (Some (js "p1")) overlappingSeals).
  vm_compute. reflexivity.
Defined.


(** X8. In a live session, whatever the schedule, no blob under 1000
    bytes gets past the size test: every blob given to
    [saveAudioToProject], every item put on the queue and every item the
    collaborator is asked about has at least 1000 bytes. *)
Theorem only_large_blobs_are_processed settings now created acts s :
  run settings acts (toggleLiveMode_start now created initialSys) = Some s ->
  (forall blob, In blob (savedBlobs (trace s)) -> 1000 <= size blob)
  /\ (forall item, In item (enqueued (trace s)) -> 1000 <= size (audioBlob item))
  /\ (forall item, In item (transcriptionQueueRef s) ->
      1000 <= size (audioBlob item))
  /\ (forall item reply, In (item, reply) (replies (trace s)) ->
      1000 <= size (audioBlob item)).
Proof.
  intros Hrun.
  destruct (sealInv_session_run _ _ _ _ _ Hrun) as (_ & _ & _ & _ & H4 & H5 & _).
  pose proof (workerInv_run settings _ _ acts _ s
                (workerInv_start settings _ (quietWorker_session now created))
                Hrun) as (Hq & _).
  rewrite Forall_forall in H4, H5.
  split; [exact H5|]. split; [exact H4|]. split.
  - intros item Hin. apply H4. rewrite Hq, !in_app_iff. auto.
  - intros item reply Hin. apply H4. rewrite Hq, !in_app_iff. left.
    apply in_map_iff. now exists (item, reply).
Qed.

Lemma only_large_blobs_are_processed_witness :
  let s := stateAfter None threeSegmentsRun freshSession in
  List.length (replies (trace s)) = 3
  /\ (forall item reply, In (item, reply) (replies (trace s)) ->
      1000 <= size (audioBlob item)).
Proof.
  split; [vm_compute; reflexivity|].
  apply (only_large_blobs_are_processed None 0 None threeSegmentsRun).
  vm_compute. reflexivity.
Defined.

Lemma seq_prefix l1 : forall l2 b n,
  l1 ++ l2 = seq b n -> l1 = seq b (List.length l1).
Proof.
  induction l1 as [|x l1 IH]; intros l2 b n H; [reflexivity|].
  destruct n as [|n]; [discriminate|]. cbn in H. injection H as -> H.
  cbn. f_equal. eapply IH; eauto.
Qed.

Lemma StronglySorted_seq n : forall b, StronglySorted lt (seq b n).
Proof.
  induction n as [|n IH]; intros b; cbn; constructor; [apply IH|].
  apply Forall_forall. intros x Hx. apply in_seq in Hx. lia.
Qed.

(** X9. In a live session that is not bound to a project, the index is
    read and taken in the same turn, so the items put on the queue carry
    the indices 0, 1, 2, ... in order, whatever the schedule; no index is
    used twice, and the ids of the segments are strictly increasing. *)
Theorem indices_count_up_without_project settings now acts s :
  run settings acts (toggleLiveMode_start now None initialSys) = Some s ->
  map segmentIndex (enqueued (trace s))
  = seq 0 (List.length (enqueued (trace s)))
  /\ List.length (liveAudioBlobsRef s) = List.length (enqueued (trace s))
  /\ StronglySorted lt (map seg_id (segments s)).
Proof.
  intros Hrun.
  destruct (sealInv_session_run _ _ _ _ _ Hrun) as (H0 & _ & _ & _ & _ & _ & H6).
  assert (Hp : noProject s) by (unfold noProject; now rewrite H0).
  destruct (H6 Hp) as (_ & Hlen & Hidx).
  split; [exact Hidx|]. split; [exact Hlen|].
  pose proof (workerInv_run settings _ _ acts _ s
                (workerInv_start settings _ (quietWorker_session now None))
                Hrun) as (Hq & Hseg & _).
  rewrite Hseg. cbn [toggleLiveMode_start segments app].
  change (segments (toggleLiveMode_start now None initialSys)) with
    (@nil TranscriptSegment). cbn [app].
  apply segment_ids_sorted.
  rewrite Hq, map_app in Hidx. apply seq_prefix in Hidx.
  rewrite Hidx. apply StronglySorted_seq.
Qed.

Lemma indices_count_up_without_project_witness :
  let s := stateAfter None threeSegmentsRun freshSession in
  map segmentIndex (enqueued (trace s)) = [0; 1; 2]
  /\ map seg_id (segments s) = [0; 2]
  /\ StronglySorted lt (map seg_id (segments s)).
Proof.
  cbv zeta.
  destruct (indices_count_up_without_project None 0 threeSegmentsRun
              (stateAfter None threeSegmentsRun freshSession)
              ltac:(vm_compute; reflexivity)) as (H1 & _ & H3).
  split; [rewrite H1; vm_compute; reflexivity|].
  split; [vm_compute; reflexivity|exact H3].
Defined.

(* ------------------------------------------------------------------ *)
(** *** Saving a segment's audio *)

Lemma binaryFrom_rest size : forall turns bytes i binary,
  0 < size ->
  List.length bytes <= i + turns * size ->
  binaryFrom turns size bytes i binary = binary ++ fromCharCodes (skipn i bytes).
Proof.
  induction turns as [|turns IH]; intros bytes i binary Hpos Hlen;
    cbn [binaryFrom].
  - rewrite skipn_all2 by (cbn in Hlen; lia). cbn. now rewrite app_nil_r.
  - destruct (i <? List.length bytes) eqn:Hi.
    + rewrite IH by (cbn in Hlen; lia).
      rewrite <- app_assoc. f_equal. unfold fromCharCodes, slice.
      rewrite <- map_app. f_equal.
      replace (i + size - i) with size by lia.
      rewrite Nat.add_comm, <- skipn_skipn. apply firstn_skipn.
    + apply Nat.ltb_ge in Hi. rewrite skipn_all2 by lia. cbn.
      now rewrite app_nil_r.
Qed.

Lemma chunkSize_positive : 0 < chunkSize.
Proof.
  unfold chunkSize. destruct (N.to_nat 8192) eqn:E; [|apply Nat.lt_0_succ].
  change 0 with (N.to_nat 0) in E. apply N2Nat.inj in E. discriminate E.
Qed.

Lemma binaryOf_blob blob : binaryOf blob = fromCharCodes blob.
Proof.
  unfold binaryOf. pose proof chunkSize_positive as Hpos.
  generalize dependent chunkSize. intros size Hpos.
  rewrite binaryFrom_rest; [reflexivity|exact Hpos|].
  cbn [Nat.add]. nia.
Qed.

Lemma sextet_cases (p : N -> bool) :
  forallb (fun k => p (N.of_nat k)) (seq 0 64) = true ->
  forall v, (v < 64)%N -> p v = true.
Proof.
  intros A v Hv. rewrite forallb_forall in A.
  rewrite <- (N2Nat.id v). apply A, in_seq. lia.
Qed.

Lemma unbase64_base64Char v :
  (v < 64)%N -> unbase64 (base64Char v) = Some v.
Proof.
  intros Hv.
  pose proof (sextet_cases
                (fun v => match unbase64 (base64Char v) with
                          | Some w => (w =? v)%N
                          | None => false
                          end)
                ltac:(vm_compute; reflexivity) v Hv) as H.
  cbv beta in H. destruct (unbase64 (base64Char v)); [|discriminate].
  apply N.eqb_eq in H. now subst.
Qed.

Lemma base64Char_not_pad v : (v < 64)%N -> (base64Char v =? 61)%N = false.
Proof.
  intros Hv.
  pose proof (sextet_cases (fun v => negb (base64Char v =? 61)%N)
                ltac:(vm_compute; reflexivity) v Hv) as H.
  now apply negb_true_iff in H.
Qed.

Lemma sextetsOf_cons v s :
  (v < 64)%N -> sextetsOf (base64Char v :: s) = v :: sextetsOf s.
Proof.
  intros Hv. cbn [sextetsOf].
  now rewrite (base64Char_not_pad v Hv), (unbase64_base64Char v Hv).
Qed.

Lemma sextet_bounds b0 b1 b2 :
  (b0 < 256)%N -> (b1 < 256)%N -> (b2 < 256)%N ->
  (b0 / 4 < 64 /\ (b0 mod 4) * 16 + b1 / 16 < 64
   /\ (b1 mod 16) * 4 + b2 / 64 < 64 /\ b2 mod 64 < 64
   /\ (b0 mod 4) * 16 < 64 /\ (b1 mod 16) * 4 < 64)%N.
Proof.
  intros H0 H1 H2.
  pose proof (N.mod_upper_bound b0 4 ltac:(lia)).
  pose proof (N.mod_upper_bound b1 16 ltac:(lia)).
  pose proof (N.mod_upper_bound b2 64 ltac:(lia)).
  assert (b0 / 4 < 64)%N by (apply N.Div0.div_lt_upper_bound; lia).
  assert (b1 / 16 < 16)%N by (apply N.Div0.div_lt_upper_bound; lia).
  assert (b2 / 64 < 4)%N by (apply N.Div0.div_lt_upper_bound; lia).
  lia.
Qed.

Lemma base64_triple b0 b1 b2 :
  (b0 < 256)%N -> (b1 < 256)%N -> (b2 < 256)%N ->
  let a := (b0 / 4)%N in
  let b := ((b0 mod 4) * 16 + b1 / 16)%N in
  let c := ((b1 mod 16) * 4 + b2 / 64)%N in
  let d := (b2 mod 64)%N in
  (a * 4 + b / 16 = b0 /\ (b mod 16) * 16 + c / 4 = b1
   /\ (c mod 4) * 64 + d = b2)%N.
Proof.
  intros H0 H1 H2. cbv zeta.
  pose proof (N.div_mod b0 4 ltac:(lia)).
  pose proof (N.mod_upper_bound b0 4 ltac:(lia)).
  pose proof (N.div_mod b1 16 ltac:(lia)).
  pose proof (N.mod_upper_bound b1 16 ltac:(lia)).
  pose proof (N.div_mod b2 64 ltac:(lia)).
  pose proof (N.mod_upper_bound b2 64 ltac:(lia)).
  set (q0 := (b0 / 4)%N) in *. set (r0 := (b0 mod 4)%N) in *.
  set (q1 := (b1 / 16)%N) in *. set (r1 := (b1 mod 16)%N) in *.
  set (q2 := (b2 / 64)%N) in *. set (r2 := (b2 mod 64)%N) in *.
  clearbody q0 r0 q1 r1 q2 r2.
  assert (q1 < 16)%N by lia. assert (q2 < 4)%N by lia.
  assert (E1 : ((r0 * 16 + q1) / 16 = r0)%N).
  { replace (r0 * 16 + q1)%N with (q1 + r0 * 16)%N by lia.
    rewrite N.div_add by lia. rewrite N.div_small by lia. lia. }
  assert (E2 : ((r0 * 16 + q1) mod 16 = q1)%N).
  { replace (r0 * 16 + q1)%N with (q1 + r0 * 16)%N by lia.
    rewrite N.Div0.mod_add. apply N.mod_small. lia. }
  assert (E3 : ((r1 * 4 + q2) / 4 = r1)%N).
  { replace (r1 * 4 + q2)%N with (q2 + r1 * 4)%N by lia.
    rewrite N.div_add by lia. rewrite N.div_small by lia. lia. }
  assert (E4 : ((r1 * 4 + q2) mod 4 = q2)%N).
  { replace (r1 * 4 + q2)%N with (q2 + r1 * 4)%N by lia.
    rewrite N.Div0.mod_add. apply N.mod_small. lia. }
  rewrite E1, E2, E3, E4. lia.
Qed.

Lemma byte_below_256 b : (Byte.to_N b < 256)%N.
Proof. pose proof (Byte.to_N_bounded b). lia. Qed.

Lemma base64_round_trip bytes :
  Forall (fun b => (b < 256)%N) bytes ->
  Buffer_from_base64 (btoa bytes) = bytes.
Proof.
  unfold Buffer_from_base64.
  assert (G : forall n bs, List.length bs < n ->
            Forall (fun b => (b < 256)%N) bs ->
            bytesOfSextets (sextetsOf (btoa bs)) = bs).
  { induction n as [|n IH]; intros bs Hn Hb; [lia|].
    destruct bs as [|b0 [|b1 [|b2 rest]]].
    - reflexivity.
    - inversion Hb as [|? ? H0 _]; subst.
      destruct (sextet_bounds b0 0 0 H0 ltac:(lia) ltac:(lia))
        as (S1 & _ & _ & _ & S5 & _).
      cbn [btoa]. rewrite !sextetsOf_cons by assumption.
      cbn [sextetsOf N.eqb Pos.eqb bytesOfSextets].
      destruct (base64_triple b0 0 0 H0 ltac:(lia) ltac:(lia)) as (E & _).
      cbv zeta in E. change (0 / 16)%N with 0%N in E.
      rewrite N.add_0_r in E. now rewrite E.
    - inversion Hb as [|? ? H0 Hb1]; subst.
      inversion Hb1 as [|? ? H1 _]; subst.
      destruct (sextet_bounds b0 b1 0 H0 H1 ltac:(lia))
        as (S1 & S2 & _ & _ & _ & S6).
      cbn [btoa]. rewrite !sextetsOf_cons by assumption.
      cbn [sextetsOf N.eqb Pos.eqb bytesOfSextets].
      destruct (base64_triple b0 b1 0 H0 H1 ltac:(lia)) as (E0 & E1 & _).
      cbv zeta in E0, E1. change (0 / 64)%N with 0%N in E1.
      rewrite N.add_0_r in E1. now rewrite E0, E1.
    - inversion Hb as [|? ? H0 Hb1]; subst.
      inversion Hb1 as [|? ? H1 Hb2]; subst.
      inversion Hb2 as [|? ? H2 Hb3]; subst.
      destruct (sextet_bounds b0 b1 b2 H0 H1 H2) as (S1 & S2 & S3 & S4 & _).
      cbn [btoa]. rewrite !sextetsOf_cons by assumption.
      cbn [bytesOfSextets].
      destruct (base64_triple b0 b1 b2 H0 H1 H2) as (E0 & E1 & E2).
      cbv zeta in E0, E1, E2. rewrite E0, E1, E2.
      do 3 f_equal. apply IH; [cbn [List.length] in Hn; lia|exact Hb3]. }
  intros Hb. apply (G (S (List.length bytes))); [lia|exact Hb].
Qed.

(** X10. The audio of a segment reaches the disk unchanged: the binary
    string built 8192 bytes at a time, encoded by [btoa] in the renderer
    and decoded by [Buffer.from(..., "base64")] in the main process, gives
    back exactly the bytes of the blob, for a blob of any length. *)
Theorem saved_audio_is_the_blob sep audioBlob segmentIndex :
  sa_written (saveAudioToProject_call sep audioBlob segmentIndex)
  = map Byte.to_N audioBlob.
Proof.
  unfold saveAudioToProject_call, projects_saveAudio. cbn [sa_written].
  rewrite binaryOf_blob. unfold fromCharCodes.
  apply base64_round_trip. apply Forall_forall. intros b Hb.
  apply in_map_iff in Hb as (x & <- & _). apply byte_below_256.
Qed.


Lemma digitsValue_acc d : forall acc,
  fold_left (fun a c => 10 * a + N.to_nat (c - 48)) (uint_digits d) acc
  = Nat.of_uint_acc d acc.
Proof.
  induction d; intros acc; cbn [uint_digits fold_left Nat.of_uint_acc];
    try reflexivity; rewrite IHd; f_equal; rewrite Nat.tail_mul_spec;
    cbn; lia.
Qed.

Lemma digitsValue_String_of_nat n : digitsValue (String_of_nat n) = n.
Proof.
  unfold digitsValue, String_of_nat. rewrite digitsValue_acc.
  apply DecimalNat.Unsigned.of_to.
Qed.

Lemma digitsValue_zeros k s :
  digitsValue (repeat 48%N k ++ s) = digitsValue s.
Proof.
  unfold digitsValue. rewrite fold_left_app. f_equal.
  induction k as [|k IH]; [reflexivity|]. cbn [repeat fold_left]. exact IH.
Qed.

Lemma skipn_prefix {A} (a b : list A) : skipn (List.length a) (a ++ b) = b.
Proof. induction a; [reflexivity|]. cbn. assumption. Qed.

Lemma firstn_prefix {A} (a b : list A) : firstn (List.length a) (a ++ b) = a.
Proof. induction a; [reflexivity|]. cbn. now f_equal. Qed.

Lemma indexOfFileName_segmentFileName i :
  indexOfFileName (segmentFileName i) = i.
Proof.
  unfold indexOfFileName, segmentFileName.
  set (p := padStart (String_of_nat i) 4 48%N).
  pose proof (skipn_prefix (js "segment_") (p ++ js ".webm")) as Hs.
  change (List.length (js "segment_")) with 8 in Hs. rewrite Hs.
  assert (Hl : List.length (js "segment_" ++ p ++ js ".webm") - 13
               = List.length p).
  { rewrite !length_app.
    change (List.length (js "segment_")) with 8.
    change (List.length (js ".webm")) with 5. lia. }
  rewrite Hl, firstn_prefix. unfold p, padStart.
  rewrite digitsValue_zeros. apply digitsValue_String_of_nat.
Qed.

(** X11. The file name of a segment's audio determines its index: the
    digits of [segment_NNNN.webm] read back give the index the handler was
    called with, so two different indices never share a file. *)
Theorem segment_file_name_determines_index :
  (forall sep audioData segmentIndex,
      indexOfFileName (sa_fileName (projects_saveAudio sep audioData segmentIndex))
      = segmentIndex)
  /\ (forall i j, segmentFileName i = segmentFileName j -> i = j)
  /\ (forall sep i j, audioFilePathOf sep (segmentFileName i)
                      = audioFilePathOf sep (segmentFileName j) -> i = j).
Proof.
  split; [|split].
  - intros sep audioData segmentIndex. apply indexOfFileName_segmentFileName.
  - intros i j H.
    rewrite <- (indexOfFileName_segmentFileName i),
            <- (indexOfFileName_segmentFileName j).
    now rewrite H.
  - intros sep i j H. unfold audioFilePathOf in H.
    apply app_inv_head in H. apply app_inv_head in H.
    rewrite <- (indexOfFileName_segmentFileName i),
            <- (indexOfFileName_segmentFileName j).
    now rewrite H.
Qed.

Lemma audioFileOf_fallback seg :
  audioFile seg = None ->
  audioFileOf seg = audioFilePathOf 47 (segmentFileName (seg_id seg)).
Proof.
  intros H. unfold audioFileOf, audioFilePathOf, segmentFileName.
  rewrite H. cbn [or_else].
  change (js "audio/segment_") with (js "audio" ++ [47%N] ++ js "segment_").
  now rewrite <- !app_assoc.
Qed.

(** X12. With the separator [/], the name the final save lists for a
    segment is the path its audio was written to: whether the segment
    carries the path [saveAudio] returned for its index, or carries none
    and the fallback is built from its id, [audioFiles] gets
    [audio/segment_NNNN.webm] for the segment's own index. *)
Theorem listed_audio_file_is_the_saved_one item segmentText audioDuration
    audioData :
  audioFilePath item = None
  \/ audioFilePath item
     = Some (sa_filePath (projects_saveAudio 47 audioData (segmentIndex item))) ->
  audioFileOf (newSegment item segmentText audioDuration)
  = sa_filePath (projects_saveAudio 47 audioData (segmentIndex item)).
Proof.
  intros [H|H].
  - rewrite audioFileOf_fallback.
    + reflexivity.
    + unfold newSegment. cbn [audioFile]. now rewrite H.
  - unfold audioFileOf, newSegment. cbn [audioFile seg_id]. rewrite H.
    reflexivity.
Qed.

Lemma listed_audio_file_is_the_saved_one_witness :
  audioFileOf (newSegment (sampleItem 7) (js "Hallo") 2)
  = js "audio/segment_0007.webm".
Proof.
  rewrite (listed_audio_file_is_the_saved_one (sampleItem 7) (js "Hallo") 2 []).
  - vm_compute. reflexivity.
  - left. reflexivity.
Defined.

(* ------------------------------------------------------------------ *)
(** *** Display helpers *)

Lemma Qfloor_div60 x : Qfloor (x / 60) = (Qfloor x / 60)%Z.
Proof.
  destruct x as [n d]. unfold Qdiv, Qmult, Qinv. cbn.
  rewrite Z.mul_1_r. rewrite Pos2Z.inj_mul.
  rewrite <- Z.div_div by lia. reflexivity.
Qed.

Lemma Qfloor_sub_Z x z : Qfloor (x - inject_Z z) = (Qfloor x - z)%Z.
Proof.
  destruct x as [n d]. unfold Qminus, Qplus, Qopp, inject_Z. cbn.
  rewrite Z.mul_1_r, Pos.mul_1_r.
  replace (n + - z * Z.pos d)%Z with (n + (- z) * Z.pos d)%Z by lia.
  rewrite Z.div_add by lia. lia.
Qed.

Lemma uint_digits_are_digits d :
  Forall (fun c => (48 <= c <= 57)%N) (uint_digits d).
Proof. induction d; cbn; constructor; auto; lia. Qed.

Lemma takeUntil_app c a b :
  Forall (fun x => x <> c) a -> takeUntil c (a ++ c :: b) = a.
Proof.
  induction 1 as [|x a Hx _ IH]; cbn.
  - now rewrite N.eqb_refl.
  - apply N.eqb_neq in Hx. now rewrite Hx, IH.
Qed.

Lemma dropThrough_app c a b :
  Forall (fun x => x <> c) a -> dropThrough c (a ++ c :: b) = b.
Proof.
  induction 1 as [|x a Hx _ IH]; cbn.
  - now rewrite N.eqb_refl.
  - apply N.eqb_neq in Hx. now rewrite Hx, IH.
Qed.

Lemma two_digits n :
  n < 60 -> List.length (padStart (String_of_nat n) 2 48%N) = 2.
Proof.
  intros H.
  assert (A : forallb (fun k => List.length (padStart (String_of_nat k) 2 48%N) =? 2)
                (seq 0 60) = true) by (vm_compute; reflexivity).
  rewrite forallb_forall in A. apply Nat.eqb_eq, A, in_seq. lia.
Qed.

(** X20. For a time that is not negative, [formatTime] shows the whole
    seconds as minutes, a colon and exactly two digits of seconds below
    60; reading the label back gives the time rounded down to a second. *)
Theorem formatTime_shows_whole_seconds seconds :
  (0 <= seconds)%Q ->
  let n := Z.to_nat (Qfloor seconds) in
  formatTime seconds
  = String_of_nat (n / 60) ++ js ":" ++ padStart (String_of_nat (n mod 60)) 2 48%N
  /\ List.length (padStart (String_of_nat (n mod 60)) 2 48%N) = 2
  /\ readTime (formatTime seconds) = n.
Proof.
  intros Hpos. cbv zeta.
  assert (Hf : (0 <= Qfloor seconds)%Z).
  { rewrite <- (Qfloor_Z 0). now apply Qfloor_resp_le. }
  set (z := Qfloor seconds) in *.
  assert (Hm : Qfloor (seconds / 60) = (z / 60)%Z) by apply Qfloor_div60.
  assert (Hs : Qfloor (jsRemainder seconds 60) = (z mod 60)%Z).
  { unfold jsRemainder, Qtrunc.
    assert (Hq : Qle_bool 0 (seconds / 60) = true).
    { apply Qle_bool_iff. apply Qle_shift_div_l; [reflexivity|].
      now rewrite Qmult_0_l. }
    rewrite Hq, Hm.
    assert (E : (60 * inject_Z (z / 60) == inject_Z (60 * (z / 60)))%Q).
    { rewrite inject_Z_mult. reflexivity. }
    rewrite (Qfloor_comp _ (seconds - inject_Z (60 * (z / 60)))%Q)
      by (now rewrite E).
    rewrite Qfloor_sub_Z. fold z. rewrite Z.mod_eq by lia. reflexivity. }
  assert (E : formatTime seconds
              = String_of_nat (Z.to_nat z / 60) ++ js ":"
                  ++ padStart (String_of_nat (Z.to_nat z mod 60)) 2 48%N).
  { unfold formatTime. rewrite Hm, Hs.
    assert (H1 : (0 <= z / 60)%Z) by (apply Z.div_pos; lia).
    assert (H2 : (0 <= z mod 60)%Z) by (apply Z.mod_pos_bound; lia).
    assert (T : forall w, (0 <= w)%Z -> Number_toString w = String_of_nat (Z.to_nat w)).
    { intros [| |] Hw; try reflexivity. lia. }
    rewrite (T _ H1), (T _ H2).
    rewrite Z2Nat.inj_div, Z2Nat.inj_mod by lia. reflexivity. }
  assert (L : Z.to_nat z mod 60 < 60) by (apply Nat.mod_upper_bound; lia).
  split; [exact E|]. split; [now apply two_digits|].
  rewrite E. unfold readTime.
  assert (D : Forall (fun x => x <> 58%N) (String_of_nat (Z.to_nat z / 60))).
  { eapply Forall_impl; [|apply uint_digits_are_digits]. cbv beta. lia. }
  change (js ":") with [58%N]. cbn [app].
  rewrite (takeUntil_app 58 _ _ D), (dropThrough_app 58 _ _ D).
  unfold padStart. rewrite digitsValue_zeros, !digitsValue_String_of_nat.
  pose proof (Nat.div_mod_eq (Z.to_nat z) 60). lia.
Qed.

Lemma formatTime_shows_whole_seconds_witness :
  formatTime (125 # 2) = js "1:02" /\ readTime (formatTime (125 # 2)) = 62.
Proof.
  destruct (formatTime_shows_whole_seconds (125 # 2) ltac:(discriminate))
    as (E & _ & R).
  split; [rewrite E; vm_compute; reflexivity|exact R].
Defined.

(* ------------------------------------------------------------------ *)
(** *** Editing *)

Lemma withEditedText_ids segmentId t segs :
  map seg_id (withEditedText segmentId t segs) = map seg_id segs.
Proof.
  unfold withEditedText. rewrite map_map. apply map_ext. intros seg.
  now destruct (seg_id seg =? segmentId).
Qed.

Lemma saveSegmentEdit_saved segmentId e projectId :
  ed_currentProject e = Some projectId ->
  truthy projectId = true ->
  let e' := saveSegmentEdit segmentId e in
  ed_transcript e' = join (js " ") (map text (ed_segments e'))
  /\ ed_saves e'
     = ed_saves e
         ++ [(projectId,
              {| d_segments := Some (ed_segments e');
                 d_rawTranscript := Some (ed_transcript e');
                 d_audioFiles := None; d_enrichedResult := None |})].
Proof.
  intros Hp Ht. cbv zeta. unfold saveSegmentEdit.
  destruct e; cbn in *; unfold RecordSetters.constant.
  rewrite Hp, Ht. cbn. split; reflexivity.
Qed.

(** X13. Saving a segment edit touches the text only: ids and order, the
    times, the audio file and the uncertainty flag of every segment stay
    as they were; the segments with the edited id get the trimmed text and
    the others keep theirs; the transcript becomes the texts joined by
    single spaces; and, with a project, exactly one save is asked for,
    carrying these segments and this transcript. *)
Theorem segment_edit_changes_text_only segmentId e :
  let e' := saveSegmentEdit segmentId e in
  map seg_id (ed_segments e') = map seg_id (ed_segments e)
  /\ map seg_startTime (ed_segments e') = map seg_startTime (ed_segments e)
  /\ map endTime (ed_segments e') = map endTime (ed_segments e)
  /\ map audioFile (ed_segments e') = map audioFile (ed_segments e)
  /\ map isUncertain (ed_segments e') = map isUncertain (ed_segments e)
  /\ map text (ed_segments e')
     = map (fun seg => if seg_id seg =? segmentId then trim (editingText e)
                       else text seg) (ed_segments e)
  /\ ed_transcript e' = join (js " ") (map text (ed_segments e'))
  /\ editingSegmentId e' = None
  /\ ed_saves e'
     = ed_saves e
         ++ match ed_currentProject e with
            | Some projectId =>
                if truthy projectId
                then [(projectId,
                       {| d_segments := Some (ed_segments e');
                          d_rawTranscript := Some (ed_transcript e');
                          d_audioFiles := None; d_enrichedResult := None |})]
                else []
            | None => []
            end.
Proof.
  cbv zeta. unfold saveSegmentEdit.
  assert (E : forall A (f : TranscriptSegment -> A) t,
             (forall seg, f (seg <| text := t |>) = f seg) ->
             map f (withEditedText segmentId t (ed_segments e))
             = map f (ed_segments e)).
  { intros A f t Hf. unfold withEditedText. rewrite map_map.
    apply map_ext. intros seg.
    destruct (seg_id seg =? segmentId); [apply Hf|reflexivity]. }
  destruct (ed_currentProject e) as [projectId|] eqn:Hp;
    [destruct (truthy projectId) eqn:Ht|];
    destruct e; cbn in *; unfold RecordSetters.constant;
    rewrite ?Hp, ?Ht, ?app_nil_r;
    (repeat split; try (apply E; intros [] ; reflexivity));
    unfold withEditedText; rewrite map_map; apply map_ext; intros seg;
    destruct (seg_id seg =? segmentId); reflexivity.
Qed.


(** X14. Opening a segment for editing and saving without a change leaves
    the segments as they were, when the texts are trimmed (as the worker
    leaves them) and no two segments share an id. *)
Theorem unchanged_edit_keeps_segments segment e :
  In segment (ed_segments e) ->
  NoDup (map seg_id (ed_segments e)) ->
  Forall (fun seg => trim (text seg) = text seg) (ed_segments e) ->
  ed_segments (saveSegmentEdit (seg_id segment) (startEditingSegment segment e))
  = ed_segments e.
Proof.
  intros Hin Hnd Htrim.
  assert (E : withEditedText (seg_id segment) (trim (text segment)) (ed_segments e)
              = ed_segments e).
  { unfold withEditedText.
    rewrite <- (map_id (ed_segments e)) at 2. apply map_ext_in.
    intros seg Hseg. destruct (seg_id seg =? seg_id segment) eqn:Eid;
      [|reflexivity].
    apply Nat.eqb_eq in Eid.
    assert (seg = segment).
    { clear Htrim. induction (ed_segments e) as [|x l IH]; [destruct Hin|].
      cbn in Hnd. inversion Hnd as [|? ? Hx Hl]; subst.
      destruct Hin as [->|Hin], Hseg as [->|Hseg]; auto.
      - exfalso. apply Hx. rewrite <- Eid. now apply in_map.
      - exfalso. apply Hx. rewrite Eid. now apply in_map. }
    subst seg. rewrite Forall_forall in Htrim. rewrite (Htrim _ Hin).
    now destruct segment. }
  unfold saveSegmentEdit, startEditingSegment.
  destruct (ed_currentProject e) as [projectId|] eqn:Hp;
    [destruct (truthy projectId) eqn:Ht|];
    destruct e; cbn in *; unfold RecordSetters.constant;
    rewrite ?Hp, ?Ht; cbn; exact E.
Qed.

Lemma unchanged_edit_keeps_segments_witness :
  let seg := newSegment (sampleItem 1) (js "Guten Tag") 2 in
  let e := {| ed_segments := [newSegment (sampleItem 0) (js "Hallo Welt") 4; seg];
              ed_transcript := js "Hallo Welt Guten Tag";
              transcriptValueRef := [];
              editingSegmentId := None; editingText := [];
              ed_currentProject := Some (js "p1");
              manualEditSaveTimer := None; ed_saves := [] |} in
  ed_segments (saveSegmentEdit 1 (startEditingSegment seg e)) = ed_segments e.
Proof.
  cbv zeta.
  apply (unchanged_edit_keeps_segments
           (newSegment (sampleItem 1) (js "Guten Tag") 2)).
  - right. left. reflexivity.
  - cbn. repeat constructor; cbn; intuition discriminate.
  - repeat constructor.
Defined.


(** X16. The save of a manual edit is debounced: each change re-arms the
    one timer, so after any burst of changes the timer fires once, saving
    the text typed last under [rawTranscript], and a further firing saves
    nothing; without a project nothing is saved at all. *)
Theorem manual_edit_saves_last_text_once e texts last :
  let e' := fold_left editStep (map Typed (texts ++ [last])) e in
  ed_transcript e' = last
  /\ manualEditSaveTimer e' = Some last
  /\ ed_saves e' = ed_saves e
  /\ ed_saves (manualEditTimerFires e')
     = ed_saves e
         ++ match ed_currentProject e with
            | Some projectId =>
                if truthy projectId
                then [(projectId,
                       {| d_segments := None; d_rawTranscript := Some last;
                          d_audioFiles := None; d_enrichedResult := None |})]
                else []
            | None => []
            end
  /\ ed_saves (manualEditTimerFires (manualEditTimerFires e'))
     = ed_saves (manualEditTimerFires e').
Proof.
  cbv zeta. rewrite map_app, fold_left_app. cbn [map fold_left editStep].
  set (e0 := fold_left editStep (map Typed texts) e).
  assert (H0 : ed_saves e0 = ed_saves e /\ ed_currentProject e0 = ed_currentProject e).
  { unfold e0. clear. revert e.
    induction texts as [|t texts IH]; intros e; [split; reflexivity|].
    cbn [map fold_left editStep].
    destruct (IH (handleManualTranscriptChange t e)) as [H1 H2].
    rewrite H1, H2. destruct e; split; reflexivity. }
  destruct H0 as [Hs Hp]. clearbody e0.
  unfold manualEditTimerFires, handleManualTranscriptChange.
  destruct e0; cbn in *; unfold RecordSetters.constant; subst.
  destruct (ed_currentProject e) as [projectId|];
    [destruct (truthy projectId)|]; cbn; rewrite ?app_nil_r;
    repeat split; reflexivity.
Qed.

(* ------------------------------------------------------------------ *)
(** *** Prompts *)

Lemma startsWith_refl a : startsWith a a = true.
Proof. induction a; cbn; [reflexivity|]. now rewrite N.eqb_refl. Qed.

Lemma jsstring_eqb_eq a b : jsstring_eqb a b = true <-> a = b.
Proof.
  unfold jsstring_eqb. split.
  - intros H. apply andb_true_iff in H as [Hl Hs]. apply Nat.eqb_eq in Hl.
    revert b Hl Hs. induction a as [|x a IH]; intros [|y b] Hl Hs;
      try discriminate; [reflexivity|].
    cbn in Hs. apply andb_true_iff in Hs as [Hx Hs]. apply N.eqb_eq in Hx.
    subst y. f_equal. apply IH; [now injection Hl|exact Hs].
  - intros <-. now rewrite Nat.eqb_refl, startsWith_refl.
Qed.

Lemma hasId_In id prompts :
  hasId id prompts = true <-> In id (map cp_id prompts).
Proof.
  unfold hasId. rewrite existsb_exists, in_map_iff. split.
  - intros (p & Hp & He). apply jsstring_eqb_eq in He. eauto.
  - intros (p & He & Hp). exists p. split; [exact Hp|].
    now apply jsstring_eqb_eq.
Qed.

Lemma addMissing_ids merged initial :
  incl (map cp_id merged) (map cp_id (addMissing merged initial))
  /\ In (cp_id initial) (map cp_id (addMissing merged initial))
  /\ (forall id, In id (map cp_id (addMissing merged initial)) ->
      In id (map cp_id merged) \/ id = cp_id initial)
  /\ (NoDup (map cp_id merged) -> NoDup (map cp_id (addMissing merged initial)))
  /\ exists extra, addMissing merged initial = merged ++ extra.
Proof.
  unfold addMissing. destruct (hasId (cp_id initial) merged) eqn:E; cbn [negb].
  - apply hasId_In in E. repeat split; auto using incl_refl.
    exists []. now rewrite app_nil_r.
  - assert (Hn : ~ In (cp_id initial) (map cp_id merged)).
    { intros H. apply hasId_In in H. congruence. }
    rewrite map_app. cbn [map]. repeat split.
    + apply incl_appl, incl_refl.
    + apply in_or_app. right. now left.
    + intros id H. apply in_app_or in H as [H|[<-|[]]]; auto.
    + intros Hnd. apply NoDup_app; [exact Hnd|repeat constructor; intros []|].
      intros id H [<-|[]]. contradiction.
    + eauto.
Qed.

Lemma fold_addMissing initials : forall merged,
  let result := fold_left addMissing initials merged in
  incl (map cp_id merged) (map cp_id result)
  /\ incl (map cp_id initials) (map cp_id result)
  /\ (forall id, In id (map cp_id result) ->
      In id (map cp_id merged) \/ In id (map cp_id initials))
  /\ (NoDup (map cp_id merged) -> NoDup (map cp_id result))
  /\ exists extra, result = merged ++ extra.
Proof.
  induction initials as [|i initials IH]; intros merged; cbn [fold_left].
  - repeat split; auto using incl_refl.
    + intros x [].
    + exists []. now rewrite app_nil_r.
  - destruct (addMissing_ids merged i) as (A1 & A2 & A3 & A4 & (ex1 & A5)).
    destruct (IH (addMissing merged i)) as (B1 & B2 & B3 & B4 & (ex2 & B5)).
    cbv zeta in *. repeat split.
    + eapply incl_tran; eauto.
    + intros x [<-|Hx]; [now apply B1|now apply B2].
    + intros id H. apply B3 in H as [H|H]; [|right; now right].
      apply A3 in H as [H| ->]; [now left|right; now left].
    + auto.
    + exists (ex1 ++ ex2). now rewrite B5, A5, app_assoc.
Qed.

Lemma allPrompts_facts custom :
  incl (map cp_id initialPrompts) (map cp_id (allPrompts custom))
  /\ incl (map cp_id custom) (map cp_id (allPrompts custom))
  /\ (forall id, In id (map cp_id (allPrompts custom)) ->
      In id (map cp_id custom) \/ In id (map cp_id initialPrompts))
  /\ (NoDup (map cp_id custom) -> NoDup (map cp_id (allPrompts custom)))
  /\ exists extra, allPrompts custom = custom ++ extra.
Proof.
  destruct custom as [|c custom].
  - cbn [allPrompts]. repeat split; auto using incl_refl.
    + intros x [].
    + intros _. vm_compute.
      repeat (constructor; [cbn; intuition discriminate|]). constructor.
    + now exists initialPrompts.
  - unfold allPrompts.
    destruct (fold_addMissing initialPrompts (c :: custom))
      as (H1 & H2 & H3 & H4 & H5).
    cbv zeta in *. repeat split; auto.
Qed.

Lemma addMissing_present merged initial :
  hasId (cp_id initial) merged = true -> addMissing merged initial = merged.
Proof. unfold addMissing. now intros ->. Qed.

Lemma addMissing_absent merged initial :
  hasId (cp_id initial) merged = false ->
  addMissing merged initial = merged ++ [initial].
Proof. unfold addMissing. now intros ->. Qed.

Lemma hasId_app id a b : hasId id (a ++ b) = hasId id a || hasId id b.
Proof. unfold hasId. apply existsb_app. Qed.

Lemma fold_addMissing_added initials : forall merged,
  exists added,
    fold_left addMissing initials merged = merged ++ added
    /\ incl added initials
    /\ forall p, In p added -> hasId (cp_id p) merged = false.
Proof.
  induction initials as [|i initials IH]; intros merged; cbn [fold_left].
  - exists []. rewrite app_nil_r. repeat split; [apply incl_refl|intros p []].
  - destruct (IH (addMissing merged i)) as (added & E & Hincl & Hnew).
    destruct (hasId (cp_id i) merged) eqn:Hi.
    + rewrite (addMissing_present _ _ Hi) in *.
      exists added. repeat split; auto. now apply incl_tl.
    + rewrite (addMissing_absent _ _ Hi) in *.
      exists (i :: added). rewrite E, <- app_assoc. repeat split.
      * intros x [<-|Hx]; [now left|right; now apply Hincl].
      * intros p [<-|Hp]; [exact Hi|].
        specialize (Hnew p Hp). rewrite hasId_app in Hnew.
        now apply orb_false_iff in Hnew.
Qed.

Lemma fold_addMissing_complete initials : forall merged,
  (forall i, In i initials -> hasId (cp_id i) merged = true) ->
  fold_left addMissing initials merged = merged.
Proof.
  induction initials as [|i initials IH]; intros merged H; [reflexivity|].
  cbn [fold_left]. rewrite addMissing_present by (apply H; now left).
  apply IH. intros j Hj. apply H. now right.
Qed.

Lemma allPrompts_has_builtin custom i :
  In i initialPrompts -> hasId (cp_id i) (allPrompts custom) = true.
Proof.
  intros Hi. apply hasId_In.
  apply (proj1 (allPrompts_facts custom)). now apply in_map.
Qed.

Lemma allPrompts_nonempty custom : allPrompts custom <> [].
Proof.
  intros E.
  pose proof (allPrompts_has_builtin custom _ (or_introl eq_refl)) as H.
  rewrite E in H. discriminate H.
Qed.

Lemma allPrompts_fold l :
  l <> [] -> allPrompts l = fold_left addMissing initialPrompts l.
Proof. destruct l; [contradiction|reflexivity]. Qed.

(** X17. The list of prompts offered always contains the four built-in
    prompts and is never empty; the user's own prompts come first, in
    their order, and only built-in prompts whose id they lack are added
    after them; with distinct ids among the user's prompts all ids offered
    are distinct; and saving the list offered as the user's list offers
    the same list again. *)
Theorem builtin_prompts_are_always_offered custom :
  (forall id, In id [js "note"; js "meeting"; js "tasks"; js "email"] ->
      hasId id (allPrompts custom) = true)
  /\ allPrompts custom <> []
  /\ (exists added,
        allPrompts custom = custom ++ added
        /\ incl added initialPrompts
        /\ forall p, In p added -> hasId (cp_id p) custom = false)
  /\ (NoDup (map cp_id custom) -> NoDup (map cp_id (allPrompts custom)))
  /\ allPrompts (allPrompts custom) = allPrompts custom.
Proof.
  split; [|split; [|split; [|split]]].
  - intros id Hid. apply hasId_In.
    apply (proj1 (allPrompts_facts custom)). exact Hid.
  - apply allPrompts_nonempty.
  - destruct custom as [|c custom].
    + exists initialPrompts. split; [reflexivity|].
      split; [apply incl_refl|reflexivity].
    + apply (fold_addMissing_added initialPrompts (c :: custom)).
  - apply allPrompts_facts.
  - rewrite allPrompts_fold by apply allPrompts_nonempty.
    apply fold_addMissing_complete. intros i. apply allPrompts_has_builtin.
Qed.



Lemma hasId_filter x id l :
  hasId x (filter (fun cp => negb (jsstring_eqb (cp_id cp) id)) l)
  = hasId x l && negb (jsstring_eqb x id).
Proof.
  unfold hasId. induction l as [|c l IH]; [reflexivity|]. cbn [filter existsb].
  destruct (jsstring_eqb (cp_id c) id) eqn:Ec; cbn [negb existsb].
  - rewrite IH. destruct (jsstring_eqb (cp_id c) x) eqn:Ex; [|reflexivity].
    apply jsstring_eqb_eq in Ec, Ex. subst.
    replace (jsstring_eqb (cp_id c) (cp_id c)) with true
      by (symmetry; now apply jsstring_eqb_eq).
    cbn. now rewrite andb_false_r.
  - rewrite IH. destruct (jsstring_eqb (cp_id c) x) eqn:Ex; [|reflexivity].
    apply jsstring_eqb_eq in Ex. subst. now rewrite Ec.
Qed.

Lemma jsstring_eqb_neq a b : a <> b -> jsstring_eqb a b = false.
Proof.
  intros H. destruct (jsstring_eqb a b) eqn:E; [|reflexivity].
  now apply jsstring_eqb_eq in E.
Qed.

Lemma fold_addMissing_one pre p post merged :
  NoDup (map cp_id (pre ++ p :: post)) ->
  hasId (cp_id p) merged = false ->
  (forall i, In i (pre ++ post) -> hasId (cp_id i) merged = true) ->
  fold_left addMissing (pre ++ p :: post) merged = merged ++ [p].
Proof.
  intros Hnd Hp Hothers.
  rewrite fold_left_app. cbn [fold_left].
  rewrite (fold_addMissing_complete pre merged)
    by (intros i Hi; apply Hothers, in_or_app; now left).
  rewrite (addMissing_absent _ _ Hp).
  apply fold_addMissing_complete. intros i Hi.
  rewrite hasId_app, Hothers by (apply in_or_app; now right). reflexivity.
Qed.

Lemma initialPrompts_NoDup : NoDup (map cp_id initialPrompts).
Proof.
  vm_compute. repeat (constructor; [cbn; intuition discriminate|]). constructor.
Qed.

(** X19. A built-in prompt cannot be deleted for good, and the guard
    against deleting the last prompt never applies, as at least four
    prompts are always offered: after the delete button has saved the list
    without it, a built-in prompt is offered again, with its built-in name
    and text, at the end of the list.  A prompt that is not built in is
    gone after its deletion. *)
Theorem deleted_builtin_prompt_comes_back custom :
  4 <= List.length (allPrompts custom)
  /\ (forall p, In p initialPrompts ->
      allPrompts (deletePrompt (cp_id p) custom)
      = filter (fun cp => negb (jsstring_eqb (cp_id cp) (cp_id p)))
          (allPrompts custom) ++ [p])
  /\ (forall id, hasId id initialPrompts = false ->
      hasId id (allPrompts (deletePrompt id custom)) = false).
Proof.
  assert (Hlen : 4 <= List.length (allPrompts custom)).
  { change 4 with (List.length (map cp_id initialPrompts)).
    rewrite <- (length_map cp_id (allPrompts custom)).
    apply NoDup_incl_length; [apply initialPrompts_NoDup|].
    apply allPrompts_facts. }
  assert (Hdel : forall id,
             deletePrompt id custom
             = filter (fun cp => negb (jsstring_eqb (cp_id cp) id))
                 (allPrompts custom)).
  { intros id. unfold deletePrompt.
    destruct (List.length (allPrompts custom) <=? 1) eqn:E; [|reflexivity].
    apply Nat.leb_le in E. lia. }
  split; [exact Hlen|]. split.
  - intros p Hp. rewrite Hdel.
    set (F := filter _ (allPrompts custom)).
    assert (HF : forall i, In i initialPrompts ->
               hasId (cp_id i) F = negb (jsstring_eqb (cp_id i) (cp_id p))).
    { intros i Hi. unfold F.
      now rewrite hasId_filter, (allPrompts_has_builtin custom i Hi). }
    destruct (in_split _ _ Hp) as (pre & post & Esplit).
    pose proof initialPrompts_NoDup as Hnd. rewrite Esplit in Hnd.
    assert (Hothers : forall i, In i (pre ++ post) -> hasId (cp_id i) F = true).
    { intros i Hi. rewrite HF.
      - rewrite jsstring_eqb_neq; [reflexivity|].
        rewrite map_app in Hnd. cbn [map] in Hnd.
        apply NoDup_remove_2 in Hnd. intros E. apply Hnd. rewrite <- E.
        rewrite <- map_app. now apply in_map.
      - rewrite Esplit. apply in_app_or in Hi as [Hi|Hi];
          apply in_or_app; [now left|right; now right]. }
    assert (HpF : hasId (cp_id p) F = false).
    { rewrite (HF p Hp).
      replace (jsstring_eqb (cp_id p) (cp_id p)) with true
        by (symmetry; now apply jsstring_eqb_eq). reflexivity. }
    assert (Hne : F <> []).
    { intros E.
      assert (Hl : 3 <= List.length (pre ++ post)).
      { pose proof (f_equal (@List.length _) Esplit) as El.
        rewrite !length_app in *. cbn [List.length] in El.
        change (List.length initialPrompts) with 4 in El. lia. }
      destruct (pre ++ post) as [|i rest] eqn:Epp; [cbn in Hl; lia|].
      specialize (Hothers i (or_introl eq_refl)). rewrite E in Hothers.
      discriminate Hothers. }
    rewrite (allPrompts_fold F Hne), Esplit.
    now apply fold_addMissing_one.
  - intros id Hid. rewrite Hdel.
    set (F := filter _ (allPrompts custom)).
    destruct (hasId id (allPrompts F)) eqn:E; [|reflexivity].
    apply hasId_In in E.
    apply (proj1 (proj2 (proj2 (allPrompts_facts F)))) in E as [E|E].
    + apply hasId_In in E. unfold F in E. rewrite hasId_filter in E.
      replace (jsstring_eqb id id) with true in E
        by (symmetry; now apply jsstring_eqb_eq).
      now rewrite andb_false_r in E.
    + apply hasId_In in E. congruence.
Qed.

(* ------------------------------------------------------------------ *)
(** *** Project folders *)

Lemma digitsOf_digits width n :
  Forall (fun c => (48 <= c <= 57)%N) (digitsOf width n).
Proof.
  unfold digitsOf, padStart. apply Forall_app. split.
  - apply Forall_forall. intros c Hc. apply repeat_spec in Hc. subst. lia.
  - apply uint_digits_are_digits.
Qed.

Lemma digitsOf_length width n :
  fitsWidth width n -> List.length (digitsOf width n) = width.
Proof.
  unfold fitsWidth, digitsOf, padStart. intros H.
  rewrite length_app, repeat_length. lia.
Qed.

Lemma removeDashColon_digits s :
  Forall (fun c => (48 <= c <= 57)%N) s -> removeDashColon s = s.
Proof.
  unfold removeDashColon.
  induction 1 as [|c s Hc _ IH]; [reflexivity|]. cbn [filter].
  replace ((c =? 45) || (c =? 58))%N with false.
  - cbn [negb]. now rewrite IH.
  - symmetry. apply orb_false_iff. split; apply N.eqb_neq; lia.
Qed.

Lemma replaceFirstChar_digits c r s t :
  (c < 48 \/ 57 < c)%N ->
  Forall (fun x => (48 <= x <= 57)%N) s ->
  replaceFirstChar c r (s ++ c :: t) = s ++ r :: t.
Proof.
  intros Hc. induction 1 as [|x s Hx _ IH]; cbn.
  - now rewrite N.eqb_refl.
  - replace (x =? c)%N with false by (symmetry; apply N.eqb_neq; lia).
    now rewrite IH.
Qed.

Lemma cutFraction_digits s x t :
  Forall (fun c => c <> 46%N) s ->
  isLineTerminator x = false ->
  Forall (fun c => isLineTerminator c = false) t ->
  cutFraction (s ++ 46%N :: x :: t) = s.
Proof.
  intros Hs Hx Ht. induction Hs as [|c s Hc _ IH]; cbn [app cutFraction].
  - cbn. rewrite Hx. cbn.
    induction Ht as [|y t Hy _ IHt]; [reflexivity|]. cbn. now rewrite Hy.
  - replace (c =? 46)%N with false by (symmetry; now apply N.eqb_neq).
    cbn [andb]. now rewrite IH.
Qed.

Lemma timestamp_shape Y M D h m s ms :
  List.length Y = 4 -> List.length M = 2 -> List.length D = 2 ->
  List.length h = 2 -> List.length m = 2 -> List.length s = 2 ->
  List.length ms = 3 ->
  Forall (fun c => (48 <= c <= 57)%N) (Y ++ M ++ D ++ h ++ m ++ s ++ ms) ->
  firstn 15
    (cutFraction
       (replaceFirstChar 84 95
          (removeDashColon
             (Y ++ [45%N] ++ M ++ [45%N] ++ D ++ [84%N] ++ h ++ [58%N] ++ m
                ++ [58%N] ++ s ++ [46%N] ++ ms ++ [90%N]))))
  = Y ++ M ++ D ++ [95%N] ++ h ++ m ++ s.
Proof.
  intros LY LM LD Lh Lm Ls Lms Hd.
  rewrite !Forall_app in Hd. destruct Hd as (DY & DM & DD & Dh & Dm & Ds & Dms).
  unfold removeDashColon. rewrite !filter_app.
  cbn [filter N.eqb Pos.eqb orb negb app].
  fold (removeDashColon Y) (removeDashColon M) (removeDashColon D)
       (removeDashColon h) (removeDashColon m) (removeDashColon s)
       (removeDashColon ms).
  rewrite !removeDashColon_digits by assumption.
  replace (Y ++ M ++ D ++ 84%N :: h ++ m ++ s ++ 46%N :: ms ++ [90%N])
    with ((Y ++ M ++ D) ++ 84%N :: h ++ m ++ s ++ 46%N :: ms ++ [90%N])
    by (now rewrite <- !app_assoc).
  rewrite replaceFirstChar_digits;
    [|lia|repeat (apply Forall_app; split); assumption].
  destruct ms as [|x ms']; [discriminate Lms|].
  replace ((Y ++ M ++ D) ++ 95%N :: h ++ m ++ s ++ 46%N :: (x :: ms') ++ [90%N])
    with (((Y ++ M ++ D) ++ 95%N :: h ++ m ++ s) ++ 46%N :: x :: ms' ++ [90%N])
    by (rewrite <- !app_assoc; cbn [app]; rewrite <- !app_assoc; reflexivity).
  assert (LT : forall c, (48 <= c <= 57)%N \/ c = 90%N ->
               isLineTerminator c = false).
  { intros c Hc. unfold isLineTerminator.
    rewrite !orb_false_iff, !N.eqb_neq. lia. }
  assert (ND : forall l, Forall (fun c => (48 <= c <= 57)%N) l ->
               Forall (fun c => c <> 46%N) l).
  { intros l Hl. eapply Forall_impl; [|exact Hl]. cbv beta. lia. }
  inversion Dms as [|? ? Hx Dms']; subst.
  rewrite cutFraction_digits.
  - rewrite <- !app_assoc. cbn [app].
    replace 15 with (List.length (Y ++ M ++ D ++ 95%N :: h ++ m ++ s))
      by (rewrite !length_app; cbn [List.length]; rewrite !length_app; lia).
    rewrite <- (app_nil_r (Y ++ M ++ D ++ 95%N :: h ++ m ++ s)) at 2.
    apply firstn_prefix.
  - apply Forall_app. split.
    + repeat (apply Forall_app; split); now apply ND.
    + constructor; [lia|]. repeat (apply Forall_app; split); now apply ND.
  - apply LT. now left.
  - apply Forall_app. split.
    + eapply Forall_impl; [|exact Dms']. cbv beta. intros c Hc.
      apply LT. now left.
    + repeat constructor.
Qed.

Lemma timestampOf_toISOString d :
  validDate d ->
  timestampOf (toISOString d)
  = digitsOf 4 (dp_year d) ++ digitsOf 2 (dp_month d) ++ digitsOf 2 (dp_day d)
      ++ js "_" ++ digitsOf 2 (dp_hours d) ++ digitsOf 2 (dp_minutes d)
      ++ digitsOf 2 (dp_seconds d)
  /\ List.length (timestampOf (toISOString d)) = 15
  /\ Forall (fun c => (48 <= c <= 57)%N \/ c = 95%N) (timestampOf (toISOString d)).
Proof.
  intros (HY & HM & HD & Hh & Hm & Hs & Hms).
  assert (E : timestampOf (toISOString d)
              = digitsOf 4 (dp_year d) ++ digitsOf 2 (dp_month d)
                  ++ digitsOf 2 (dp_day d) ++ js "_"
                  ++ digitsOf 2 (dp_hours d) ++ digitsOf 2 (dp_minutes d)
                  ++ digitsOf 2 (dp_seconds d)).
  { apply timestamp_shape; try (now apply digitsOf_length).
    rewrite !Forall_app. repeat split; apply digitsOf_digits. }
  split; [exact E|]. rewrite E. split.
  - change (js "_") with [95%N]. rewrite !length_app. cbn [List.length].
    rewrite !digitsOf_length by assumption. reflexivity.
  - assert (W : forall w n, Forall (fun c => (48 <= c <= 57)%N \/ c = 95%N)
                              (digitsOf w n)).
    { intros w n. eapply Forall_impl; [|apply digitsOf_digits]. cbv beta. auto. }
    rewrite !Forall_app. repeat split; try apply W.
    change (js "_") with [95%N]. constructor; [now right|constructor].
Qed.




Lemma folderIdOf_prefix timestamp name :
  List.length timestamp = 15 -> firstn 15 (folderIdOf timestamp name) = timestamp.
Proof.
  intros H. unfold folderIdOf. destruct (truthy name).
  - rewrite <- H. apply firstn_prefix.
  - rewrite <- H. apply firstn_all.
Qed.



(** X22. Renaming keeps the time stamp of a project: for a folder id made
    by [projects:create], the id after [projects:rename] is the one
    [projects:create] would have made at the same moment for the new name.
    So renaming to the current name leaves the id as it is, and after two
    renamings only the last name counts. *)
Theorem rename_keeps_the_time_stamp now name newName :
  validDate now ->
  let id := projects_create_id now name in
  projects_rename_id id newName = projects_create_id now (Some newName)
  /\ (or_else name [] = newName -> projects_rename_id id newName = id)
  /\ (forall lastName,
      projects_rename_id (projects_rename_id id newName) lastName
      = projects_rename_id id lastName).
Proof.
  intros Hv. cbv zeta.
  destruct (timestampOf_toISOString now Hv) as (_ & L & _).
  unfold projects_rename_id, projects_create_id.
  rewrite folderIdOf_prefix by exact L.
  assert (E : or_else (Some newName) [] = newName).
  { destruct newName; reflexivity. }
  rewrite E. split; [reflexivity|]. split.
  - now intros ->.
  - intros lastName. now rewrite folderIdOf_prefix by exact L.
Qed.

Lemma rename_keeps_the_time_stamp_witness :
  let now := {| dp_year := 2025; dp_month := 3; dp_day := 9;
                dp_hours := 14; dp_minutes := 5; dp_seconds := 0;
                dp_ms := 42 |} in
  projects_rename_id (projects_create_id now (Some (js "Entwurf"))) (js "Final")
  = js "20250309_140500_Final".
Proof.
  cbv zeta.
  destruct (rename_keeps_the_time_stamp
              {| dp_year := 2025; dp_month := 3; dp_day := 9;
                 dp_hours := 14; dp_minutes := 5; dp_seconds := 0;
                 dp_ms := 42 |} (Some (js "Entwurf")) (js "Final"))
    as (E & _).
  - unfold validDate, fitsWidth. repeat split; vm_compute; lia.
  - rewrite E. vm_compute. reflexivity.
Defined.

(* ------------------------------------------------------------------ *)
(** *** Saving the project: lock and queue *)

Lemma saverInv_saveCurrentProject data projectId sv :
  sv_desktop sv = true ->
  truthy (targetProjectId projectId sv) = true ->
  saverInv (sv <| sv_accepted ::= fun l => removelast l |>) ->
  sv_accepted sv
  = removelast (sv_accepted sv)
      ++ [{| sr_projectId := targetProjectId projectId sv; sr_data := data |}] ->
  saverInv (saveCurrentProject data projectId sv).
Proof.
  unfold saverInv, saveCurrentProject. intros Hd Ht (H1 & H2 & H3 & H4 & H5) Ha.
  rewrite Hd, Ht. cbn [negb orb].
  destruct sv as [desktop current lock queue inflight sent accepted].
  cbn in *. unfold RecordSetters.constant in *.
  destruct lock; cbn.
  - split; [exact H1|]. split; [discriminate|].
    split; [rewrite Ha, H3; now rewrite app_assoc|].
    split; [|auto].
    apply Forall_app. split; [exact H4|]. repeat constructor. exact Ht.
  - rewrite (H2 eq_refl) in *. rewrite app_nil_r in H3.
    split; [rewrite length_app; cbn; lia|]. split; [discriminate|].
    split; [rewrite Ha, H3; now rewrite app_nil_r|].
    split; [constructor|]. intros H. now contradiction H.
Qed.

Lemma saverInv_requestSave data projectId sv :
  saverInv sv -> saverInv (requestSave data projectId sv).
Proof.
  intros H. unfold requestSave.
  destruct (negb (sv_desktop sv) || negb (truthy (targetProjectId projectId sv)))
    eqn:G.
  - unfold saveCurrentProject. now rewrite G.
  - apply orb_false_iff in G as [Gd Gt].
    apply negb_false_iff in Gd, Gt.
    apply saverInv_saveCurrentProject.
    + destruct sv; exact Gd.
    + destruct sv; exact Gt.
    + destruct sv; cbn. unfold RecordSetters.constant.
      rewrite removelast_last. exact H.
    + destruct sv; cbn. unfold RecordSetters.constant.
      rewrite removelast_last. reflexivity.
Qed.

Lemma saverInv_saveSettled request i outcome sv :
  nth_error (sv_inFlight sv) i = Some request ->
  saverInv sv -> saverInv (saveSettled request i outcome sv).
Proof.
  intros Hn (H1 & H2 & H3 & H4 & H5).
  assert (Hlock : saveLockRef sv = true).
  { destruct (saveLockRef sv); [reflexivity|].
    destruct (sv_inFlight sv); [destruct i; discriminate Hn|discriminate H1]. }
  rewrite Hlock in H1.
  assert (Hin : remove_nth i (sv_inFlight sv) = []).
  { destruct (sv_inFlight sv) as [|x [|y l]]; try discriminate H1.
    destruct i as [|[|i]]; try discriminate Hn; reflexivity. }
  unfold saveSettled.
  set (sv3 := _ <| saveLockRef := false |>).
  assert (F : sv_desktop sv3 = sv_desktop sv /\ saveLockRef sv3 = false
              /\ saveQueueRef sv3 = saveQueueRef sv /\ sv_inFlight sv3 = []
              /\ sv_sent sv3 = sv_sent sv /\ sv_accepted sv3 = sv_accepted sv).
  { unfold sv3. destruct outcome as [updatedId|];
      [destruct (sv_currentId (sv <| sv_inFlight ::= remove_nth i |>)) as [c|] eqn:Ec;
       [destruct (jsstring_eqb c (sr_projectId request))|]|];
      destruct sv; cbn in *; rewrite Hin; repeat split. }
  clearbody sv3. destruct F as (F1 & F2 & F3 & F4 & F5 & F6).
  destruct (saveQueueRef sv3) as [|next rest] eqn:Eq.
  - unfold saverInv. rewrite F2, F4, F5, F6, Eq, H3, <- F3.
    repeat split; auto.
  - rewrite <- F3 in *. inversion H4 as [|? ? Hnext Hrest]; subst.
    assert (Hd : sv_desktop sv = true) by (apply H5; discriminate).
    assert (Ht : forall x, targetProjectId (Some (sr_projectId next)) x
                           = sr_projectId next).
    { intros x. unfold targetProjectId. cbn [or_else]. now rewrite Hnext. }
    unfold saveCurrentProject. rewrite Ht.
    replace (sv_desktop (sv3 <| saveQueueRef := rest |>)) with true
      by (destruct sv3; cbn in *; congruence).
    rewrite Hnext. cbn [negb orb].
    replace (saveLockRef (sv3 <| saveQueueRef := rest |>)) with false
      by (destruct sv3; cbn in *; congruence).
    unfold saverInv.
    destruct sv3 as [desktop current lock queue inflight sent accepted].
    cbn in *. unfold RecordSetters.constant. subst.
    split; [reflexivity|]. split; [discriminate|].
    split; [|split; [exact Hrest|auto]].
    rewrite H3. destruct next. cbn. now rewrite <- app_assoc.
Qed.

Lemma saverInv_run acts : forall sv sv',
  saverInv sv -> saverRun acts sv = Some sv' -> saverInv sv'.
Proof.
  induction acts as [|a acts IH]; intros sv sv' H Hrun; cbn [saverRun] in Hrun.
  - now injection Hrun as <-.
  - destruct (saverStep a sv) as [sv1|] eqn:Hs; [|discriminate].
    apply (IH sv1); [|exact Hrun].
    destruct a as [data projectId|i outcome]; cbn [saverStep] in Hs.
    + injection Hs as <-. now apply saverInv_requestSave.
    + destruct (nth_error (sv_inFlight sv) i) as [request|] eqn:Hn;
        [|discriminate].
      injection Hs as <-. now apply saverInv_saveSettled.
Qed.

(** X23. The renderer sends one save at a time, in the order asked for.
    From an idle component and whatever the order in which requests come
    and calls settle (resolved or rejected): at most one call of
    [desktop.projects.save] is awaited, and the lock is held exactly then;
    the requests that had the API and a project id are, in their order,
    the calls made followed by the queue; and while no call is awaited the
    queue is empty, so every such request has been sent, once. *)
Theorem saves_go_out_one_at_a_time desktop current acts sv :
  saverRun acts (idleSaver desktop current) = Some sv ->
  List.length (sv_inFlight sv) <= 1
  /\ (saveLockRef sv = true <-> sv_inFlight sv <> [])
  /\ sv_accepted sv = sv_sent sv ++ saveQueueRef sv
  /\ (sv_inFlight sv = [] -> saveQueueRef sv = [] /\ sv_sent sv = sv_accepted sv).
Proof.
  intros Hrun.
  assert (H0 : saverInv (idleSaver desktop current)).
  { unfold saverInv. cbn. repeat split; auto. }
  destruct (saverInv_run acts _ _ H0 Hrun) as (H1 & H2 & H3 & _).
  split; [|split; [|split]].
  - rewrite H1. destruct (saveLockRef sv); lia.
  - destruct (saveLockRef sv), (sv_inFlight sv); cbn in H1;
      try discriminate H1; split; intros; try discriminate; auto.
  - exact H3.
  - intros E. rewrite E in H1.
    destruct (saveLockRef sv); [discriminate H1|].
    rewrite H3, (H2 eq_refl), app_nil_r. auto.
Qed.

Lemma saves_go_out_one_at_a_time_witness :
  let d1 := noData <| d_rawTranscript := Some (js "a") |> in
  let d2 := noData <| d_rawTranscript := Some (js "ab") |> in
  let d3 := noData <| d_audioFiles := Some [] |> in
  let acts := [AskSave d1 (Some (js "p1")); AskSave d2 (Some (js "p1"));
               AskSave d3 None; AskSave d3 (Some []);
               SaveAnswered 0 (Resolved (js "p1"));
               SaveAnswered 0 (Rejected (js "EIO"));
               SaveAnswered 0 (Resolved (js "p1"));
               SaveAnswered 0 (Resolved (js "p1"))] in
  let sv := saverAfter acts (idleSaver true (Some (js "p1"))) in
  sv_inFlight sv = []
  /\ map sr_data (sv_sent sv) = [d1; d2; d3; d3]
  /\ sv_sent sv = sv_accepted sv.
Proof.
  cbv zeta.
  split; [reflexivity|]. split; [reflexivity|].
  match goal with
  | |- sv_sent (saverAfter ?acts ?sv0) = _ =>
      apply (saves_go_out_one_at_a_time true (Some (js "p1")) acts
               (saverAfter acts sv0))
  end.
  - vm_compute. reflexivity.
  - reflexivity.
Defined.

(* ------------------------------------------------------------------ *)
(** *** Saving the project: the handler of [projects:save] *)

Lemma jsstring_eqb_refl a : jsstring_eqb a a = true.
Proof. now apply jsstring_eqb_eq. Qed.

Lemma jsstring_eqb_sym a b : jsstring_eqb a b = jsstring_eqb b a.
Proof.
  destruct (jsstring_eqb a b) eqn:E1, (jsstring_eqb b a) eqn:E2; auto.
  - apply jsstring_eqb_eq in E1. subst. now rewrite jsstring_eqb_refl in E2.
  - apply jsstring_eqb_eq in E2. subst. now rewrite jsstring_eqb_refl in E1.
Qed.

Lemma setKey_same {A} key (v : A) m : setKey key v m key = v.
Proof. unfold setKey. now rewrite jsstring_eqb_refl. Qed.

Lemma setKey_other {A} key (v : A) m k :
  jsstring_eqb k key = false -> setKey key v m k = m k.
Proof. unfold setKey. now intros ->. Qed.

Lemma forallb_filter_nil {A} (f : A -> bool) l :
  filter f l = [] -> Forall (fun x => f x = false) l.
Proof.
  induction l as [|x l IH]; [constructor|]. cbn.
  destruct (f x) eqn:E; [discriminate|]. intros H. constructor; auto.
Qed.

Lemma savesOf_snoc p log a :
  savesOf p (log ++ [a])
  = savesOf p log ++ (if jsstring_eqb (ap_projectId a) p then [a] else []).
Proof. unfold savesOf. rewrite filter_app. reflexivity. Qed.

Lemma replay_snoc content log a :
  replay content (log ++ [a]) = applySave (replay content log) a.
Proof. unfold replay. now rewrite fold_left_app. Qed.

Section MainInvariant.
Variable files0 : jsstring -> option FileContent.

Lemma upToDate_locks mp f t :
  upToDate mp t -> upToDate (mp <| projectSaveLocks ::= f |>) t.
Proof. destruct mp, t; exact (fun H => H). Qed.

Lemma upToDate_tasks mp f t :
  upToDate mp t -> upToDate (mp <| saveTasks ::= f |>) t.
Proof. destruct mp, t; exact (fun H => H). Qed.

Lemma mainInv_invoke projectId data mp :
  mainInv files0 mp ->
  mainInv files0 (mp <| saveTasks ::= fun l => l ++ [TEntering projectId data] |>).
Proof.
  intros (H1 & H2 & H3). unfold mainInv.
  destruct mp as [locks files temps tasks log]. cbn in *.
  split; [|split; [exact H2|]].
  - intros p. unfold holders. rewrite filter_app. cbn. rewrite app_nil_r.
    apply H1.
  - apply Forall_app. split; [|repeat constructor].
    eapply Forall_impl; [|exact H3]. intros t Ht. destruct t; exact Ht.
Qed.

Lemma mainInv_enterSave i projectId data mp t :
  nth_error (saveTasks mp) i = Some t ->
  holdsLock t = false ->
  mainInv files0 mp -> mainInv files0 (enterSave i projectId data mp).
Proof.
  intros Hn Ht (H1 & H2 & H3). unfold enterSave, mainInv.
  destruct (projectSaveLocks mp projectId) eqn:Hl;
    destruct mp as [locks files temps tasks log]; cbn in *.
  - split; [|split; [exact H2|]].
    + intros p. specialize (H1 p). unfold holders in *.
      pose proof (count_replace_nth
                    (fun t => holdsLock t && jsstring_eqb (taskProject t) p)
                    tasks i t (TSleeping projectId data) Hn) as Hc.
      cbn in Hc. rewrite Ht in Hc. cbn in Hc. lia.
    + apply Forall_replace_nth; [exact I|].
      eapply Forall_impl; [|exact H3]. intros x Hx. destruct x; exact Hx.
  - split; [|split; [exact H2|]].
    + intros p. specialize (H1 p). unfold holders in *.
      pose proof (count_replace_nth
                    (fun t => holdsLock t && jsstring_eqb (taskProject t) p)
                    tasks i t (TReading projectId data) Hn) as Hc.
      cbn in Hc. rewrite Ht in Hc. cbn in Hc.
      unfold setKey. rewrite (jsstring_eqb_sym p projectId).
      destruct (jsstring_eqb projectId p) eqn:E.
      * apply jsstring_eqb_eq in E. subst p. rewrite Hl in H1. lia.
      * lia.
    + apply Forall_replace_nth; [exact I|].
      eapply Forall_impl; [|exact H3]. intros x Hx. destruct x; exact Hx.
Qed.

Lemma mainInv_leaveSave i mp t :
  nth_error (saveTasks mp) i = Some t ->
  holdsLock t = true ->
  (forall p, List.length (holders p (saveTasks mp))
             = if projectSaveLocks mp p then 1 else 0) ->
  (forall p, metaFiles mp p
             = match files0 p with
               | Some content => Some (replay content (savesOf p (appliedSaves mp)))
               | None => None
               end) ->
  Forall (upToDate mp) (remove_nth i (saveTasks mp)) ->
  mainInv files0 (leaveSave i (taskProject t) mp).
Proof.
  intros Hn Ht H1 H2 H3. unfold leaveSave, mainInv.
  destruct mp as [locks files temps tasks log]; cbn in *.
  split; [|split; [exact H2|]].
  - intros p. specialize (H1 p). unfold holders in *.
    pose proof (count_remove_nth
                  (fun t => holdsLock t && jsstring_eqb (taskProject t) p)
                  tasks i t Hn) as Hc.
    cbn in Hc. rewrite Ht in Hc. cbn [andb] in Hc.
    unfold setKey. rewrite (jsstring_eqb_sym p (taskProject t)).
    destruct (jsstring_eqb (taskProject t) p) eqn:E.
    + destruct (locks p); cbn in *; lia.
    + cbn in Hc. lia.
  - eapply Forall_impl; [|exact H3]. intros x Hx. destruct x; exact Hx.
Qed.

Lemma others_do_not_hold i mp t :
  nth_error (saveTasks mp) i = Some t ->
  holdsLock t = true ->
  (forall p, List.length (holders p (saveTasks mp))
             = if projectSaveLocks mp p then 1 else 0) ->
  Forall (fun x => holdsLock x && jsstring_eqb (taskProject x) (taskProject t)
                   = false)
         (remove_nth i (saveTasks mp)).
Proof.
  intros Hn Ht H1. apply forallb_filter_nil.
  specialize (H1 (taskProject t)). unfold holders in H1.
  pose proof (count_remove_nth
                (fun x => holdsLock x
                          && jsstring_eqb (taskProject x) (taskProject t))
                (saveTasks mp) i t Hn) as Hc.
  cbn in Hc. rewrite Ht, jsstring_eqb_refl in Hc. cbn in Hc.
  destruct (projectSaveLocks mp (taskProject t)); [|lia].
  destruct (filter _ (remove_nth i (saveTasks mp))); [reflexivity|].
  cbn in Hc. lia.
Qed.


Lemma mainInv_step a mp mp' :
  mainInv files0 mp -> mainStep a mp = Some mp' -> mainInv files0 mp'.
Proof.
  intros H Hs. destruct a as [p d|i ok|i|i ok parsedAt mergedAt|i ok|i ok];
    cbn [mainStep] in Hs.
  - injection Hs as <-. now apply mainInv_invoke.
  - destruct (nth_error (saveTasks mp) i) as [[p d|p d|p d|a u|a u]|] eqn:Hn;
      try discriminate.
    destruct ok; injection Hs as <-; [eapply mainInv_enterSave; eauto|].
    destruct H as (H1 & H2 & H3). unfold mainInv.
    destruct mp as [locks files temps tasks log]; cbn in *.
    split; [|split; [exact H2|]].
    + intros q. specialize (H1 q). unfold holders in *.
      pose proof (count_remove_nth
                    (fun t => holdsLock t && jsstring_eqb (taskProject t) q)
                    tasks i _ Hn) as Hcount.
      cbn in Hcount. lia.
    + apply Forall_remove_nth.
      eapply Forall_impl; [|exact H3]. intros x Hx. destruct x; exact Hx.
  - destruct (nth_error (saveTasks mp) i) as [[p d|p d|p d|a u|a u]|] eqn:Hn;
      try discriminate.
    injection Hs as <-. eapply mainInv_enterSave; eauto.
  - destruct (nth_error (saveTasks mp) i) as [[p d|p d|p d|a u|a u]|] eqn:Hn;
      try discriminate.
    destruct H as (H1 & H2 & H3).
    destruct (if ok then metaFiles mp p else None) as [content|] eqn:Hc;
      injection Hs as <-.
    + assert (Hm : metaFiles mp p = Some content)
        by (destruct ok; [exact Hc|discriminate Hc]).
      unfold mainInv. destruct mp as [locks files temps tasks log]; cbn in *.
      split; [|split; [exact H2|]].
      * intros q. specialize (H1 q). unfold holders in *.
        pose proof (count_replace_nth
                      (fun t => holdsLock t && jsstring_eqb (taskProject t) q)
                      tasks i _
                      (TWritingTemp
                         {| ap_projectId := p; ap_data := d;
                            ap_parsedAt := parsedAt; ap_mergedAt := mergedAt |}
                         (mergeData (existingOf content parsedAt) d mergedAt))
                      Hn) as Hcount.
        cbn in Hcount. lia.
      * apply Forall_replace_nth.
        -- cbn. exists content. split; [exact Hm|reflexivity].
        -- eapply Forall_impl; [|exact H3]. intros x Hx. destruct x; exact Hx.
    + apply (mainInv_leaveSave i mp (TReading p d)); auto.
      now apply Forall_remove_nth.
  - destruct (nth_error (saveTasks mp) i) as [[p d|p d|p d|a u|a u]|] eqn:Hn;
      try discriminate.
    destruct H as (H1 & H2 & H3).
    destruct ok; injection Hs as <-.
    + pose proof (others_do_not_hold i mp _ Hn eq_refl H1) as Hothers.
      pose proof (Forall_nth_error _ _ _ _ H3 Hn) as Hme.
      cbn [taskProject upToDate] in Hothers, Hme.
      unfold mainInv. destruct mp as [locks files temps tasks log]; cbn in *.
      split; [|split; [exact H2|]].
      * intros q. specialize (H1 q). unfold holders in *.
        pose proof (count_replace_nth
                      (fun t => holdsLock t && jsstring_eqb (taskProject t) q)
                      tasks i _ (TRenaming a u) Hn) as Hcount.
        cbn in Hcount. lia.
      * assert (Hrest : Forall
                  (upToDate {| projectSaveLocks := locks; metaFiles := files;
                               tempFiles := setKey (ap_projectId a) (Some u) temps;
                               saveTasks := replace_nth i (TRenaming a u) tasks;
                               appliedSaves := log |})
                  (remove_nth i tasks)).
        { pose proof (Forall_remove_nth _ _ i H3) as H3'.
          rewrite Forall_forall in *. intros x Hx.
          specialize (Hothers x Hx). specialize (H3' x Hx).
          destruct x as [?|?|?|b v|b v]; cbn in *; auto.
          destruct H3' as [Hc Ht]. split; [exact Hc|].
          now rewrite setKey_other. }
        clear H3 H1.
        assert (Hgen : forall l j t,
                  nth_error l j = Some t ->
                  forall P : SaveTask -> Prop, P (TRenaming a u) ->
                  Forall P (remove_nth j l) ->
                  Forall P (replace_nth j (TRenaming a u) l)).
        { induction l as [|x l IH]; intros [|j] t Ht P HP Hr;
            try discriminate; cbn in *.
          - constructor; auto.
          - inversion Hr; subst. constructor; eauto. }
        apply (Hgen tasks i _ Hn); [|exact Hrest].
        cbn. split; [exact Hme|]. apply setKey_same.
    + apply (mainInv_leaveSave i mp (TWritingTemp a u)); auto.
      now apply Forall_remove_nth.
  - destruct (nth_error (saveTasks mp) i) as [[p d|p d|p d|a u|a u]|] eqn:Hn;
      try discriminate.
    destruct H as (H1 & H2 & H3).
    destruct (if ok then tempFiles mp (ap_projectId a) else None)
      as [moved|] eqn:Hc; injection Hs as <-.
    + assert (Ht : tempFiles mp (ap_projectId a) = Some moved)
        by (destruct ok; [exact Hc|discriminate Hc]).
      pose proof (others_do_not_hold i mp _ Hn eq_refl H1) as Hothers.
      pose proof (Forall_nth_error _ _ _ _ H3 Hn) as Hme.
      cbn [taskProject upToDate] in Hothers, Hme.
      destruct Hme as [(content & Hcontent & Happly) Htemp].
      assert (moved = u) by congruence. subst moved.
      apply (mainInv_leaveSave i _ (TRenaming a u)).
      * destruct mp; exact Hn.
      * reflexivity.
      * destruct mp; exact H1.
      * intros q. specialize (H2 q).
        destruct mp as [locks files temps tasks log]; cbn -[savesOf replay] in *.
        rewrite savesOf_snoc. unfold setKey.
        rewrite (jsstring_eqb_sym q (ap_projectId a)).
        destruct (jsstring_eqb (ap_projectId a) q) eqn:E.
        -- apply jsstring_eqb_eq in E. subst q.
           rewrite Hcontent in H2.
           destruct (files0 (ap_projectId a)) as [c0|]; [|discriminate H2].
           injection H2 as H2. rewrite replay_snoc, <- H2, Happly. reflexivity.
        -- now rewrite app_nil_r.
      * pose proof (Forall_remove_nth _ _ i H3) as H3'.
        destruct mp as [locks files temps tasks log]; cbn in *.
        rewrite Forall_forall in *. intros x Hx.
        specialize (Hothers x Hx). specialize (H3' x Hx).
        destruct x as [?|?|?|b v|b v]; cbn in *; auto.
        -- now rewrite setKey_other.
        -- now rewrite !setKey_other.
    + apply (mainInv_leaveSave i mp (TRenaming a u)); auto.
      now apply Forall_remove_nth.
Qed.

Lemma mainInv_run acts : forall mp mp',
  mainInv files0 mp -> mainRun acts mp = Some mp' -> mainInv files0 mp'.
Proof.
  induction acts as [|a acts IH]; intros mp mp' H Hrun; cbn [mainRun] in Hrun.
  - now injection Hrun as <-.
  - destruct (mainStep a mp) as [mp1|] eqn:Hs; [|discriminate].
    eauto using mainInv_step.
Qed.

Lemma mainInv_idle : mainInv files0 (idleMain files0).
Proof.
  unfold mainInv, idleMain. cbn. split; [reflexivity|]. split; [|constructor].
  intros p. now destruct (files0 p).
Qed.

End MainInvariant.


(** X24. The handler of [projects:save] lets one invocation at a time
    work on a project: whatever the number of invocations and the order
    of their steps, at most one of them per project is between taking the
    lock and the [finally] block, the lock of a project is set exactly
    while there is one, and when no invocation is left (each has returned
    or thrown) no lock is left. *)
Theorem project_saves_never_overlap files0 acts mp :
  mainRun acts (idleMain files0) = Some mp ->
  (forall p, List.length (holders p (saveTasks mp)) <= 1)
  /\ (forall p, projectSaveLocks mp p = true <-> holders p (saveTasks mp) <> [])
  /\ (saveTasks mp = [] -> forall p, projectSaveLocks mp p = false).
Proof.
  intros Hrun.
  destruct (mainInv_run files0 acts _ _ (mainInv_idle files0) Hrun) as (H1 & _).
  split; [|split].
  - intros p. rewrite H1. destruct (projectSaveLocks mp p); lia.
  - intros p. specialize (H1 p).
    destruct (projectSaveLocks mp p), (holders p (saveTasks mp));
      cbn in H1; try discriminate H1; split; intros; try discriminate; auto.
  - intros E p. specialize (H1 p). rewrite E in H1. cbn in H1.
    destruct (projectSaveLocks mp p); [discriminate H1|reflexivity].
Qed.

Lemma project_saves_never_overlap_witness :
  let mp := mainAfter (firstn 6 twoSaves) (idleMain oneDamagedProject) in
  List.length (saveTasks mp) = 2
  /\ List.length (holders (js "p1") (saveTasks mp)) = 1
  /\ projectSaveLocks mp (js "p1") = true.
Proof.
  cbv zeta. split; [reflexivity|]. split; [reflexivity|].
  apply (project_saves_never_overlap oneDamagedProject (firstn 6 twoSaves)).
  - vm_compute. reflexivity.
  - vm_compute. discriminate.
Defined.

(** X25. No completed save is lost or applied twice: while this handler
    is the only writer of the files, at any moment the [project.json] of a
    project holds its first content with the saves completed for it
    merged in, one after the other, each into what the one before left
    (or into the clean slate when the file did not parse); a project
    without a file stays without one. *)
Theorem completed_saves_are_applied_in_order files0 acts mp :
  mainRun acts (idleMain files0) = Some mp ->
  forall p,
    metaFiles mp p
    = match files0 p with
      | Some content => Some (replay content (savesOf p (appliedSaves mp)))
      | None => None
      end.
Proof.
  intros Hrun.
  now destruct (mainInv_run files0 acts _ _ (mainInv_idle files0) Hrun)
    as (_ & H2 & _).
Qed.

Lemma completed_saves_are_applied_in_order_witness :
  let mp := mainAfter twoSaves (idleMain oneDamagedProject) in
  map ap_mergedAt (appliedSaves mp) = [js "t1"; js "t3"]
  /\ metaFiles mp (js "p1")
     = Some (Json (mergeData
                     (mergeData (cleanSlate (js "t0"))
                        (noData <| d_rawTranscript := Some (js "a") |>) (js "t1"))
                     (noData <| d_segments := Some [] |>) (js "t3"))).
Proof.
  cbv zeta. split; [reflexivity|].
  rewrite (completed_saves_are_applied_in_order oneDamagedProject twoSaves
             (mainAfter twoSaves (idleMain oneDamagedProject))
             ltac:(vm_compute; reflexivity) (js "p1")).
  reflexivity.
Defined.

Lemma replay_shown meta later :
  Forall (fun a => d_segments (ap_data a) = None
                   /\ d_rawTranscript (ap_data a) = None) later ->
  exists meta',
    replay (Json meta) later = Json meta'
    /\ m_segments meta' = m_segments meta
    /\ m_rawTranscript meta' = m_rawTranscript meta.
Proof.
  revert meta. induction later as [|a later IH]; intros meta H.
  - exists meta. repeat split.
  - inversion H as [|? ? [Hs Hr] Hl]; subst.
    cbn [replay fold_left applySave existingOf].
    destruct (IH (mergeData meta (ap_data a) (ap_mergedAt a)) Hl)
      as (meta' & E & H1 & H2).
    exists meta'. split; [exact E|]. cbn in H1, H2.
    rewrite Hs in H1. rewrite Hr in H2. split; assumption.
Qed.

(** X26. A save changes the fields it gives and [updatedAt], nothing else:
    whatever saves complete after a file was written, its name, creation
    time, mode and language stay, and each of the four fields a save can
    carry (segments, raw transcript, audio files, enriched result) stays
    as it was unless one of those saves carries that field.  So the
    transcript saves of the worker never erase the saved segments. *)
Theorem project_save_keeps_other_fields meta later :
  exists meta',
    replay (Json meta) later = Json meta'
    /\ m_name meta' = m_name meta /\ m_createdAt meta' = m_createdAt meta
    /\ m_mode meta' = m_mode meta /\ m_language meta' = m_language meta
    /\ (Forall (fun a => d_segments (ap_data a) = None) later ->
        m_segments meta' = m_segments meta)
    /\ (Forall (fun a => d_rawTranscript (ap_data a) = None) later ->
        m_rawTranscript meta' = m_rawTranscript meta)
    /\ (Forall (fun a => d_audioFiles (ap_data a) = None) later ->
        m_audioFiles meta' = m_audioFiles meta)
    /\ (Forall (fun a => d_enrichedResult (ap_data a) = None) later ->
        m_enrichedResult meta' = m_enrichedResult meta).
Proof.
  revert meta. induction later as [|a later IH]; intros meta.
  - exists meta. repeat split; auto.
  - cbn [replay fold_left applySave existingOf].
    destruct (IH (mergeData meta (ap_data a) (ap_mergedAt a)))
      as (meta' & E & H1 & H2 & H3 & H4 & H5 & H6 & H7 & H8).
    exists meta'. split; [exact E|]. cbn in *.
    repeat split; try congruence;
      intros HF; inversion HF as [|? ? Ha Hl]; subst;
      [rewrite (H5 Hl)|rewrite (H6 Hl)|rewrite (H7 Hl)|rewrite (H8 Hl)];
      now rewrite Ha.
Qed.

(** X27. An edit is what a reload shows: when the save that
    [saveSegmentEdit] asks for has been applied to the project's file,
    whatever the file held before, [loadProject] set on that file shows
    the segments and the transcript that the editor shows; and this stays
    so after later saves that carry neither segments nor a transcript. *)
Theorem segment_edit_survives_reload segmentId e projectId content
    parsedAt mergedAt later :
  ed_currentProject e = Some projectId ->
  truthy projectId = true ->
  Forall (fun a => d_segments (ap_data a) = None
                   /\ d_rawTranscript (ap_data a) = None) later ->
  let e' := saveSegmentEdit segmentId e in
  exists data,
    ed_saves e' = ed_saves e ++ [(projectId, data)]
    /\ let stored :=
         replay (applySave content
                   {| ap_projectId := projectId; ap_data := data;
                      ap_parsedAt := parsedAt; ap_mergedAt := mergedAt |})
                later in
       shownSegments stored = Some (ed_segments e')
       /\ shownTranscript stored = Some (ed_transcript e').
Proof.
  intros Hp Ht Hlater. cbv zeta.
  destruct (saveSegmentEdit_saved segmentId e projectId Hp Ht) as [Htr Hsaves].
  eexists. split; [exact Hsaves|].
  unfold applySave. cbn [ap_data ap_parsedAt ap_mergedAt].
  match goal with
  | |- context [replay (Json ?m) later] =>
      destruct (replay_shown m later Hlater) as (meta' & E & Hseg & Hraw)
  end.
  rewrite E. cbn [shownSegments shownTranscript].
  rewrite Hseg, Hraw.
  cbn [mergeData m_segments m_rawTranscript d_segments d_rawTranscript orKeep
       loadedSegments].
  split; [reflexivity|]. f_equal.
  unfold loadedTranscript. cbn [loadedSegments or_else].
  rewrite <- Htr.
  destruct (ed_transcript (saveSegmentEdit segmentId e)); reflexivity.
Qed.

Lemma segment_edit_survives_reload_witness :
  let first := newSegment (sampleItem 0) (js "Hallo Welt") 4 in
  let second := newSegment (sampleItem 1) (js "Guten Tag") 2 in
  let e := {| ed_segments := [first; second];
              ed_transcript := js "Hallo Welt Guten Tag";
              transcriptValueRef := [];
              editingSegmentId := Some 1; editingText := js " Guten Morgen ";
              ed_currentProject := Some (js "p1");
              manualEditSaveTimer := None; ed_saves := [] |} in
  let later := [{| ap_projectId := js "p1";
                   ap_data := noData <| d_audioFiles := Some [js "a.webm"] |>;
                   ap_parsedAt := js "t2"; ap_mergedAt := js "t3" |}] in
  exists data,
    ed_saves (saveSegmentEdit 1 e) = [(js "p1", data)]
    /\ shownSegments
         (replay (applySave Corrupt
                    {| ap_projectId := js "p1"; ap_data := data;
                       ap_parsedAt := js "t0"; ap_mergedAt := js "t1" |})
                 later)
       = Some [first; second <| text := js "Guten Morgen" |>]
    /\ shownTranscript
         (replay (applySave Corrupt
                    {| ap_projectId := js "p1"; ap_data := data;
                       ap_parsedAt := js "t0"; ap_mergedAt := js "t1" |})
                 later)
       = Some (js "Hallo Welt Guten Morgen").
Proof.
  cbv zeta.
  match goal with
  | |- context [saveSegmentEdit 1 ?e] =>
      destruct (segment_edit_survives_reload 1 e (js "p1") Corrupt
                  (js "t0") (js "t1")
                  [{| ap_projectId := js "p1";
                      ap_data := noData <| d_audioFiles := Some [js "a.webm"] |>;
                      ap_parsedAt := js "t2"; ap_mergedAt := js "t3" |}]
                  eq_refl eq_refl)
        as (data & H1 & H2 & H3)
  end.
  - repeat constructor.
  - exists data. split; [exact H1|]. split.
    + rewrite H2. reflexivity.
    + rewrite H3. reflexivity.
Defined.
